(** * The SES email forwarder of [index.js], embedded in Rocq

    The Lambda handler of [index.js] runs five steps over one [data] object:
    [parseEvent], [transformRecipients], [fetchMessage], [processMessage]
    and [sendMessage].  This file embeds each step as a function, the
    handler as a loop over the step list in a small error monad that logs
    the calls made to S3 and SES, and states the properties of the
    forwarder over that embedding.

    JavaScript strings are sequences of code units.  A [string] below is a
    sequence of code units in the range 0..255, which covers every
    character the regular expressions of [index.js] name. *)

From stdpp Require Import gmap strings list.
From Stdlib Require Import Ascii String.

Local Open Scope string_scope.

(** ** JavaScript string primitives *)

Module JS.

(** [String.prototype.toLowerCase] on one code unit below 256: the
    letters A-Z and the Latin-1 capitals U+00C0..U+00DE (U+00D7, the
    multiplication sign, is not a letter) move up by 32. *)
Definition lower_unit (c : ascii) : ascii :=
  let n := nat_of_ascii c in
  if (65 <=? n)%nat && (n <=? 90)%nat then ascii_of_nat (n + 32)
  else if (192 <=? n)%nat && (n <=? 222)%nat && negb (n =? 215)%nat
       then ascii_of_nat (n + 32)
       else c.

Fixpoint toLowerCase (s : string) : string :=
  match s with
  | EmptyString => EmptyString
  | String c s' => String (lower_unit c) (toLowerCase s')
  end.

(** [s.split(sep)] for a separator of one code unit.  The result always
    has a first element. *)
Fixpoint split (sep : ascii) (s : string) : list string :=
  match s with
  | EmptyString => [EmptyString]
  | String c s' =>
      if Ascii.eqb c sep then EmptyString :: split sep s'
      else match split sep s' with
           | [] => [String c EmptyString]
           | h :: t => String c h :: t
           end
  end.

(** Truthiness of a string: every string but the empty one. *)
Definition truthy_string (s : string) : bool :=
  match s with EmptyString => false | _ => true end.

(** Truthiness of a possibly [undefined] string. *)
Definition truthy (v : option string) : bool :=
  match v with Some s => truthy_string s | None => false end.

(** String concatenation coerces [undefined] to the text "undefined". *)
Definition to_string (v : option string) : string :=
  match v with Some s => s | None => "undefined" end.

(** A [Set] in insertion order: [add] of a member changes nothing. *)
Definition set_add (set : list string) (x : string) : list string :=
  if bool_decide (x ∈ set) then set else set ++ [x].

End JS.

(** ** Configuration *)

Record Config := {
  fromEmail : option string;
  subjectPrefix : option string;
  toEmail : option string;
  emailBucket : string;
  emailKeyPrefix : string;
  allowPlusSign : bool;
  (** the own properties of the [forwardMapping] object *)
  forwardMapping : gmap string (list string)
}.

Definition defaultConfig : Config := {|
  fromEmail := Some "noreply@example.com";
  subjectPrefix := Some "";
  toEmail := None;
  emailBucket := "your-s3-bucket-name";
  emailKeyPrefix := "emailsPrefix/";
  allowPlusSign := true;
  forwardMapping :=
    <["info@example.com" := ["example.john@example.com"; "example.jen@example.com"]]>
    (<["abuse@example.com" := ["example.jim@example.com"]]>
    (<["@example.com" := ["example.john@example.com"]]> ∅))
|}.

(** ** Errors *)

(** The rejections of the steps.  The three [Error] values are made by
    the source and carry its message text.  [TypeError line] is the error
    the runtime throws at [line] of [index.js], when the expression there
    reads a property of [null] or [undefined], iterates over [undefined]
    or calls a value that is not a function; two type errors thrown at
    different lines are different errors. *)
Inductive Error :=
| InvalidSES      (* 'Error: Received invalid SES message.' *)
| FetchFailed     (* 'Error: Failed to load message body from S3.' *)
| SendFailed      (* 'Error: Email sending failed.' *)
| TypeError (line : nat).

(** The message of an error that the source makes.  The text of a type
    error is written by the runtime, names the expression at its line and
    is not in the source: it is left out. *)
Definition message (e : Error) : option string :=
  match e with
  | InvalidSES => Some "Error: Received invalid SES message."
  | FetchFailed => Some "Error: Failed to load message body from S3."
  | SendFailed => Some "Error: Email sending failed."
  | TypeError _ => None
  end.

Inductive Result (A : Type) :=
| Ok (a : A)
| Throw (e : Error).
Arguments Ok {A} a.
Arguments Throw {A} e.

(** ** transformRecipients *)

Module Resolver.

(** The value of the property read [forwardMapping[k]]. *)
Inductive PropVal :=
| Undefined
| Destinations (l : list string)   (* an own property: an array of addresses *)
| Inherited.                       (* a property of [Object.prototype] *)

(** The property names every object literal inherits. *)
Definition object_prototype_names : list string :=
  [ "constructor"; "__defineGetter__"; "__defineSetter__"; "hasOwnProperty";
    "__lookupGetter__"; "__lookupSetter__"; "isPrototypeOf";
    "propertyIsEnumerable"; "toString"; "valueOf"; "__proto__";
    "toLocaleString" ].

Definition get (fm : gmap string (list string)) (k : string) : PropVal :=
  match fm !! k with
  | Some l => Destinations l
  | None => if bool_decide (k ∈ object_prototype_names) then Inherited else Undefined
  end.

(** Arrays, functions and objects are all truthy. *)
Definition matches (v : PropVal) : bool :=
  match v with Undefined => false | _ => true end.

(** [v.forEach(email => newRecipients.add(email))] at [line]: a value that
    is not an array has no [forEach], and the call throws before anything
    is added. *)
Definition forEach_add (line : nat) (v : PropVal) (set : list string)
  : Result (list string) :=
  match v with
  | Destinations l => Ok (fold_left JS.set_add l set)
  | _ => Throw (TypeError line)
  end.

(** Lines 95-97. *)
Definition origEmailKey (cfg : Config) (origEmail : string) : string :=
  if allowPlusSign cfg
  then hd EmptyString (JS.split "+" (JS.toLowerCase origEmail))
  else JS.toLowerCase origEmail.

(** [const [origEmailUser, origEmailDomain] = origEmailKey.split('@')]. *)
Definition origEmailUser (key : string) : option string := JS.split "@" key !! 0%nat.
Definition origEmailDomain (key : string) : option string := JS.split "@" key !! 1%nat.

(** The body of the [for] loop, lines 95-113, on the set built so far. *)
Definition loop_body (cfg : Config) (set : list string) (origEmail : string)
  : Result (list string) :=
  let fm := forwardMapping cfg in
  let key := origEmailKey cfg origEmail in
  if matches (get fm key) then forEach_add 101 (get fm key) set
  else
    let user := origEmailUser key in
    let domain := origEmailDomain key in
    if JS.truthy domain && matches (get fm ("@" +:+ JS.to_string domain))
    then forEach_add 108 (get fm ("@" +:+ JS.to_string domain)) set
    else if JS.truthy user && matches (get fm (JS.to_string user))
    then forEach_add 110 (get fm (JS.to_string user)) set
    else if matches (get fm "@")
    then forEach_add 112 (get fm "@") set
    else Ok set.

(** The [for ... of] loop: the first throw leaves the loop. *)
Fixpoint loop (cfg : Config) (set : list string) (originalRecipients : list string)
  : Result (list string) :=
  match originalRecipients with
  | [] => Ok set
  | origEmail :: rest =>
      match loop_body cfg set origEmail with
      | Ok set' => loop cfg set' rest
      | Throw e => Throw e
      end
  end.

(** [Array.from(newRecipients)] of the set the loop builds from the
    empty set. *)
Definition resolve (cfg : Config) (originalRecipients : list string)
  : Result (list string) :=
  loop cfg [] originalRecipients.

End Resolver.

(** ** Regular expressions

    The regular expressions of [processMessage], with the matching rules
    of the language: a backtracking matcher that tries the alternatives of
    every quantifier in order, greedy first, and reports the first way the
    whole pattern matches. *)

Module Regex.

Inductive Regex :=
| Empty
| Unit (class : ascii → bool)    (* one code unit of a class *)
| LineStart                      (* [^] under the [m] flag *)
| Cat (r1 r2 : Regex)
| Star (r : Regex)               (* [r*] *)
| Opt (r : Regex)                (* [r?] *)
| Group (n : nat) (r : Regex).   (* the [n]-th capturing parentheses *)

(** [r+] is one [r] and then [r*]. *)
Definition Plus (r : Regex) : Regex := Cat r (Star r).

Infix "·" := Cat (at level 41, right associativity).

(** *** Character classes *)

Definition code (c : ascii) : nat := nat_of_ascii c.

(** Line terminators: LF and CR (U+2028 and U+2029 are above 255). *)
Definition line_terminator (c : ascii) : bool :=
  (code c =? 10)%nat || (code c =? 13)%nat.

(** [.] *)
Definition dot (c : ascii) : bool := negb (line_terminator c).

(** [\s]: TAB, LF, VT, FF, CR, space and the no-break space. *)
Definition space (c : ascii) : bool :=
  ((9 <=? code c)%nat && (code c <=? 13)%nat) || (code c =? 32)%nat || (code c =? 160)%nat.

(** [[\t ]] *)
Definition tab_or_space (c : ascii) : bool :=
  (code c =? 9)%nat || (code c =? 32)%nat.

Definition just (c : ascii) : ascii → bool := Ascii.eqb c.

(** The canonical form of a code unit under the [i] flag: its upper
    case. *)
Definition canonicalize (c : ascii) : ascii :=
  let n := code c in
  if (97 <=? n)%nat && (n <=? 122)%nat then ascii_of_nat (n - 32)
  else if (224 <=? n)%nat && (n <=? 254)%nat && negb (n =? 247)%nat
       then ascii_of_nat (n - 32)
       else c.

Definition is_i (c : ascii) : ascii → bool :=
  fun x => Ascii.eqb (canonicalize x) (canonicalize c).

(** A literal text under the [i] flag. *)
Fixpoint literal_i (s : string) : Regex :=
  match s with
  | EmptyString => Empty
  | String c s' => Unit (is_i c) · literal_i s'
  end.

(** *** Matching *)

(** A point of the input: the code unit before it, the text from it on,
    its index, and the captures made on the way to it. *)
Record Point := {
  before : option ascii;
  rest : string;
  index : nat;
  captures : gmap nat string
}.

Definition step (c : ascii) (s : string) (x : Point) : Point :=
  {| before := Some c; rest := s; index := S (index x); captures := captures x |}.

Definition capture (n : nat) (from x : Point) : Point :=
  {| before := before x; rest := rest x; index := index x;
     captures := <[n := substring 0 (index x - index from) (rest from)]> (captures x) |}.

(** The rounds of a quantifier over [atom], at most [n] of them, with [k]
    the rest of the pattern: one more round is tried first and leaving
    second, and a round that matches the empty text is refused.  The
    language clears the captures made inside the atom when a round starts;
    that is left out, as no pattern of the source reads a capture made
    inside a quantifier. *)
Fixpoint rounds (atom : Point → (Point → option Point) → option Point)
    (k : Point → option Point) (n : nat) (x : Point) : option Point :=
  match n with
  | O => k x
  | S n' =>
      match atom x (fun y => if (index y =? index x)%nat then None
                             else rounds atom k n' y) with
      | Some z => Some z
      | None => k x
      end
  end.

(** [run r x k]: match [r] at [x], then the rest of the pattern [k]; the
    result is the point where the first successful way of matching ends.
    A star over a text of [n] code units makes at most [n] rounds, each
    one taking at least one code unit. *)
Fixpoint run (r : Regex) (x : Point) (k : Point → option Point) : option Point :=
  match r with
  | Empty => k x
  | Unit class =>
      match rest x with
      | String c s => if class c then k (step c s x) else None
      | EmptyString => None
      end
  | LineStart =>
      match before x with
      | None => k x
      | Some c => if line_terminator c then k x else None
      end
  | Cat r1 r2 => run r1 x (fun y => run r2 y k)
  | Star r1 => rounds (run r1) k (String.length (rest x)) x
  | Opt r1 => rounds (run r1) k 1 x
  | Group n r1 => run r1 x (fun y => k (capture n x y))
  end.

(** A match: where it starts and ends, and its captures. *)
Record Match := {
  start : nat;
  stop : nat;
  groups : gmap nat string
}.

(** The search of [exec]: the pattern is tried at [i], then at every
    later index up to the end of the input. *)
Fixpoint exec_from (r : Regex) (prev : option ascii) (s : string) (i : nat)
  : option Match :=
  match run r {| before := prev; rest := s; index := i; captures := ∅ |} Some with
  | Some y => Some {| start := i; stop := index y; groups := captures y |}
  | None =>
      match s with
      | EmptyString => None
      | String c s' => exec_from r (Some c) s' (S i)
      end
  end.

(** [s.match(r)] and [r.exec(s)] for a pattern without the [g] flag. *)
Definition exec (r : Regex) (s : string) : option Match := exec_from r None s 0.

(** [r.test(s)] *)
Definition test (r : Regex) (s : string) : bool :=
  match exec r s with Some _ => true | None => false end.

(** [match[n]] on a result that may be [null]; the guards of the source
    read it as [match && match[n] ? match[n] : other]. *)
Definition group (n : nat) (m : option Match) : option string :=
  match m with Some m => groups m !! n | None => None end.

(** *** Replacing *)

(** The text from index [n] of [s] on, with the code unit before it. *)
Fixpoint advance (n : nat) (prev : option ascii) (s : string) : option ascii * string :=
  match n, s with
  | S n', String c s' => advance n' (Some c) s'
  | _, _ => (prev, s)
  end.

(** What the replacer function receives: the matched text and the
    captures. *)
Definition Replacer := string → gmap nat string → string.

(** [s.replace(r, f)] for a pattern with the [g] flag, from index [i] with
    [s] the text from [i] on: every match is replaced, each search
    starting where the last match ended, one further on after an empty
    match.  There are at most [length s + 1] matches. *)
Fixpoint replace_from (n : nat) (r : Regex) (f : Replacer)
    (prev : option ascii) (s : string) (i : nat) : string :=
  match n with
  | O => s
  | S n' =>
      match exec_from r prev s i with
      | None => s
      | Some m =>
          let untouched := substring 0 (start m - i) s in
          let matched := substring (start m - i) (stop m - start m) s in
          let new := f matched (groups m) in
          let '(prev', after) := advance (stop m - i) prev s in
          if (stop m =? start m)%nat
          then match after with
               | EmptyString => untouched +:+ new
               | String c after' =>
                   untouched +:+ new +:+
                   String c (replace_from n' r f (Some c) after' (S (stop m)))
               end
          else untouched +:+ new +:+ replace_from n' r f prev' after (stop m)
      end
  end.

Definition replace_all (r : Regex) (f : Replacer) (s : string) : string :=
  replace_from (S (String.length s)) r f None s 0.

(** [s.replace(r, f)] for a pattern without the [g] flag: the first match
    only. *)
Definition replace_first (r : Regex) (f : Replacer) (s : string) : string :=
  match exec r s with
  | None => s
  | Some m =>
      substring 0 (start m) s +:+
      f (substring (start m) (stop m - start m) s) (groups m) +:+
      snd (advance (stop m) None s)
  end.

(** [s.replace(c, new)] for a pattern that is a one-unit string and a
    replacement text without [$]: the first occurrence only. *)
Fixpoint replace_unit (c : ascii) (new : string) (s : string) : string :=
  match s with
  | EmptyString => EmptyString
  | String d s' => if Ascii.eqb d c then new +:+ s' else String d (replace_unit c new s')
  end.

(** [s.trim()] *)
Fixpoint trimStart (s : string) : string :=
  match s with
  | String c s' => if space c then trimStart s' else s
  | EmptyString => EmptyString
  end.

Fixpoint trimEnd (s : string) : string :=
  match s with
  | EmptyString => EmptyString
  | String c s' =>
      match trimEnd s' with
      | EmptyString => if space c then EmptyString else String c EmptyString
      | t => String c t
      end
  end.

Definition trim (s : string) : string := trimEnd (trimStart s).

End Regex.

(** ** processMessage: the header rules *)

Module Header.
Import Regex.

(** Each pattern of the source is quoted above its definition; in the
    quotations a space is written between a star and a closing
    parenthesis. *)

Definition CR : Regex := Unit (just "013").
Definition LF : Regex := Unit (just "010").
Definition any : Regex := Unit dot.
Definition blank : Regex := Unit space.

(** [\r?\n] *)
Definition newline : Regex := Opt CR · LF.

(** [/^((?:.+\r?\n)* )(\r?\n(?:.*\s+)* )/m] *)
Definition split_re : Regex :=
  LineStart · Group 1 (Star (Plus any · newline))
            · Group 2 (newline · Star (Star any · Plus blank)).

(** [/^reply-to:[\t ]?/mi] *)
Definition reply_to_re : Regex :=
  LineStart · literal_i "reply-to:" · Opt (Unit tab_or_space).

(** [/^from:[\t ]?(.*(?:\r?\n\s+.* )*\r?\n)/mi] *)
Definition from_line_re : Regex :=
  LineStart · literal_i "from:" · Opt (Unit tab_or_space)
            · Group 1 (Star any · Star (newline · Plus blank · Star any) · newline).

(** [/^from:[\t ]?(.*(?:\r?\n\s+.* )* )/mgi] *)
Definition from_re : Regex :=
  LineStart · literal_i "from:" · Opt (Unit tab_or_space)
            · Group 1 (Star any · Star (newline · Plus blank · Star any)).

(** [/<(.* )>/] *)
Definition angle_re : Regex :=
  Unit (just "<") · Group 1 (Star any) · Unit (just ">").

(** [/^subject:[\t ]?(.* )/mgi] *)
Definition subject_re : Regex :=
  LineStart · literal_i "subject:" · Opt (Unit tab_or_space) · Group 1 (Star any).

(** [/^to:[\t ]?(.* )/mgi] *)
Definition to_re : Regex :=
  LineStart · literal_i "to:" · Opt (Unit tab_or_space) · Group 1 (Star any).

(** [/^return-path:[\t ]?(.* )\r?\n/mgi], and the same for [sender:] and
    [message-id:]. *)
Definition line_re (name : string) : Regex :=
  LineStart · literal_i name · Opt (Unit tab_or_space) · Group 1 (Star any) · newline.

(** [/^dkim-signature:[\t ]?.*\r?\n(\s+.*\r?\n)*/mgi] *)
Definition dkim_re : Regex :=
  LineStart · literal_i "dkim-signature:" · Opt (Unit tab_or_space) · Star any · newline
            · Star (Group 1 (Plus blank · Star any · newline)).

(** The first parenthesis of these patterns takes part in every match. *)
Definition p1 (g : gmap nat string) : string := default EmptyString (g !! 1%nat).

Definition erase : Replacer := fun _ _ => EmptyString.

(** Lines 160-162: [header] and [body]. *)
Definition split_message (emailData : string) : string * string :=
  let m := exec split_re emailData in
  let header := if JS.truthy (group 1 m) then JS.to_string (group 1 m) else emailData in
  let body := if JS.truthy (group 2 m) then JS.to_string (group 2 m) else EmptyString in
  (header, body).

(** Lines 164-171. *)
Definition add_reply_to (header : string) : string :=
  if negb (test reply_to_re header)
  then
    let m := exec from_line_re header in
    let from := if JS.truthy (group 1 m) then JS.to_string (group 1 m) else EmptyString in
    if JS.truthy_string from then header +:+ "Reply-To: " +:+ from else header
  else header.

(** Lines 176-188: the replacer of the [From:] header. *)
Definition from_text (cfg : Config) (originalRecipient : option string) : Replacer :=
  fun _ g =>
    let from := p1 g in
    if JS.truthy (fromEmail cfg)
    then "From: " +:+ trim (replace_first angle_re erase from)
                  +:+ " <" +:+ JS.to_string (fromEmail cfg) +:+ ">"
    else "From: " +:+ replace_unit ">" "" (replace_unit "<" "at " from)
                  +:+ " <" +:+ JS.to_string originalRecipient +:+ ">".

(** Lines 164-217: the rules on [header], in the order of the source. *)
Definition rewrite_header (cfg : Config) (originalRecipient : option string)
    (header : string) : string :=
  let header := add_reply_to header in
  let header := replace_all from_re (from_text cfg originalRecipient) header in
  let header :=
    if JS.truthy (subjectPrefix cfg)
    then replace_all subject_re
           (fun _ g => "Subject: " +:+ JS.to_string (subjectPrefix cfg) +:+ p1 g) header
    else header in
  let header :=
    if JS.truthy (toEmail cfg)
    then replace_all to_re (fun _ _ => "To: " +:+ JS.to_string (toEmail cfg)) header
    else header in
  let header := replace_all (line_re "return-path:") erase header in
  let header := replace_all (line_re "sender:") erase header in
  let header := replace_all (line_re "message-id:") erase header in
  let header := replace_all dkim_re erase header in
  header.

(** The new [data.emailData]. *)
Definition process (cfg : Config) (originalRecipient : option string)
    (emailData : string) : string :=
  let '(header, body) := split_message emailData in
  rewrite_header cfg originalRecipient header +:+ body.

End Header.

(** ** The data bundle, the collaborators and the steps *)

(** The parts of a record that the steps read.  A part that is absent,
    [null] or [undefined] is [None]: reading a property of it throws at
    the same line in each case.  The recipients are an array of texts. *)
Record Mail := { messageId : string }.
Record Receipt := { recipients : list string }.
Record Ses := { mail : option Mail; receipt : option Receipt }.

Record SesRecord := {
  eventSource : option string;   (* [None]: no own property [eventSource] *)
  eventVersion : option string;
  ses : option Ses
}.

(** The own property [Records] of the event, as [parseEvent] reads it:
    there is none; or it is [null]; or it is an array, each element of
    which is [null] ([None]) or a record.  [parseEvent] reads the length
    of the value and its element 0 only, so every other value reads as
    one of these: a number, a boolean, or a text or object whose length
    is not 1, as the empty array; a text of one character as an array of
    one record without tags; an object with a [length] of 1 as the array
    of its element 0, [null] when it has none. *)
Inductive RecordsValue :=
| Absent
| Null
| Array (entries : list (option SesRecord)).

(** An event that is an object.  [data.event] is an [option Event]:
    [None] is an event that is falsy ([null], [undefined], [0], the empty
    text); a truthy event that is not an object, a number or a text, has
    no own property [Records] and reads as an object without it. *)
Record Event := { Records : RecordsValue }.

(** The fields of [data] the steps read and write.  A field that has not
    been assigned is [None], the [undefined] of the source. *)
Record Data := {
  d_event : option Event;
  d_config : Config;
  d_email : option Mail;
  d_recipients : option (list string);
  d_originalRecipients : option (list string);
  d_originalRecipient : option string;
  d_emailData : option string
}.

(** The calls a run makes to the collaborators, in the order made. *)
Inductive Call :=
| GetObject (Bucket Key : string)
| SendRawEmail (Destinations : option (list string)) (Source : option string)
    (RawMessage : string).

(** The collaborators: what S3 holds at a bucket and key ([None]: the read
    fails), and whether SES accepts a send. *)
Record World := {
  s3 : string → string → option string;
  ses_accepts : option (list string) → option string → string → bool
}.

(** A step either resolves with a value or rejects with an error, and adds
    its calls to the log. *)
Definition Step (A : Type) : Type := list Call → Result A * list Call.

Definition promise_resolve {A} (a : A) : Step A := fun log => (Ok a, log).
Definition promise_reject {A} (e : Error) : Step A := fun log => (Throw e, log).
Definition call (c : Call) : Step unit := fun log => (Ok tt, (log ++ [c])%list).

#[global] Instance step_bind : MBind Step := λ A B f m log,
  match m log with
  | (Ok a, log') => f a log'
  | (Throw e, log') => (Throw e, log')
  end.

(** The result of a [Result] as a step that makes no call. *)
Definition settle {A} (r : Result A) : Step A := fun log => (r, log).

Section Steps.

Variable world : World.

(** Lines 66-80. *)
Definition parseEvent (data : Data) : Step Data :=
  match d_event data with
  | None => promise_reject InvalidSES
  | Some event =>
      match Records event with
      | Absent => promise_reject InvalidSES
      | Null => promise_reject (TypeError 70)
      | Array [None] => promise_reject (TypeError 71)
      | Array [Some record] =>
          if bool_decide (eventSource record = Some "aws:ses")
             && bool_decide (eventVersion record = Some "1.0")
          then
            match ses record with
            | None => promise_reject (TypeError 77)
            | Some ses =>
                match receipt ses with
                | None => promise_reject (TypeError 78)
                | Some receipt =>
                    promise_resolve {| d_event := d_event data;
                               d_config := d_config data;
                               d_email := mail ses;
                               d_recipients := Some (recipients receipt);
                               d_originalRecipients := d_originalRecipients data;
                               d_originalRecipient := d_originalRecipient data;
                               d_emailData := d_emailData data |}
                end
            end
          else promise_reject InvalidSES
      | Array _ => promise_reject InvalidSES
      end
  end.

(** Lines 90-118. *)
Definition transformRecipients (data : Data) : Step Data :=
  match d_recipients data with
  | None => promise_reject (TypeError 94)
  | Some originalRecipients =>
      newRecipients ← settle (Resolver.resolve (d_config data) originalRecipients);
      promise_resolve {| d_event := d_event data;
                 d_config := d_config data;
                 d_email := d_email data;
                 d_recipients := Some newRecipients;
                 d_originalRecipients := Some originalRecipients;
                 d_originalRecipient := d_originalRecipient data;
                 d_emailData := d_emailData data |}
  end.

(** Lines 128-149. *)
Definition fetchMessage (data : Data) : Step Data :=
  match d_email data with
  | None => promise_reject (TypeError 132)
  | Some email =>
      let Bucket := emailBucket (d_config data) in
      let Key := emailKeyPrefix (d_config data) +:+ messageId email in
      call (GetObject Bucket Key);;
      match s3 world Bucket Key with
      | None => promise_reject FetchFailed
      | Some text =>
          promise_resolve {| d_event := d_event data;
                     d_config := d_config data;
                     d_email := d_email data;
                     d_recipients := d_recipients data;
                     d_originalRecipients := d_originalRecipients data;
                     d_originalRecipient := d_originalRecipient data;
                     d_emailData := Some text |}
      end
  end.

(** Lines 159-221. *)
Definition processMessage (data : Data) : Step Data :=
  match d_emailData data with
  | None => promise_reject (TypeError 160)
  | Some emailData =>
      promise_resolve {| d_event := d_event data;
                 d_config := d_config data;
                 d_email := d_email data;
                 d_recipients := d_recipients data;
                 d_originalRecipients := d_originalRecipients data;
                 d_originalRecipient := d_originalRecipient data;
                 d_emailData :=
                   Some (Header.process (d_config data) (d_originalRecipient data)
                           emailData) |}
  end.

(** Lines 230-246. *)
Definition sendMessage (data : Data) : Step Data :=
  match d_emailData data with
  | None => promise_reject (TypeError 235)
  | Some emailData =>
      let Destinations := d_recipients data in
      let Source := d_originalRecipient data in
      call (SendRawEmail Destinations Source emailData);;
      if ses_accepts world Destinations Source emailData
      then promise_resolve data
      else promise_reject SendFailed
  end.

(** Lines 276-278: [for (const step of steps) data = await step(data)]. *)
Fixpoint run_steps (steps : list (Data → Step Data)) (data : Data) : Step Data :=
  match steps with
  | [] => promise_resolve data
  | step :: rest => data' ← step data; run_steps rest data'
  end.

Definition default_steps : list (Data → Step Data) :=
  [parseEvent; transformRecipients; fetchMessage; processMessage; sendMessage].

(** What the handler passes to [callback]. *)
Inductive Outcome :=
| Success               (* [callback(null, 'Success')] *)
| Failure (e : Error).  (* [callback(error)] *)

Record Overrides := {
  o_steps : option (list (Data → Step Data));
  o_config : option Config
}.

(** Lines 268-274: the bundle the steps start from. *)
Definition initial_data (event : option Event) (overrides : option Overrides) : Data :=
  {| d_event := event;
     d_config := default defaultConfig (overrides ≫= o_config);
     d_email := None;
     d_recipients := None;
     d_originalRecipients := None;
     d_originalRecipient := None;
     d_emailData := None |}.

(** Lines 258-286: the outcome passed to [callback] and the calls made. *)
Definition handler (event : option Event) (overrides : option Overrides)
  : Outcome * list Call :=
  let steps := default default_steps (overrides ≫= o_steps) in
  match run_steps steps (initial_data event overrides) [] with
  | (Ok _, log) => (Success, log)
  | (Throw e, log) => (Failure e, log)
  end.

(** Overrides that keep the steps of the source and may set the
    configuration. *)
Definition with_config (cfg : option Config) : option Overrides :=
  Some {| o_steps := None; o_config := cfg |}.

End Steps.

(** ** The recipient resolver: tiers and first occurrences *)

Module ResolverSpec.
Import Resolver.

(** The lookup keys of a normalized address, highest precedence first:
    the exact key, the domain wildcard when a domain exists, the mailbox
    wildcard when the local part is not empty, and the catch-all. *)
Definition tiers (key : string) : list string :=
  ([key]
   ++ (if JS.truthy (origEmailDomain key)
       then ["@" +:+ JS.to_string (origEmailDomain key)] else [])
   ++ (if JS.truthy (origEmailUser key)
       then [JS.to_string (origEmailUser key)] else [])
   ++ ["@"])%list.

(** The first tier, in that order, that the mapping answers. *)
Definition first_match (fm : gmap string (list string)) (key : string)
  : option string :=
  List.find (fun k => matches (get fm k)) (tiers key).

(** The destinations an original address contributes. *)
Definition contribution (cfg : Config) (origEmail : string) : list string :=
  match first_match (forwardMapping cfg) (origEmailKey cfg origEmail) with
  | Some k =>
      match get (forwardMapping cfg) k with
      | Destinations l => l
      | _ => []
      end
  | None => []
  end.

(** The first match of an address is a name of [Object.prototype] that
    the mapping does not define. *)
Definition hits_prototype (cfg : Config) (origEmail : string) : bool :=
  match first_match (forwardMapping cfg) (origEmailKey cfg origEmail) with
  | Some k =>
      match get (forwardMapping cfg) k with
      | Inherited => true
      | _ => false
      end
  | None => false
  end.

(** The list under the first of the four tiers of [user@domain] that is
    a key of the mapping. *)
Definition own_match (fm : gmap string (list string)) (user domain : string)
  : option (list string) :=
  match fm !! (user +:+ String "@" domain) with
  | Some l => Some l
  | None =>
      match fm !! String "@" domain with
      | Some l => Some l
      | None =>
          match fm !! user with
          | Some l => Some l
          | None => fm !! "@"
          end
      end
  end.

(** The line of the branch of the loop body that an address takes: the
    line of its [forEach] call (112 is also where no branch is taken). *)
Definition answered_line (cfg : Config) (origEmail : string) : nat :=
  let fm := forwardMapping cfg in
  let key := origEmailKey cfg origEmail in
  if matches (get fm key) then 101
  else if JS.truthy (origEmailDomain key)
          && matches (get fm ("@" +:+ JS.to_string (origEmailDomain key))) then 108
  else if JS.truthy (origEmailUser key)
          && matches (get fm (JS.to_string (origEmailUser key))) then 110
  else 112.

(** The line at which the loop throws: that of the first recipient whose
    first match is an inherited property. *)
Definition throw_line (cfg : Config) (originalRecipients : list string) : nat :=
  match List.find (hits_prototype cfg) originalRecipients with
  | Some r => answered_line cfg r
  | None => 0
  end.

(** A list without its repetitions: every element stays at its first
    occurrence. *)
Fixpoint first_occurrences (l : list string) : list string :=
  match l with
  | [] => []
  | x :: l' => x :: filter (λ y, y ≠ x) (first_occurrences l')
  end.

End ResolverSpec.

(** ** Texts and points, for the facts about the matcher *)

Module Greedy.
Import Regex.

(** The point one code unit further on. *)
Definition next (x : Point) : Point :=
  match rest x with
  | String c s => step c s x
  | EmptyString => x
  end.

(** The point [n] code units further on. *)
Fixpoint skip (n : nat) (x : Point) : Point :=
  match n with
  | O => x
  | S n' => skip n' (next x)
  end.

(** Every code unit of [s] is of the class. *)
Fixpoint every (class : ascii → bool) (s : string) : bool :=
  match s with
  | EmptyString => true
  | String c s' => class c && every class s'
  end.

(** [s] starts with a code unit of the class. *)
Definition starts (class : ascii → bool) (s : string) : bool :=
  match s with
  | EmptyString => false
  | String c _ => class c
  end.

(** [s] is empty or ends with a line feed. *)
Fixpoint ends_with_LF (s : string) : bool :=
  match s with
  | EmptyString => true
  | String c EmptyString => Ascii.eqb c "010"
  | String _ s' => ends_with_LF s'
  end.

(** The longest start of [s] within the class, and what follows it. *)
Fixpoint take_while (class : ascii → bool) (s : string) : string :=
  match s with
  | EmptyString => EmptyString
  | String c s' => if class c then String c (take_while class s') else EmptyString
  end.

Fixpoint drop_while (class : ascii → bool) (s : string) : string :=
  match s with
  | EmptyString => EmptyString
  | String c s' => if class c then drop_while class s' else s
  end.

(** [y] lies at or after [x] in the same text. *)
Definition reach (x y : Point) : Prop :=
  (String.length (rest y) ≤ String.length (rest x))%nat
  ∧ (index y + String.length (rest y) = index x + String.length (rest x))%nat.

(** The two line ends: LF, and CR LF. *)
Definition is_eol (eol : string) : Prop :=
  eol = String "010" EmptyString ∨ eol = String "013" (String "010" EmptyString).

(** A header line: a text of one code unit or more, none of them a line
    terminator, and its line end. *)
Definition is_line (line : string * string) : Prop :=
  line.1 ≠ EmptyString ∧ every dot line.1 = true ∧ is_eol line.2.

Fixpoint join (lines : list (string * string)) : string :=
  match lines with
  | [] => EmptyString
  | line :: lines' => line.1 +:+ line.2 +:+ join lines'
  end.

End Greedy.

(** ** A header as a list of lines *)

(** The rules of [processMessage] are stated on a header given as its
    lines, each a text and a line end ([Greedy.is_line]); the functions
    below say what a rule makes of the lines. *)

Module Lines.
Import Regex Greedy.

(** [name] starts [s], letter case apart. *)
Fixpoint prefix_i (name s : string) : bool :=
  match name, s with
  | EmptyString, _ => true
  | String c name', String d s' => is_i c d && prefix_i name' s'
  | String _ _, EmptyString => false
  end.

(** The code unit before the end of [a], or [prev] when [a] is empty. *)
Fixpoint final (prev : option ascii) (a : string) : option ascii :=
  match a with
  | EmptyString => prev
  | String c a' => final (Some c) a'
  end.

(** What [^] tests: the start of the text, or a line terminator before. *)
Definition at_line_start (prev : option ascii) : bool :=
  match prev with
  | None => true
  | Some c => line_terminator c
  end.

(** [s] without its first [n] code units. *)
Fixpoint drop_units (n : nat) (s : string) : string :=
  match n, s with
  | S n', String _ s' => drop_units n' s'
  | _, _ => s
  end.

(** No index of [a], in the text [a +:+ follow] that comes after [prev], is
    a line start where [name] stands. *)
Fixpoint silent (name : string) (prev : option ascii) (a follow : string) : bool :=
  match a with
  | EmptyString => true
  | String c a' =>
      negb (at_line_start prev && prefix_i name (a +:+ follow))
      && silent name (Some c) a' follow
  end.

(** A header name as the patterns write it: not empty, no line
    terminator. *)
Definition is_name (name : string) : Prop :=
  name ≠ EmptyString ∧ every dot name = true.

(** The white space that [[\t ]?] takes at the head of [tail]. *)
Definition gap (tail : string) : nat := if starts tab_or_space tail then 1 else 0.

(** What stands on the line [text] after [name] and one tab or space. *)
Definition value (name text : string) : string :=
  let tail := drop_units (String.length name) text in
  drop_units (gap tail) tail.

(** The point after [name] and one tab or space. *)
Definition past (name : string) (x : Point) : Point :=
  let y := skip (String.length name) x in
  skip (gap (rest y)) y.

(** The lines whose text starts with [name] rewritten by [g], line end
    included, and the text of the lines together. *)
Fixpoint rewrite_lines (name : string) (g : string * string → string)
    (lines : list (string * string)) : string :=
  match lines with
  | [] => EmptyString
  | l :: lines' =>
      (if prefix_i name l.1 then g l else l.1 +:+ l.2) +:+ rewrite_lines name g lines'
  end.

(** No line where [name] stands is continued on the line after it. *)
Fixpoint unfolded (name : string) (lines : list (string * string)) : bool :=
  match lines with
  | [] => true
  | l :: lines' =>
      negb (prefix_i name l.1 && starts space (join lines')) && unfolded name lines'
  end.

(** The lines where [name] stands get the text [new v], for [v] what
    stood after the name. *)
Definition set_text (name : string) (new : string → string)
    (lines : list (string * string)) : list (string * string) :=
  map (λ l, if prefix_i name l.1 then (new (value name l.1), l.2) else l) lines.

(** The lines where [name] does not stand. *)
Definition without (name : string) (lines : list (string * string))
  : list (string * string) :=
  List.filter (λ l, negb (prefix_i name l.1)) lines.

(** The new [From:] line for the old value [from]. *)
Definition new_from (cfg : Config) (originalRecipient : option string)
    (from : string) : string :=
  Header.from_text cfg originalRecipient EmptyString (<[1%nat := from]> ∅).

(** The lines at the head of [lines] that start with white space, as the
    continuation lines of a folded header do, and the lines after them. *)
Fixpoint continuation (lines : list (string * string)) : list (string * string) :=
  match lines with
  | l :: lines' => if starts space l.1 then l :: continuation lines' else []
  | [] => []
  end.

Fixpoint after_continuation (lines : list (string * string)) : list (string * string) :=
  match lines with
  | l :: lines' => if starts space l.1 then after_continuation lines' else lines
  | [] => []
  end.

(** The lines left when every header [name] goes with its continuation
    lines; [dropping] tells that the line before was dropped. *)
Fixpoint without_folded (name : string) (dropping : bool)
    (lines : list (string * string)) : list (string * string) :=
  match lines with
  | [] => []
  | l :: lines' =>
      if prefix_i name l.1 || (dropping && starts space l.1)
      then without_folded name true lines'
      else l :: without_folded name false lines'
  end.

(** No line is made of white space only. *)
Definition no_blank_line (lines : list (string * string)) : Prop :=
  Forall (λ l, every space l.1 = false) lines.

(** The header with a [Reply-To:] line, made of the first [From:] line,
    when it has none. *)
Definition with_reply_to (lines : list (string * string)) : list (string * string) :=
  if existsb (λ l, prefix_i "reply-to:" l.1) lines then lines
  else match List.find (λ l, prefix_i "from:" l.1) lines with
       | Some l => (lines ++ [("Reply-To: " +:+ value "from:" l.1, l.2)])%list
       | None => lines
       end.

(** The header lines after the rules of [processMessage], in the order
    of the source. *)
Definition rewritten (cfg : Config) (originalRecipient : option string)
    (lines : list (string * string)) : list (string * string) :=
  let lines := with_reply_to lines in
  let lines := set_text "from:" (new_from cfg originalRecipient) lines in
  let lines :=
    if JS.truthy (subjectPrefix cfg)
    then set_text "subject:"
           (λ v, "Subject: " +:+ JS.to_string (subjectPrefix cfg) +:+ v) lines
    else lines in
  let lines :=
    if JS.truthy (toEmail cfg)
    then set_text "to:" (λ _, "To: " +:+ JS.to_string (toEmail cfg)) lines
    else lines in
  without_folded "dkim-signature:" false
    (without "message-id:" (without "sender:" (without "return-path:" lines))).

(** The texts that the rules write into the header hold no line
    terminator. *)
Definition on_one_line (cfg : Config) (originalRecipient : option string) : Prop :=
  every dot (JS.to_string (fromEmail cfg)) = true
  ∧ every dot (JS.to_string (subjectPrefix cfg)) = true
  ∧ every dot (JS.to_string (toEmail cfg)) = true
  ∧ every dot (JS.to_string originalRecipient) = true.

(** The header names that the rules look for; [reply-to:] only stops the
    first rule. *)
Definition rule_names : list string :=
  ["from:"; "subject:"; "to:"; "return-path:"; "sender:"; "message-id:";
   "dkim-signature:"].

(** None of these names stands on the line. *)
Definition other (l : string * string) : bool :=
  forallb (λ name, negb (prefix_i name l.1)) rule_names.

(** [c] is not in [s]. *)
Definition lacks (c : ascii) (s : string) : bool :=
  every (λ d, negb (just c d)) s.

End Lines.

(** ** The configuration with another mapping *)

(** [cfg] with another forwarding mapping. *)
Definition with_mapping (cfg : Config) (fm : gmap string (list string)) : Config := {|
  fromEmail := fromEmail cfg;
  subjectPrefix := subjectPrefix cfg;
  toEmail := toEmail cfg;
  emailBucket := emailBucket cfg;
  emailKeyPrefix := emailKeyPrefix cfg;
  allowPlusSign := allowPlusSign cfg;
  forwardMapping := fm
|}.

(** ** Concrete inputs *)

Definition LF : string := String "010" EmptyString.

(** A configuration with no [fromEmail], no subject prefix and no [toEmail]. *)
Definition plain_config (fm : gmap string (list string)) : Config := {|
  fromEmail := None;
  subjectPrefix := None;
  toEmail := None;
  emailBucket := "bucket";
  emailKeyPrefix := "emails/";
  allowPlusSign := true;
  forwardMapping := fm
|}.

(** Two addresses whose destination lists overlap. *)
Definition overlapping_config : Config :=
  plain_config (<["a@example.com" := ["x@x.com"; "y@x.com"]]>
                (<["b@example.com" := ["y@x.com"; "z@x.com"]]> ∅)).

(** The record of a mail received for [to], stored under [id]. *)
Definition ses_event (id : string) (to : list string) : option Event :=
  Some {| Records := Array [
    Some {| eventSource := Some "aws:ses";
            eventVersion := Some "1.0";
            ses := Some {| mail := Some {| messageId := id |};
                           receipt := Some {| recipients := to |} |} |} ] |}.

(** Events that are not a mail receipt: [Records] is [null]; its only
    element is [null]; the record bears both tags and has no [ses], no
    [receipt], no [mail]. *)
Definition null_records_event : option Event := Some {| Records := Null |}.

Definition null_record_event : option Event := Some {| Records := Array [None] |}.

Definition tagged_event (s : option Ses) : option Event :=
  Some {| Records := Array [
    Some {| eventSource := Some "aws:ses"; eventVersion := Some "1.0"; ses := s |} ] |}.

Definition no_ses_event : option Event := tagged_event None.

Definition no_receipt_event : option Event :=
  tagged_event (Some {| mail := Some {| messageId := "m1" |}; receipt := None |}).

Definition no_mail_event : option Event :=
  tagged_event (Some {| mail := None;
                        receipt := Some {| recipients := ["info@example.com"] |} |}).

(** A world whose bucket holds [text] under [emails/m1] and whose SES
    accepts every send. *)
Definition store (text : string) : World := {|
  s3 := λ Bucket Key,
    if bool_decide (Bucket = "bucket") && bool_decide (Key = "emails/m1")
    then Some text else None;
  ses_accepts := λ _ _ _, true
|}.

Definition info_config : Config :=
  plain_config (<["info@example.com" := ["a@x.com"; "b@x.com"]]> ∅).

(** A mapping whose only key is the catch-all, and one whose only key is
    a domain. *)
Definition catch_all_config : Config := plain_config (<["@" := ["all@x.com"]]> ∅).

Definition domain_config : Config :=
  plain_config (<["@example.com" := ["team@x.com"]]> ∅).

Definition jane_message : string :=
  "From: Jane <jane@example.com>" +:+ LF +:+
  "Subject: Hello" +:+ LF +:+
  LF +:+
  "Hi." +:+ LF.

(** ** The shape [parseEvent] expects *)

(** The event holds exactly one record, [record], whose source is the
    mail-receipt tag and whose version is the supported one. *)
Definition expected_shape (event : option Event) (record : SesRecord) : Prop :=
  ∃ e, event = Some e ∧ Records e = Array [Some record]
       ∧ eventSource record = Some "aws:ses" ∧ eventVersion record = Some "1.0".

(** The event makes [parseEvent] read a property of [null] at [line]:
    [Records] is [null] (line 70), or its only element is (line 71). *)
Definition reads_null (event : option Event) (line : nat) : Prop :=
  ∃ e, event = Some e
       ∧ ((Records e = Null ∧ line = 70%nat) ∨ (Records e = Array [None] ∧ line = 71%nat)).

(** ** The ways a run of the source's steps ends *)

(** [Ends world event config (outcome, calls)]: the outcome the handler
    reports for [event] and the calls it has made by then, one constructor
    for each step at which the run can stop. *)
Inductive Ends (world : World) (event : option Event) (config : Config)
  : Outcome * list Call → Prop :=
| ends_invalid :
    (¬ ∃ record, expected_shape event record) → (¬ ∃ line, reads_null event line) →
    Ends world event config (Failure InvalidSES, [])
| ends_null line :
    reads_null event line →
    Ends world event config (Failure (TypeError line), [])
| ends_no_ses record :
    expected_shape event record → ses record = None →
    Ends world event config (Failure (TypeError 77), [])
| ends_no_receipt record se :
    expected_shape event record → ses record = Some se → receipt se = None →
    Ends world event config (Failure (TypeError 78), [])
| ends_unresolved record se rc e :
    expected_shape event record → ses record = Some se → receipt se = Some rc →
    Resolver.resolve config (recipients rc) = Throw e →
    Ends world event config (Failure e, [])
| ends_no_mail record se rc new :
    expected_shape event record → ses record = Some se → receipt se = Some rc →
    Resolver.resolve config (recipients rc) = Ok new →
    mail se = None →
    Ends world event config (Failure (TypeError 132), [])
| ends_fetch_failed record se rc new m :
    expected_shape event record → ses record = Some se → receipt se = Some rc →
    Resolver.resolve config (recipients rc) = Ok new →
    mail se = Some m →
    s3 world (emailBucket config) (emailKeyPrefix config +:+ messageId m) = None →
    Ends world event config
      (Failure FetchFailed,
       [GetObject (emailBucket config) (emailKeyPrefix config +:+ messageId m)])
| ends_sent record se rc new m text :
    expected_shape event record → ses record = Some se → receipt se = Some rc →
    Resolver.resolve config (recipients rc) = Ok new →
    mail se = Some m →
    s3 world (emailBucket config) (emailKeyPrefix config +:+ messageId m) = Some text →
    Ends world event config
      (if ses_accepts world (Some new) None (Header.process config None text)
       then Success else Failure SendFailed,
       [GetObject (emailBucket config) (emailKeyPrefix config +:+ messageId m);
        SendRawEmail (Some new) None (Header.process config None text)]).

(** A message whose [Message-ID] header is folded over two lines. *)
Definition folded_message_id : string :=
  "Message-ID:" +:+ LF +:+
  " <abc@mail.example.com>" +:+ LF +:+
  "Subject: Hello" +:+ LF.

(** A message whose [DKIM-Signature] header is folded over three lines. *)
Definition folded_dkim : string :=
  "DKIM-Signature: v=1; a=rsa-sha256;" +:+ LF +:+
  " d=example.com; s=mail;" +:+ LF +:+
  " b=abc" +:+ LF +:+
  "Subject: Hello" +:+ LF.

(** A message whose last line has no line end. *)
Definition unterminated_message : string :=
  "Subject: Hello" +:+ LF +:+
  LF +:+
  "Hi." +:+ LF +:+
  "Bye".

Definition CRLF : string := String "013" LF.

(** A configuration that sets the sender, a subject prefix and the
    [To:] address. *)
Definition forwarding_config : Config := {|
  fromEmail := Some "noreply@example.com";
  subjectPrefix := Some "[fwd] ";
  toEmail := Some "list@example.com";
  emailBucket := "bucket";
  emailKeyPrefix := "emails/";
  allowPlusSign := true;
  forwardMapping := ∅
|}.

(** The header lines of a received mail, each with its line end. *)
Definition example_header : list (string * string) :=
  [("Return-Path: <bounce@mail.example.com>", CRLF);
   ("Received: from mail.example.com", CRLF);
   ("  by inbound.example.net", CRLF);
   ("DKIM-Signature: v=1; a=rsa-sha256;", CRLF);
   (" d=example.com; s=mail;", CRLF);
   ("FROM: Jane <jane@example.com>", CRLF);
   ("to: info@example.com", CRLF);
   ("Subject:Hello", LF);
   ("Message-ID: <abc@mail.example.com>", CRLF)].

(** What [forwarding_config] makes of them. *)
Definition forwarded_header : list (string * string) :=
  [("Received: from mail.example.com", CRLF);
   ("  by inbound.example.net", CRLF);
   ("From: Jane <noreply@example.com>", CRLF);
   ("To: list@example.com", CRLF);
   ("Subject: [fwd] Hello", LF);
   ("Reply-To: Jane <jane@example.com>", CRLF)].

Definition example_body : string := "Hi." +:+ CRLF +:+ "Bye" +:+ CRLF.

(** Header lines that no rule looks for. *)
Definition other_header : list (string * string) :=
  [("Received: from mail.example.com", CRLF);
   ("  by inbound.example.net", CRLF);
   ("Reply-To: jane@example.com", CRLF);
   ("Content-Type: text/plain", LF)].

(** * Properties *)

(** Scenarios 1 and 2 of the specification. *)
Example scenario_1 :
  Resolver.resolve
    (plain_config (<["info@example.com" := ["a@x.com"; "b@x.com"]]> ∅))
    ["info@example.com"] = Ok ["a@x.com"; "b@x.com"].
Proof. vm_compute. reflexivity. Qed.

Example scenario_2 :
  Resolver.resolve (plain_config (<["@example.com" := ["c@x.com"]]> ∅))
    ["sales@example.com"] = Ok ["c@x.com"].
Proof. vm_compute. reflexivity. Qed.

(** ** Facts about the resolver *)

Section ResolverFacts.
Import Resolver ResolverSpec.

Lemma loop_body_first_match cfg set origEmail :
  loop_body cfg set origEmail =
  match first_match (forwardMapping cfg) (origEmailKey cfg origEmail) with
  | Some k => forEach_add (answered_line cfg origEmail) (get (forwardMapping cfg) k) set
  | None => Ok set
  end.
Proof.
  unfold loop_body, first_match, tiers, answered_line.
  set (fm := forwardMapping cfg). set (key := origEmailKey cfg origEmail).
  cbn [List.find app].
  destruct (matches (get fm key)); [reflexivity|].
  destruct (JS.truthy (origEmailDomain key)); cbn [andb List.find app].
  - destruct (matches (get fm ("@" +:+ JS.to_string (origEmailDomain key))));
      [reflexivity|].
    destruct (JS.truthy (origEmailUser key)); cbn [andb List.find app].
    + destruct (matches (get fm (JS.to_string (origEmailUser key)))); [reflexivity|].
      destruct (matches (get fm "@")); reflexivity.
    + destruct (matches (get fm "@")); reflexivity.
  - destruct (JS.truthy (origEmailUser key)); cbn [andb List.find app].
    + destruct (matches (get fm (JS.to_string (origEmailUser key)))); [reflexivity|].
      destruct (matches (get fm "@")); reflexivity.
    + destruct (matches (get fm "@")); reflexivity.
Qed.

Lemma first_match_matches fm key k :
  first_match fm key = Some k → matches (get fm k) = true.
Proof. unfold first_match. intros H. by apply List.find_some in H as [_ H]. Qed.

Lemma loop_body_contribution cfg set origEmail :
  loop_body cfg set origEmail =
  if hits_prototype cfg origEmail then Throw (TypeError (answered_line cfg origEmail))
  else Ok (fold_left JS.set_add (contribution cfg origEmail) set).
Proof.
  rewrite loop_body_first_match. unfold hits_prototype, contribution.
  destruct (first_match _ _) as [k|] eqn:Hk; [|reflexivity].
  apply first_match_matches in Hk.
  destruct (get (forwardMapping cfg) k); [discriminate|reflexivity..].
Qed.

Lemma loop_contributions cfg rs : ∀ set,
  loop cfg set rs =
  if existsb (hits_prototype cfg) rs then Throw (TypeError (throw_line cfg rs))
  else Ok (fold_left JS.set_add (flat_map (contribution cfg) rs) set).
Proof.
  induction rs as [|r rs IH]; intros set; [reflexivity|].
  unfold throw_line. cbn [loop existsb flat_map List.find].
  rewrite loop_body_contribution.
  destruct (hits_prototype cfg r); [reflexivity|]. fold (throw_line cfg rs).
  cbn [orb]. rewrite IH, fold_left_app. reflexivity.
Qed.

Lemma elem_of_first_occurrences x l : x ∈ first_occurrences l ↔ x ∈ l.
Proof.
  induction l as [|y l IH]; [reflexivity|]. cbn [first_occurrences].
  rewrite !elem_of_cons, list_elem_of_filter, IH.
  destruct (decide (x = y)); tauto.
Qed.

Lemma NoDup_first_occurrences l : NoDup (first_occurrences l).
Proof.
  induction l as [|y l IH]; [constructor|]. cbn [first_occurrences].
  constructor.
  - rewrite list_elem_of_filter. tauto.
  - by apply NoDup_filter.
Qed.

Lemma fold_set_add l : ∀ set,
  fold_left JS.set_add l set = (set ++ filter (λ y, y ∉ set) (first_occurrences l))%list.
Proof.
  induction l as [|x l IH]; intros set.
  - cbn. by rewrite app_nil_r.
  - cbn [fold_left first_occurrences]. rewrite IH. unfold JS.set_add.
    rewrite filter_cons. case_bool_decide as Hx.
    + rewrite decide_False by (intros Hn; by apply Hn).
      f_equal. rewrite list_filter_filter. apply list_filter_iff.
      intros y. split; [|tauto]. intros Hy. split; [done|congruence].
    + rewrite decide_True by done.
      rewrite <- app_assoc. cbn [app]. do 2 f_equal.
      rewrite list_filter_filter. apply list_filter_iff.
      intros y. rewrite elem_of_app, list_elem_of_singleton. tauto.
Qed.

Lemma resolve_first_occurrences cfg rs :
  resolve cfg rs =
  if existsb (hits_prototype cfg) rs then Throw (TypeError (throw_line cfg rs))
  else Ok (first_occurrences (flat_map (contribution cfg) rs)).
Proof.
  unfold resolve. rewrite loop_contributions.
  destruct (existsb _ _); [reflexivity|].
  rewrite fold_set_add. cbn [app]. f_equal.
  induction (first_occurrences _) as [|y l IH]; [reflexivity|].
  rewrite filter_cons, decide_True by apply not_elem_of_nil.
  by rewrite IH.
Qed.

End ResolverFacts.

(** ** Claims about the resolver *)

Section ResolverClaims.
Import Resolver ResolverSpec.

(** With [allowPlusSign] off the key is the lowercased address, the plus
    sign and what follows it included. *)
Lemma origEmailKey_literal cfg origEmail :
  allowPlusSign cfg = false → origEmailKey cfg origEmail = JS.toLowerCase origEmail.
Proof. unfold origEmailKey. by intros ->. Qed.

Lemma lower_unit_plus c : JS.lower_unit c = "+"%char → c = "+"%char.
Proof.
  destruct c as [[] [] [] [] [] [] [] []]; vm_compute; congruence.
Qed.

Lemma toLowerCase_app s t :
  JS.toLowerCase (s +:+ t) = JS.toLowerCase s +:+ JS.toLowerCase t.
Proof.
  induction s as [|c s IH]; [reflexivity|].
  simpl. by rewrite IH.
Qed.

Lemma split_none sep s :
  (∀ c, In c (list_ascii_of_string s) → c ≠ sep) → JS.split sep s = [s].
Proof.
  induction s as [|c s IH]; intros Hs; [reflexivity|]. cbn [JS.split].
  destruct (Ascii.eqb_spec c sep) as [->|_].
  - exfalso. apply (Hs sep); [by left|reflexivity].
  - by rewrite (IH (λ d Hd, Hs d (or_intror Hd))).
Qed.

Lemma split_at_first sep s t :
  (∀ c, In c (list_ascii_of_string s) → c ≠ sep) →
  JS.split sep (s +:+ String sep t) = s :: JS.split sep t.
Proof.
  induction s as [|c s IH]; intros Hs.
  - change (EmptyString +:+ String sep t) with (String sep t).
    cbn [JS.split]. by rewrite Ascii.eqb_refl.
  - change (String c s +:+ String sep t) with (String c (s +:+ String sep t)).
    cbn [JS.split].
    destruct (Ascii.eqb_spec c sep) as [->|_].
    + exfalso. apply (Hs sep); [by left|reflexivity].
    + by rewrite (IH (λ d Hd, Hs d (or_intror Hd))).
Qed.

Lemma split_first_segment sep s t :
  (∀ c, In c (list_ascii_of_string s) → c ≠ sep) →
  hd EmptyString (JS.split sep (s +:+ String sep t)) = s.
Proof. intros Hs. by rewrite split_at_first. Qed.

(** The tiers of a key [user@domain], with [user] and [domain] not empty
    and without an at sign, are the key itself, [@domain], [user] and
    the catch-all [@]. *)
Lemma tiers_of_address user domain :
  user ≠ EmptyString → domain ≠ EmptyString →
  (∀ c, In c (list_ascii_of_string user) → c ≠ "@"%char) →
  (∀ c, In c (list_ascii_of_string domain) → c ≠ "@"%char) →
  tiers (user +:+ String "@" domain)
  = [user +:+ String "@" domain; String "@" domain; user; "@"].
Proof.
  intros Hu Hd Huser Hdomain. unfold tiers, origEmailDomain, origEmailUser.
  rewrite split_at_first, (split_none _ domain) by done. cbn [lookup list_lookup].
  cbn [JS.truthy JS.to_string].
  destruct user; [done|]. destruct domain; [done|]. reflexivity.
Qed.

(** The tiers of a key without an at sign: the key, as exact key and as
    mailbox, and the catch-all; no domain tier. *)
Lemma tiers_of_mailbox key :
  key ≠ EmptyString →
  (∀ c, In c (list_ascii_of_string key) → c ≠ "@"%char) →
  tiers key = [key; key; "@"].
Proof.
  intros Hne Hkey. unfold tiers, origEmailDomain, origEmailUser.
  rewrite split_none by done. cbn [lookup list_lookup JS.truthy JS.to_string].
  by destruct key.
Qed.

(** With [allowPlusSign] on, the key of [user+tag@domain] is the
    lowercased [user] alone: the split at the plus sign drops the domain
    with the tag. *)
Lemma origEmailKey_plus cfg user tag domain :
  allowPlusSign cfg = true →
  (∀ c, In c (list_ascii_of_string user) → c ≠ "+"%char) →
  origEmailKey cfg (user +:+ String "+" (tag +:+ String "@" domain))
  = JS.toLowerCase user.
Proof.
  intros Hplus Huser. unfold origEmailKey. rewrite Hplus, toLowerCase_app.
  simpl JS.toLowerCase. change (JS.lower_unit "+") with "+"%char.
  apply split_first_segment.
  intros c Hc ->. revert Hc. clear -Huser.
  induction user as [|d user IH]; simpl; [tauto|].
  intros [Hd|Hc].
  - apply lower_unit_plus in Hd. apply (Huser d); [by left|done].
  - apply IH; [|done]. intros e He. apply Huser. by right.
Qed.

(** C1 (the code departs from the claim): with the default configuration,
    where [allowPlusSign] is on, the address [info+test@example.com] gets
    the key [info] and resolves to nothing, while [info@example.com]
    resolves to its two destinations. *)
Theorem plus_suffix_drops_domain :
  origEmailKey defaultConfig "info+test@example.com" = "info"
  ∧ resolve defaultConfig ["info+test@example.com"] = Ok []
  ∧ resolve defaultConfig ["info@example.com"]
    = Ok ["example.john@example.com"; "example.jen@example.com"].
Proof. repeat split; vm_compute; reflexivity. Qed.

Lemma find_first {A} (f : A → bool) before k after :
  (∀ j, j ∈ before → f j = false) → f k = true →
  List.find f (before ++ k :: after)%list = Some k.
Proof.
  induction before as [|j before IH]; intros Hbefore Hk; cbn [app List.find].
  - by rewrite Hk.
  - rewrite (Hbefore j) by constructor. apply IH; [|done].
    intros j' Hj'. apply Hbefore. by constructor.
Qed.

Lemma find_none_iff {A} (f : A → bool) l :
  List.find f l = None ↔ ∀ x, x ∈ l → f x = false.
Proof.
  split.
  - intros H x Hx. apply (List.find_none f l H). by apply list_elem_of_In.
  - induction l as [|a l IH]; [reflexivity|]. intros H. cbn.
    rewrite (H a) by constructor. apply IH. intros x Hx. apply H. by constructor.
Qed.

(** The loop body is decided by the first tier that the property read
    answers, whatever the tiers after it hold; when none is answered the
    set is left as it was. *)
Lemma first_answered_tier cfg set origEmail before k after :
  tiers (origEmailKey cfg origEmail) = (before ++ k :: after)%list →
  (∀ j, j ∈ before → matches (get (forwardMapping cfg) j) = false) →
  matches (get (forwardMapping cfg) k) = true →
  loop_body cfg set origEmail
  = forEach_add (answered_line cfg origEmail) (get (forwardMapping cfg) k) set.
Proof.
  intros Htiers Hbefore Hk. rewrite loop_body_first_match. unfold first_match.
  by rewrite Htiers, find_first.
Qed.

(** C6 (the code departs from the claim): a tier is answered by whatever
    the property read [forwardMapping[key]] finds, a property inherited
    from [Object.prototype] included.  With the catch-all [@] as the only
    key, [info@example.com] gets the destinations of the catch-all, but
    for [constructor@example.com], whose tiers are the address, its
    domain, [constructor] and [@], none of the first three a key of the
    mapping, the mailbox tier is answered by the inherited [constructor]
    and the loop throws at line 110: the catch-all is never reached.  And
    with [@example.com] as the only key, [sales@example.com] gets its
    destinations, but [sales+q1@example.com] has the tiers [sales],
    [sales] and [@]: its domain tier is not consulted at all (the defect
    of C1). *)
Theorem inherited_name_beats_catch_all :
  resolve catch_all_config ["info@example.com"] = Ok ["all@x.com"]
  ∧ tiers (origEmailKey catch_all_config "constructor@example.com")
    = ["constructor@example.com"; "@example.com"; "constructor"; "@"]
  ∧ forwardMapping catch_all_config !! "constructor@example.com" = None
  ∧ forwardMapping catch_all_config !! "@example.com" = None
  ∧ forwardMapping catch_all_config !! "constructor" = None
  ∧ forwardMapping catch_all_config !! "@" = Some ["all@x.com"]
  ∧ resolve catch_all_config ["constructor@example.com"] = Throw (TypeError 110)
  ∧ resolve domain_config ["sales@example.com"] = Ok ["team@x.com"]
  ∧ tiers (origEmailKey domain_config "sales+q1@example.com") = ["sales"; "sales"; "@"]
  ∧ resolve domain_config ["sales+q1@example.com"] = Ok [].
Proof. repeat split; vm_compute; reflexivity. Qed.

(** C7: for every configuration and recipient list, the list
    [transformRecipients] produces has no duplicate, and it is the
    destinations the recipients contribute, in order, each kept at its
    first occurrence. *)
Theorem resolved_without_duplicates cfg originalRecipients newRecipients :
  resolve cfg originalRecipients = Ok newRecipients →
  NoDup newRecipients
  ∧ newRecipients = first_occurrences (flat_map (contribution cfg) originalRecipients)
  ∧ ∀ x, x ∈ newRecipients ↔ ∃ r, r ∈ originalRecipients ∧ x ∈ contribution cfg r.
Proof.
  rewrite resolve_first_occurrences.
  destruct (existsb _ _); [discriminate|]. intros [= <-].
  split; [apply NoDup_first_occurrences|]. split; [reflexivity|].
  intros x. rewrite elem_of_first_occurrences, !list_elem_of_In, in_flat_map.
  split; intros (r & Hr & Hx); exists r; by rewrite ?list_elem_of_In in *.
Qed.

Lemma resolved_without_duplicates_witness :
  resolve overlapping_config ["a@example.com"; "b@example.com"]
  = Ok ["x@x.com"; "y@x.com"; "z@x.com"]
  ∧ NoDup ["x@x.com"; "y@x.com"; "z@x.com"].
Proof.
  split; [vm_compute; reflexivity|].
  apply (resolved_without_duplicates overlapping_config
           ["a@example.com"; "b@example.com"] ["x@x.com"; "y@x.com"; "z@x.com"]).
  vm_compute; reflexivity.
Defined.

(** The only errors of the resolver are the type errors of its four
    [forEach] calls. *)
Lemma resolve_throws cfg originalRecipients e :
  resolve cfg originalRecipients = Throw e →
  ∃ line, e = TypeError line ∧ line ∈ [101; 108; 110; 112]%nat.
Proof.
  rewrite resolve_first_occurrences.
  destruct (existsb _ _) eqn:Hex; [|done]. intros [= <-]. eexists. split; [done|].
  unfold throw_line. apply existsb_exists in Hex as (r & Hr & Hhit).
  destruct (List.find _ _) as [r'|] eqn:Hfind.
  - unfold answered_line. repeat case_match; set_solver.
  - apply (List.find_none _ _ Hfind) in Hr. congruence.
Qed.

(** The resolver returns a list unless the first match of some recipient
    is an inherited property of the mapping object. *)
Lemma resolve_total cfg originalRecipients :
  existsb (hits_prototype cfg) originalRecipients = false →
  ∃ newRecipients, resolve cfg originalRecipients = Ok newRecipients.
Proof. rewrite resolve_first_occurrences. intros ->. eauto. Qed.

Lemma resolve_no_match cfg originalRecipients :
  (∀ r, r ∈ originalRecipients →
        ∀ k, k ∈ tiers (origEmailKey cfg r) → matches (get (forwardMapping cfg) k) = false) →
  resolve cfg originalRecipients = Ok [].
Proof.
  intros H. rewrite resolve_first_occurrences.
  assert (Hnone : ∀ r, r ∈ originalRecipients →
            first_match (forwardMapping cfg) (origEmailKey cfg r) = None).
  { intros r Hr. apply find_none_iff. by apply H. }
  assert (existsb (hits_prototype cfg) originalRecipients = false) as ->.
  { apply not_true_is_false. rewrite existsb_exists. intros (r & Hr & Hp).
    unfold hits_prototype in Hp. rewrite Hnone in Hp by by apply list_elem_of_In.
    discriminate. }
  assert (flat_map (contribution cfg) originalRecipients = []) as ->; [|reflexivity].
  induction originalRecipients as [|r rs IH]; [reflexivity|]. cbn [flat_map].
  unfold contribution at 1. rewrite Hnone by constructor. cbn [app].
  apply IH.
  - intros r' Hr'. apply H. by constructor.
  - intros r' Hr'. apply Hnone. by constructor.
Qed.

End ResolverClaims.

(** ** Claims about the pipeline *)

Section PipelineClaims.
Import Resolver ResolverSpec.

(** The handler with the steps of the source, case by case. *)
Ltac unfold_pipeline :=
  cbv [handler with_config initial_data default_steps run_steps
       parseEvent transformRecipients fetchMessage processMessage sendMessage
       mbind step_bind option_bind promise_resolve promise_reject call settle default
       o_steps o_config d_event d_config d_email d_recipients
       d_originalRecipients d_originalRecipient d_emailData app fst snd].

Ltac run_pipeline := unfold_pipeline; repeat case_match; simplify_eq.

(** Membership in a list of calls written out, case by case. *)
Ltac split_elem_of :=
  repeat match goal with
    | H : _ ∈ [] |- _ => by apply elem_of_nil in H
    | H : _ ∈ _ :: _ |- _ => apply elem_of_cons in H as [H|H]
    end.

Lemma run_steps_app pre post data log :
  run_steps (pre ++ post)%list data log =
  match run_steps pre data log with
  | (Ok data', log') => run_steps post data' log'
  | (Throw e, log') => (Throw e, log')
  end.
Proof.
  revert data log. induction pre as [|step pre IH]; intros data log; [reflexivity|].
  cbn [app run_steps]. unfold mbind, step_bind.
  destruct (step data log) as [[data'|e] log']; [apply IH|reflexivity].
Qed.

Lemma shape_test event e record :
  event = Some e → Records e = Array [Some record] →
  bool_decide (eventSource record = Some "aws:ses")
  && bool_decide (eventVersion record = Some "1.0") = true
  ↔ expected_shape event record.
Proof.
  intros He Hr. rewrite andb_true_iff, !bool_decide_eq_true.
  unfold expected_shape. split.
  - intros [? ?]. by exists e.
  - intros (e' & ? & ? & ? & ?). simplify_eq. split; congruence.
Qed.

Lemma shape_unique event record record' :
  expected_shape event record → expected_shape event record' → record = record'.
Proof. intros (e & ? & ? & _) (e' & ? & ? & _). simplify_eq. congruence. Qed.

Lemma shape_dec event :
  (∃ record, expected_shape event record) ∨ ¬ ∃ record, expected_shape event record.
Proof.
  destruct event as [e|]; [|right; intros (? & ? & ? & _); discriminate].
  destruct (Records e) as [| |[|[record|] [|]]] eqn:Hr;
    try (right; intros (? & ? & ? & ? & _); simplify_eq; congruence).
  destruct (decide (eventSource record = Some "aws:ses")) as [Hs|Hs];
    [destruct (decide (eventVersion record = Some "1.0")) as [Hv|Hv]|].
  - left. by exists record, e.
  - right. intros (? & ? & ? & ? & ? & ?). simplify_eq. congruence.
  - right. intros (? & ? & ? & ? & ? & ?). simplify_eq. congruence.
Qed.

Lemma shape_not_null event record line :
  expected_shape event record → reads_null event line → False.
Proof. intros (e & ? & ? & _) (e' & ? & [[? _]|[? _]]); simplify_eq; congruence. Qed.

(** The run of the handler with the steps of the source, read off the
    event, the configuration and the answers of S3 and SES. *)
Lemma handler_run world event cfg :
  let config := default defaultConfig cfg in
  handler world event (with_config cfg) =
  match event with
  | None => (Failure InvalidSES, [])
  | Some e =>
      match Records e with
      | Absent => (Failure InvalidSES, [])
      | Null => (Failure (TypeError 70), [])
      | Array [None] => (Failure (TypeError 71), [])
      | Array [Some record] =>
          if bool_decide (eventSource record = Some "aws:ses")
             && bool_decide (eventVersion record = Some "1.0")
          then
            match ses record with
            | None => (Failure (TypeError 77), [])
            | Some se =>
                match receipt se with
                | None => (Failure (TypeError 78), [])
                | Some rc =>
                    match Resolver.resolve config (recipients rc) with
                    | Throw err => (Failure err, [])
                    | Ok new =>
                        match mail se with
                        | None => (Failure (TypeError 132), [])
                        | Some m =>
                            let Key := emailKeyPrefix config +:+ messageId m in
                            match s3 world (emailBucket config) Key with
                            | None =>
                                (Failure FetchFailed, [GetObject (emailBucket config) Key])
                            | Some text =>
                                (if ses_accepts world (Some new) None
                                      (Header.process config None text)
                                 then Success else Failure SendFailed,
                                 [GetObject (emailBucket config) Key;
                                  SendRawEmail (Some new) None
                                    (Header.process config None text)])
                            end
                        end
                    end
                end
            end
          else (Failure InvalidSES, [])
      | Array _ => (Failure InvalidSES, [])
      end
  end.
Proof.
  intros config. subst config.
  destruct event as [e|]; [|by destruct cfg].
  destruct (Records e) as [| |[|[record|] [|]]] eqn:Hr;
    try (destruct cfg; unfold_pipeline; rewrite Hr; reflexivity).
  destruct (bool_decide _ && bool_decide _) eqn:Htest;
    destruct cfg as [config|]; unfold_pipeline; rewrite Hr, Htest; try reflexivity.
  all: destruct (ses record) as [se|]; [|reflexivity].
  all: destruct (receipt se) as [rc|]; [|reflexivity].
  all: destruct (Resolver.resolve _ _); [|reflexivity].
  all: destruct (mail se); [|reflexivity].
  all: destruct (s3 world _ _); [|reflexivity].
  all: by destruct (ses_accepts world _ _ _).
Qed.

(** An event that is neither of the expected shape nor [null] where it is
    read is rejected before any call. *)
Lemma handler_invalid_event world event cfg :
  (¬ ∃ record, expected_shape event record) → (¬ ∃ line, reads_null event line) →
  handler world event (with_config cfg) = (Failure InvalidSES, []).
Proof.
  intros Hbad Hnull. rewrite handler_run.
  destruct event as [e|]; [|reflexivity].
  destruct (Records e) as [| |[|[record|] [|]]] eqn:Hr; try reflexivity.
  - destruct Hnull. exists 70%nat, e. split; [done|]. by left.
  - destruct (bool_decide _ && bool_decide _) eqn:Htest; [|reflexivity].
    destruct Hbad. exists record. by apply (shape_test (Some e) e record eq_refl Hr).
  - destruct Hnull. exists 71%nat, e. split; [done|]. by right.
Qed.

(** Every run of the handler with the steps of the source ends in one
    of the ways of [Ends]. *)
Lemma handler_ends world event cfg :
  Ends world event (default defaultConfig cfg) (handler world event (with_config cfg)).
Proof.
  destruct (shape_dec event) as [[record Hex]|Hbad].
  2:{ destruct event as [e|]; [|by rewrite handler_invalid_event
                                     by (done || intros (? & ? & ? & _); done);
                                   constructor; [done|intros (? & ? & ? & _); done]].
      destruct (Records e) as [| |[|[record|] [|]]] eqn:Hr.
      all: try (rewrite handler_invalid_event;
                [constructor|..]; try done;
                intros (? & e' & ? & [[? _]|[? _]]); simplify_eq; congruence).
      - rewrite handler_run, Hr. apply ends_null. exists e. split; [done|]. by left.
      - rewrite handler_run, Hr. apply ends_null. exists e. split; [done|]. by right. }
  pose proof Hex as (e & -> & Hr & Hsrc & Hver).
  assert (Htest : bool_decide (eventSource record = Some "aws:ses")
                  && bool_decide (eventVersion record = Some "1.0") = true).
  { by rewrite andb_true_iff, !bool_decide_eq_true. }
  rewrite handler_run, Hr, Htest.
  set (config := default defaultConfig cfg).
  destruct (ses record) as [se|] eqn:Hse; [|by eapply ends_no_ses].
  destruct (receipt se) as [rc|] eqn:Hrc; [|by eapply ends_no_receipt].
  destruct (Resolver.resolve config (recipients rc)) as [new|err] eqn:Hnew;
    [|by eapply ends_unresolved].
  destruct (mail se) as [m|] eqn:Hm; [|by eapply ends_no_mail].
  cbv zeta.
  destruct (s3 world _ _) as [text|] eqn:Htext;
    [by eapply ends_sent|by eapply ends_fetch_failed].
Qed.

(** Events with no record, with two records and with another source tag
    are rejected before any call. *)
Example malformed_events :
  let record := {| eventSource := Some "aws:ses"; eventVersion := Some "1.0";
                   ses := Some {| mail := Some {| messageId := "m1" |};
                                  receipt := Some {| recipients := ["info@example.com"] |} |} |} in
  let other := {| eventSource := Some "aws:sns"; eventVersion := Some "1.0";
                  ses := ses record |} in
  handler (store jane_message) (Some {| Records := Array [] |}) (with_config None)
  = (Failure InvalidSES, [])
  ∧ handler (store jane_message) (Some {| Records := Array [Some record; Some record] |})
      (with_config None)
    = (Failure InvalidSES, [])
  ∧ handler (store jane_message) (Some {| Records := Array [Some other] |})
      (with_config None)
    = (Failure InvalidSES, []).
Proof. repeat split; vm_compute; reflexivity. Qed.

(** A read that fails ends the run: the send is not made. *)
Example failed_read :
  handler {| s3 := λ _ _, None; ses_accepts := λ _ _ _, true |}
    (ses_event "m1" ["info@example.com"]) (with_config (Some info_config))
  = (Failure FetchFailed, [GetObject "bucket" "emails/m1"]).
Proof. vm_compute. reflexivity. Qed.

(** C8 (the code departs from the claim): [parseEvent] means to reject
    every event that is not a mail receipt with its own error, and does
    so for an event without [Records], with no record, with two, or with
    another source tag or version.  It misses the events where a part it
    reads is [null] or absent: for [Records: null] and for [Records:
    [null]] the guard itself throws a type error (lines 70 and 71), for a
    tagged record without [ses], or whose [ses] has no [receipt], the
    reads after the guard throw (lines 77 and 78), and for a tagged record
    whose [ses] has no [mail] the step resolves with [data.email]
    undefined: no message id is yielded, and the run ends in a type error
    at line 132, in [fetchMessage].  No call is made in any of these
    cases. *)
Theorem parseEvent_misses_null_and_absent_parts :
  handler (store jane_message) (Some {| Records := Absent |}) (with_config None)
  = (Failure InvalidSES, [])
  ∧ handler (store jane_message) (Some {| Records := Array [] |}) (with_config None)
    = (Failure InvalidSES, [])
  ∧ parseEvent (initial_data null_records_event None) [] = (Throw (TypeError 70), [])
  ∧ handler (store jane_message) null_records_event (with_config None)
    = (Failure (TypeError 70), [])
  ∧ parseEvent (initial_data null_record_event None) [] = (Throw (TypeError 71), [])
  ∧ handler (store jane_message) null_record_event (with_config None)
    = (Failure (TypeError 71), [])
  ∧ parseEvent (initial_data no_ses_event None) [] = (Throw (TypeError 77), [])
  ∧ handler (store jane_message) no_ses_event (with_config None)
    = (Failure (TypeError 77), [])
  ∧ parseEvent (initial_data no_receipt_event None) [] = (Throw (TypeError 78), [])
  ∧ parseEvent (initial_data no_mail_event (with_config (Some info_config))) []
    = (Ok {| d_event := no_mail_event;
             d_config := info_config;
             d_email := None;
             d_recipients := Some ["info@example.com"];
             d_originalRecipients := None;
             d_originalRecipient := None;
             d_emailData := None |}, [])
  ∧ handler (store jane_message) no_mail_event (with_config (Some info_config))
    = (Failure (TypeError 132), []).
Proof. repeat split; vm_compute; reflexivity. Qed.

(** What each step adds to the log of calls: [parseEvent],
    [transformRecipients] and [processMessage] nothing, [fetchMessage] one
    read unless it throws before it, [sendMessage] one send unless it
    throws before it. *)
Lemma step_calls world data log :
  snd (parseEvent data log) = log
  ∧ snd (transformRecipients data log) = log
  ∧ snd (processMessage data log) = log
  ∧ (fetchMessage world data log = (Throw (TypeError 132), log)
     ∨ ∃ Key, snd (fetchMessage world data log)
              = (log ++ [GetObject (emailBucket (d_config data)) Key])%list)
  ∧ (sendMessage world data log = (Throw (TypeError 235), log)
     ∨ ∃ text, snd (sendMessage world data log)
               = (log ++ [SendRawEmail (d_recipients data) (d_originalRecipient data)
                            text])%list).
Proof.
  repeat split.
  - unfold parseEvent, promise_reject, promise_resolve. by repeat case_match.
  - unfold transformRecipients, promise_reject, promise_resolve, settle, mbind, step_bind.
    by repeat case_match.
  - unfold processMessage, promise_reject, promise_resolve. by repeat case_match.
  - unfold fetchMessage, promise_reject, promise_resolve, call, mbind, step_bind.
    destruct (d_email data); [right|by left]. eexists. by case_match.
  - unfold sendMessage, promise_reject, promise_resolve, call, mbind, step_bind.
    destruct (d_emailData data); [right|by left]. eexists. by case_match.
Qed.

(** C9: the handler runs the five steps of the source in the order
    [parseEvent], [transformRecipients], [fetchMessage], [processMessage],
    [sendMessage], each on the data and the log of calls that the one
    before it left; the first rejection is the outcome and no later step
    runs; success is reported after [sendMessage] has resolved, and only
    then.  On an event of the expected shape that carries its receipt and
    its mail, every step runs as far as the collaborators allow: the
    recipients are resolved, the message is read at the key of the event,
    and the rewritten text is sent to the resolved recipients.  The calls
    are, in order, at most the read from S3 and then one send; a failed
    read leaves no send; and a failure is one error, whose kind tells how
    far the run got: no call before an invalid event or a type error, the
    read alone before a failed read, the read and the send before a
    refused send. *)
Theorem pipeline_is_linear world event cfg :
  let run := handler world event (with_config cfg) in
  let config := default defaultConfig cfg in
  run = match parseEvent (initial_data event (with_config cfg)) [] with
        | (Throw e, log) => (Failure e, log)
        | (Ok data1, log1) =>
        match transformRecipients data1 log1 with
        | (Throw e, log) => (Failure e, log)
        | (Ok data2, log2) =>
        match fetchMessage world data2 log2 with
        | (Throw e, log) => (Failure e, log)
        | (Ok data3, log3) =>
        match processMessage data3 log3 with
        | (Throw e, log) => (Failure e, log)
        | (Ok data4, log4) =>
        match sendMessage world data4 log4 with
        | (Throw e, log) => (Failure e, log)
        | (Ok _, log5) => (Success, log5)
        end end end end end
  ∧ (∀ record se rc m,
       expected_shape event record → ses record = Some se →
       receipt se = Some rc → mail se = Some m →
       let Key := emailKeyPrefix config +:+ messageId m in
       run = match Resolver.resolve config (recipients rc) with
             | Throw e => (Failure e, [])
             | Ok new =>
                 match s3 world (emailBucket config) Key with
                 | None => (Failure FetchFailed, [GetObject (emailBucket config) Key])
                 | Some text =>
                     (if ses_accepts world (Some new) None (Header.process config None text)
                      then Success else Failure SendFailed,
                      [GetObject (emailBucket config) Key;
                       SendRawEmail (Some new) None (Header.process config None text)])
                 end
             end)
  ∧ (∀ pre post data log,
      run_steps (pre ++ post)%list data log =
      match run_steps pre data log with
      | (Ok data', log') => run_steps post data' log'
      | (Throw e, log') => (Throw e, log')
      end)
  ∧ (snd run = []
     ∨ (∃ b k, snd run = [GetObject b k] ∧ s3 world b k = None)
     ∨ (∃ b k d s m, snd run = [GetObject b k; SendRawEmail d s m]))
  ∧ (∀ b k d s m, snd run = [GetObject b k; SendRawEmail d s m] →
       ∃ record se rc new text,
         expected_shape event record ∧ ses record = Some se ∧ receipt se = Some rc
         ∧ Resolver.resolve config (recipients rc) = Ok new
         ∧ s3 world b k = Some text
         ∧ d = Some new ∧ m = Header.process config s text)
  ∧ (fst run = Success
     ↔ ∃ b k d s m, snd run = [GetObject b k; SendRawEmail d s m]
                    ∧ ses_accepts world d s m = true)
  ∧ (∀ b k, GetObject b k ∈ snd run → s3 world b k = None →
       run = (Failure FetchFailed, [GetObject b k]))
  ∧ (∀ d s m, SendRawEmail d s m ∈ snd run → ses_accepts world d s m = false →
       fst run = Failure SendFailed)
  ∧ (∀ e, fst run = Failure e →
       match e with
       | InvalidSES =>
           message e = Some "Error: Received invalid SES message." ∧ snd run = []
       | TypeError _ => snd run = []
       | FetchFailed =>
           message e = Some "Error: Failed to load message body from S3."
           ∧ ∃ b k, snd run = [GetObject b k]
       | SendFailed =>
           message e = Some "Error: Email sending failed."
           ∧ ∃ b k d s m, snd run = [GetObject b k; SendRawEmail d s m]
       end).
Proof.
  intros run config. split; [|split; [|split; [apply run_steps_app|]]].
  { subst run. destruct cfg as [cfg|];
      cbv [handler with_config default_steps run_steps mbind step_bind option_bind
           default o_steps o_config promise_resolve].
    all: destruct (parseEvent _ _) as [[data1|?] log1]; [|reflexivity].
    all: destruct (transformRecipients _ _) as [[data2|?] log2]; [|reflexivity].
    all: destruct (fetchMessage _ _ _) as [[data3|?] log3]; [|reflexivity].
    all: destruct (processMessage _ _) as [[data4|?] log4]; [|reflexivity].
    all: by destruct (sendMessage _ _ _) as [[data5|?] log5]. }
  { intros record se rc m Hex Hse Hrc Hm Key. subst run Key.
    destruct Hex as (e & -> & Hr & Hsrc & Hver).
    rewrite handler_run, Hr, Hse, Hrc, Hm.
    by rewrite !bool_decide_eq_true_2. }
  pose proof (handler_ends world event cfg) as Hends.
  fold run config in Hends. clearbody run config.
  destruct Hends as [Hbad Hnull|line Hnull|record Hex Hnone|record se Hex Hse Hnone
                    |record se rc e Hex Hse Hrc Hnew
                    |record se rc new Hex Hse Hrc Hnew Hm
                    |record se rc new m Hex Hse Hrc Hnew Hm Htext
                    |record se rc new m text Hex Hse Hrc Hnew Hm Htext];
    cbn [fst snd].
  all: repeat match goal with |- _ ∧ _ => split end.
  all: try (left; reflexivity).
  all: try (intros; discriminate).
  all: try (split; [discriminate|intros (?&?&?&?&?&?&?); discriminate]).
  all: try (intros; split_elem_of; simplify_eq; done).
  all: try (intros ? [= <-]; try split; eauto 8; fail).
  - intros ? [= <-]. by apply resolve_throws in Hnew as (line & -> & _).
  - right; left. eauto.
  - right; right. eauto 6.
  - intros b k d s m' [= <- <- <- <- <-]. by exists record, se, rc, new, text.
  - destruct (ses_accepts world _ _ _) eqn:Hacc.
    + split; [eauto 8|done].
    + split; [done|]. intros (?&?&?&?&?&?&?). simplify_eq. congruence.
  - intros; split_elem_of; simplify_eq.
    by match goal with H : ses_accepts _ _ _ _ = false |- _ => rewrite H end.
  - destruct (ses_accepts world _ _ _); [done|].
    intros ? [= <-]. split; [done|]. eauto 8.
Qed.

(** When no tier of any original recipient is answered by the property
    read, the resolver returns the empty list without an error, and the
    handler goes on: it reads the message, rewrites it, and makes the send
    with the empty destination list; the outcome is what SES answers to
    that send. *)
Lemma unanswered_recipients_still_sent world cfg event record se rc m text :
  expected_shape event record →
  ses record = Some se → receipt se = Some rc → mail se = Some m →
  (∀ r, r ∈ recipients rc →
        ∀ k, k ∈ tiers (origEmailKey cfg r) →
             matches (get (forwardMapping cfg) k) = false) →
  s3 world (emailBucket cfg) (emailKeyPrefix cfg +:+ messageId m) = Some text →
  Resolver.resolve cfg (recipients rc) = Ok []
  ∧ handler world event (with_config (Some cfg)) =
    (if ses_accepts world (Some []) None (Header.process cfg None text)
     then Success else Failure SendFailed,
     [GetObject (emailBucket cfg) (emailKeyPrefix cfg +:+ messageId m);
      SendRawEmail (Some []) None (Header.process cfg None text)]).
Proof.
  intros Hex Hse Hrc Hm Hnone Htext.
  pose proof (resolve_no_match cfg (recipients rc) Hnone) as Hnew.
  split; [done|].
  destruct Hex as (e & -> & Hr & Hsrc & Hver).
  rewrite handler_run, Hr, Hse, Hrc, Hm.
  change (default defaultConfig (Some cfg)) with cfg. rewrite Hnew. cbv zeta.
  by rewrite Htext, !bool_decide_eq_true_2.
Qed.

(** C10 (the code departs from the claim): with a mapping that has no key
    at all, no mapping tier matches any recipient.  For
    [nobody@example.com] the resolver returns the empty list and the
    handler reads the message and makes the send with no destination, as
    the claim says.  For [constructor@example.com] the mailbox tier
    [forwardMapping["constructor"]] is answered by the property every
    object inherits: the resolver throws at line 110, and the handler
    stops there, with no read and no send (the defect of C6). *)
Theorem inherited_name_is_not_unmatched :
  forwardMapping (plain_config ∅) = ∅
  ∧ Resolver.resolve (plain_config ∅) ["nobody@example.com"] = Ok []
  ∧ handler (store jane_message) (ses_event "m1" ["nobody@example.com"])
      (with_config (Some (plain_config ∅)))
    = (Success,
       [GetObject "bucket" "emails/m1";
        SendRawEmail (Some []) None (Header.process (plain_config ∅) None jane_message)])
  ∧ Resolver.resolve (plain_config ∅) ["constructor@example.com"]
    = Throw (TypeError 110)
  ∧ handler (store jane_message) (ses_event "m1" ["constructor@example.com"])
      (with_config (Some (plain_config ∅)))
    = (Failure (TypeError 110), []).
Proof. repeat split; vm_compute; reflexivity. Qed.

(** C3 (the code departs from the claim): no step of the source assigns
    [data.originalRecipient], so every send the handler makes has an
    undefined [Source]; a run that ends in success is shown. *)
Theorem send_source_is_undefined world event cfg :
  Forall (λ c, match c with
               | SendRawEmail _ Source _ => Source = None
               | GetObject _ _ => True
               end)
         (snd (handler world event (with_config cfg)))
  ∧ ∃ RawMessage,
      handler (store jane_message) (ses_event "m1" ["info@example.com"])
        (with_config (Some info_config)) =
      (Success,
       [GetObject "bucket" "emails/m1";
        SendRawEmail (Some ["a@x.com"; "b@x.com"]) None RawMessage]).
Proof.
  split.
  - destruct (handler_ends world event cfg); cbn [snd]; repeat constructor.
  - eexists. vm_compute. reflexivity.
Qed.

(** C2 (the code departs from the claim): for the message of scenario 3
    received for [info@example.com], with no [fromEmail] configured, the
    handler sends a header with the [Reply-To] of the claim, but with a
    [From] that ends in the text [<undefined>]. *)
Theorem from_header_names_undefined :
  handler (store jane_message) (ses_event "m1" ["info@example.com"])
    (with_config (Some info_config)) =
  (Success,
   [GetObject "bucket" "emails/m1";
    SendRawEmail (Some ["a@x.com"; "b@x.com"]) None
      ("From: Jane at jane@example.com <undefined>" +:+ LF +:+
       "Subject: Hello" +:+ LF +:+
       "Reply-To: Jane <jane@example.com>" +:+ LF +:+
       LF +:+
       "Hi." +:+ LF)]).
Proof. vm_compute. reflexivity. Qed.

(** The rule of [processMessage] itself writes the header of scenario 3
    when [data.originalRecipient] holds the address. *)
Lemma from_header_with_recipient :
  Header.process info_config (Some "info@example.com") jane_message =
  "From: Jane at jane@example.com <info@example.com>" +:+ LF +:+
  "Subject: Hello" +:+ LF +:+
  "Reply-To: Jane <jane@example.com>" +:+ LF +:+
  LF +:+
  "Hi." +:+ LF.
Proof. vm_compute. reflexivity. Qed.

End PipelineClaims.

(** ** Facts about the matcher *)

Section MatcherBounds.
Import Regex Greedy.

Lemma reach_refl x : reach x x.
Proof. by split. Qed.

Lemma reach_trans x y z : reach x y → reach y z → reach x z.
Proof. unfold reach. lia. Qed.

Lemma rounds_reach atom :
  (∀ x k k', (∀ y, reach x y → k y = k' y) → atom x k = atom x k') →
  ∀ n x k k', (∀ y, reach x y → k y = k' y) →
  rounds atom k n x = rounds atom k' n x.
Proof.
  intros Hatom. induction n as [|n IH]; intros x k k' Hk; cbn [rounds].
  - apply Hk, reach_refl.
  - rewrite (Hatom x _ (λ y, if (index y =? index x)%nat then None
                            else rounds atom k' n y)).
    + rewrite (Hk x) by apply reach_refl. done.
    + intros y Hy. destruct (index y =? index x)%nat; [done|].
      apply IH. intros w Hw. apply Hk. by apply (reach_trans x y).
Qed.

(** The matcher hands to the rest of the pattern only points at or after
    the one it started from. *)
Lemma run_reach r : ∀ x k k',
  (∀ y, reach x y → k y = k' y) → run r x k = run r x k'.
Proof.
  induction r as [|class| |r1 IH1 r2 IH2|r1 IH1|r1 IH1|n r1 IH1]; intros x k k' Hk.
  - apply Hk, reach_refl.
  - cbn [run]. destruct (rest x) as [|c s] eqn:Hx; [done|].
    destruct (class c); [|done]. apply Hk.
    unfold reach, step. cbn [rest index]. rewrite Hx. cbn [String.length]. lia.
  - cbn [run]. destruct (before x) as [c|]; [destruct (line_terminator c)|];
      try done; apply Hk, reach_refl.
  - cbn [run]. apply IH1. intros y Hy. apply IH2. intros w Hw.
    apply Hk. by apply (reach_trans x y).
  - cbn [run]. by apply rounds_reach.
  - cbn [run]. by apply rounds_reach.
  - cbn [run]. apply IH1. intros y Hy. apply Hk. exact Hy.
Qed.

Lemma run_fails r x : run r x (λ _, None) = None.
Proof.
  revert x. induction r as [|class| |r1 IH1 r2 IH2|r1 IH1|r1 IH1|n r1 IH1]; intros x.
  - done.
  - cbn [run]. destruct (rest x); [done|]. by destruct (class _).
  - cbn [run]. destruct (before x) as [c|]; [by destruct (line_terminator c)|done].
  - cbn [run]. rewrite (run_reach r1 x _ (λ _, None)); [apply IH1|]. intros y _. apply IH2.
  - cbn [run]. generalize (String.length (rest x)). intros n. revert x.
    induction n as [|n IH]; intros x; cbn [rounds]; [done|].
    rewrite (run_reach r1 x _ (λ _, None)); [by rewrite IH1|].
    intros y _. destruct (index y =? index x)%nat; [done|apply IH].
  - cbn [run rounds]. rewrite (run_reach r1 x _ (λ _, None)); [by rewrite IH1|].
    intros y _. by destruct (index y =? index x)%nat.
  - cbn [run]. apply IH1.
Qed.

(** The rounds of a star never run out: with a bound of at least the
    length of the text that is left, the result is the same as with that
    length. *)
Lemma rounds_enough r n : ∀ x k,
  (String.length (rest x) ≤ n)%nat →
  rounds (run r) k n x = rounds (run r) k (String.length (rest x)) x.
Proof.
  induction n as [n IH] using lt_wf_ind. intros x k Hn.
  destruct n as [|n].
  - by replace (String.length (rest x)) with 0%nat by lia.
  - destruct (String.length (rest x)) as [|m] eqn:Hm; cbn [rounds].
    + rewrite (run_reach r x _ (λ _, None)); [by rewrite run_fails|].
      intros y [Hy1 Hy2]. rewrite Hm in *.
      assert ((index y =? index x)%nat = true) as -> by (apply Nat.eqb_eq; lia). done.
    + rewrite (run_reach r x _ (λ y, if (index y =? index x)%nat then None
                                   else rounds (run r) k m y)); [done|].
      intros y [Hy1 Hy2]. destruct (index y =? index x)%nat eqn:Hi; [done|].
      apply Nat.eqb_neq in Hi. rewrite Hm in *.
      rewrite (IH n) by lia. rewrite (IH m) by lia. done.
Qed.

Lemma rounds_some atom :
  (∀ x k z, atom x k = Some z → ∃ y, reach x y ∧ k y = Some z) →
  ∀ n x k z, rounds atom k n x = Some z → ∃ y, reach x y ∧ k y = Some z.
Proof.
  intros Hatom. induction n as [|n IH]; intros x k z; cbn [rounds].
  - intros Hz. exists x. split; [apply reach_refl|done].
  - destruct (atom x _) as [z'|] eqn:Hround.
    + intros [= ->]. apply Hatom in Hround as (y & Hy & Hk).
      destruct (index y =? index x)%nat; [done|].
      apply IH in Hk as (w & Hw & Hk). exists w. split; [|done].
      by apply (reach_trans x y).
    + intros Hz. exists x. split; [apply reach_refl|done].
Qed.

(** A successful match ends at a point at or after its start. *)
Lemma run_some r : ∀ x k z,
  run r x k = Some z → ∃ y, reach x y ∧ k y = Some z.
Proof.
  induction r as [|class| |r1 IH1 r2 IH2|r1 IH1|r1 IH1|n r1 IH1]; intros x k z; cbn [run].
  - intros Hz. exists x. split; [apply reach_refl|done].
  - destruct (rest x) as [|c s] eqn:Hx; [done|]. destruct (class c); [|done].
    intros Hz. exists (step c s x). split; [|done].
    unfold reach, step. cbn [rest index]. rewrite Hx. cbn [String.length]. lia.
  - destruct (before x) as [c|]; [destruct (line_terminator c)|]; try done;
      intros Hz; exists x; (split; [apply reach_refl|done]).
  - intros (y & Hy & (w & Hw & Hz)%IH2)%IH1. exists w. split; [|done].
    by apply (reach_trans x y).
  - by apply rounds_some.
  - by apply rounds_some.
  - intros (y & Hy & Hz)%IH1. by exists (capture n x y).
Qed.

(** A match found from index [i] of a text lies between [i] and the end
    of the text. *)
Lemma exec_from_bounds r s : ∀ prev i m,
  exec_from r prev s i = Some m →
  (i ≤ start m)%nat ∧ (start m ≤ stop m)%nat ∧ (stop m ≤ i + String.length s)%nat.
Proof.
  induction s as [|c s IH]; intros prev i m; cbn [exec_from].
  - destruct (run r _ Some) as [y|] eqn:Hrun; [|done]. intros [= <-].
    apply run_some in Hrun as (y' & [Hy1 Hy2] & [= ->]).
    cbn [start stop rest index String.length] in *. lia.
  - destruct (run r _ Some) as [y|] eqn:Hrun.
    + intros [= <-]. apply run_some in Hrun as (y' & [Hy1 Hy2] & [= ->]).
      cbn [start stop rest index String.length] in *. lia.
    + intros Hm%IH. cbn [String.length]. lia.
Qed.

Lemma length_advance n : ∀ prev s,
  String.length (advance n prev s).2 = (String.length s - n)%nat.
Proof.
  induction n as [|n IH]; intros prev s; cbn [advance].
  - cbn. lia.
  - destruct s as [|c s]; [done|]. rewrite IH. done.
Qed.

(** The searches of a replacement never run out: with a bound above the
    length of the text, the result is the same as with that length plus
    one. *)
Lemma replace_enough r f n : ∀ prev s i,
  (String.length s < n)%nat →
  replace_from n r f prev s i = replace_from (S (String.length s)) r f prev s i.
Proof.
  induction n as [n IH] using lt_wf_ind. intros prev s i Hn.
  destruct n as [|n]; [lia|]. cbn [replace_from].
  destruct (exec_from r prev s i) as [m|] eqn:Hexec; [|done].
  apply exec_from_bounds in Hexec as (H1 & H2 & H3).
  pose proof (length_advance (stop m - i) prev s) as Hlen.
  destruct (advance (stop m - i) prev s) as [prev' after]. cbn [snd] in Hlen.
  destruct (stop m =? start m)%nat eqn:Hempty.
  - destruct after as [|c after]; [done|]. cbn [String.length] in Hlen.
    do 3 f_equal. rewrite (IH n) by lia. rewrite (IH (String.length s)) by lia. done.
  - apply Nat.eqb_neq in Hempty. do 2 f_equal.
    rewrite (IH n) by lia. rewrite (IH (String.length s)) by lia. done.
Qed.

End MatcherBounds.

Section GreedyFacts.
Import Regex Greedy.

Lemma rest_next x c s : rest x = String c s → rest (next x) = s.
Proof. unfold next. by intros ->. Qed.

Lemma index_next x c s : rest x = String c s → index (next x) = S (index x).
Proof. unfold next. by intros ->. Qed.

Lemma skip_add n m x : skip (n + m) x = skip m (skip n x).
Proof. revert x. induction n as [|n IH]; intros x; [reflexivity|]. cbn. apply IH. Qed.

Lemma captures_skip n x : captures (skip n x) = captures x.
Proof.
  revert x. induction n as [|n IH]; intros x; [reflexivity|]. cbn. rewrite IH.
  unfold next. by destruct (rest x).
Qed.

Lemma rest_skip a : ∀ x s, rest x = a +:+ s → rest (skip (String.length a) x) = s.
Proof.
  induction a as [|c a IH]; intros x s Hx; [done|]. cbn [String.length skip].
  apply IH. by apply (rest_next x c).
Qed.

Lemma index_skip a : ∀ x s,
  rest x = a +:+ s → index (skip (String.length a) x) = index x + String.length a.
Proof.
  induction a as [|c a IH]; intros x s Hx; cbn [String.length skip]; [lia|].
  rewrite (IH (next x) s) by by apply (rest_next x c).
  rewrite (index_next x c (a +:+ s)) by done. lia.
Qed.

Lemma app_String c (a b : string) : String c a +:+ b = String c (a +:+ b).
Proof. reflexivity. Qed.

Lemma string_length_app (a b : string) :
  String.length (a +:+ b) = String.length a + String.length b.
Proof.
  induction a as [|c a IH]; [done|].
  rewrite app_String. cbn [String.length]. by rewrite IH.
Qed.

Lemma substring_prefix (a b : string) : substring 0 (String.length a) (a +:+ b) = a.
Proof.
  induction a as [|c a IH]; [by destruct b|].
  rewrite app_String. cbn [String.length substring]. by rewrite IH.
Qed.

Lemma string_app_assoc (a b c : string) : (a +:+ b) +:+ c = a +:+ b +:+ c.
Proof.
  induction a as [|d a IH]; [done|]. rewrite !app_String. by rewrite IH.
Qed.

Lemma string_app_nil_r (a : string) : a +:+ EmptyString = a.
Proof. induction a as [|d a IH]; [done|]. rewrite app_String. by rewrite IH. Qed.

Lemma run_cat r1 r2 x k : run (r1 · r2) x k = run r1 x (λ y, run r2 y k).
Proof. reflexivity. Qed.

Lemma run_line_start x k : before x = None → run LineStart x k = k x.
Proof. cbn. by intros ->. Qed.

Lemma run_opt r x k : run (Opt r) x k = rounds (run r) k 1 x.
Proof. reflexivity. Qed.

Lemma run_star r x k : run (Star r) x k = rounds (run r) k (String.length (rest x)) x.
Proof. reflexivity. Qed.

Lemma run_group n r x k : run (Group n r) x k = run r x (λ y, k (capture n x y)).
Proof. reflexivity. Qed.

Lemma rounds_1 atom k x :
  rounds atom k 1 x =
  match atom x (λ y, if (index y =? index x)%nat then None else k y) with
  | Some z => Some z
  | None => k x
  end.
Proof. reflexivity. Qed.

Lemma unit_next class x k c s :
  rest x = String c s → class c = true → run (Unit class) x k = k (next x).
Proof. intros Hx Hc. cbn. unfold next. by rewrite Hx, Hc. Qed.

Lemma unit_fails class x k :
  starts class (rest x) = false → run (Unit class) x k = None.
Proof. cbn. destruct (rest x); cbn; [done|]. by intros ->. Qed.

(** A star over a class takes the longest run of the class when the rest
    of the pattern matches after it. *)
Lemma rounds_unit_greedy class a : ∀ x s k z n,
  rest x = a +:+ s → every class a = true → starts class s = false →
  (String.length a ≤ n)%nat →
  k (skip (String.length a) x) = Some z →
  rounds (run (Unit class)) k n x = Some z.
Proof.
  induction a as [|c a IH]; intros x s k z n Hx Ha Hs Hn Hk.
  - cbn in Hx, Hk. destruct n as [|n]; cbn [rounds]; [done|].
    rewrite unit_fails by by rewrite Hx. done.
  - cbn in Ha. apply andb_true_iff in Ha as [Hc Ha].
    destruct n as [|n]; cbn [String.length] in Hn; [lia|]. cbn [rounds].
    rewrite (unit_next class x _ c (a +:+ s)) by done.
    assert ((index (next x) =? index x)%nat = false) as ->.
    { apply Nat.eqb_neq. rewrite (index_next x c (a +:+ s)) by done. lia. }
    rewrite (IH (next x) s k z n); [done| |done|done|lia|done].
    by apply (rest_next x c).
Qed.

Lemma star_unit_greedy class a x s k z :
  rest x = a +:+ s → every class a = true → starts class s = false →
  k (skip (String.length a) x) = Some z →
  run (Star (Unit class)) x k = Some z.
Proof.
  intros Hx Ha Hs Hk. cbn [run].
  apply (rounds_unit_greedy class a x s); try done.
  rewrite Hx, string_length_app. lia.
Qed.

Lemma plus_unit_greedy class a x s k z :
  rest x = a +:+ s → a ≠ EmptyString → every class a = true → starts class s = false →
  k (skip (String.length a) x) = Some z →
  run (Plus (Unit class)) x k = Some z.
Proof.
  intros Hx Hne Ha Hs Hk. destruct a as [|c a]; [done|].
  cbn in Ha. apply andb_true_iff in Ha as [Hc Ha].
  unfold Plus. cbn [run]. fold (run (Unit class)).
  change (run (Unit class) x (λ y, run (Star (Unit class)) y k) = Some z).
  rewrite (unit_next class x _ c (a +:+ s)) by done.
  apply (star_unit_greedy class a (next x) s); try done.
  by apply (rest_next x c).
Qed.


(** *** The lines of the split pattern *)

Lemma newline_greedy eol x s k z :
  rest x = eol +:+ s → is_eol eol →
  k (skip (String.length eol) x) = Some z →
  run Header.newline x k = Some z.
Proof.
  intros Hx Heol Hk. unfold Header.newline, Header.CR, Header.LF.
  rewrite run_cat, run_opt, rounds_1. destruct Heol as [->| ->].
  - rewrite (unit_fails (just "013") x) by by rewrite Hx.
    rewrite (unit_next (just "010") x k "010" s) by done. exact Hk.
  - rewrite (unit_next (just "013") x _ "013" (String "010" s)) by done.
    rewrite (index_next x "013" (String "010" s)) by done.
    assert ((S (index x) =? index x)%nat = false) as -> by (apply Nat.eqb_neq; lia).
    rewrite (unit_next (just "010") (next x) k "010" s);
      [|by apply (rest_next x "013")|done].
    cbn [String.length skip] in Hk. by rewrite Hk.
Qed.

Lemma eol_not_dot eol s : is_eol eol → starts dot (eol +:+ s) = false.
Proof. by intros [->| ->]. Qed.

Lemma line_greedy line x s k z :
  rest x = line.1 +:+ line.2 +:+ s → is_line line →
  k (skip (String.length (line.1 +:+ line.2)) x) = Some z →
  run (Plus Header.any · Header.newline) x k = Some z.
Proof.
  destruct line as [text eol]. cbn [fst snd]. intros Hx (Hne & Hdots & Heol) Hk.
  rewrite run_cat. unfold Header.any.
  apply (plus_unit_greedy dot text x (eol +:+ s)); try done.
  { by apply eol_not_dot. }
  apply (newline_greedy eol _ s); [by apply (rest_skip text)|done|].
  by rewrite <- skip_add, <- string_length_app.
Qed.

Lemma rounds_lines lines : ∀ x s k z n,
  rest x = join lines +:+ s → Forall is_line lines → starts dot s = false →
  (List.length lines ≤ n)%nat →
  k (skip (String.length (join lines)) x) = Some z →
  rounds (run (Plus Header.any · Header.newline)) k n x = Some z.
Proof.
  induction lines as [|line lines IH]; intros x s k z n Hx Hlines Hs Hn Hk.
  - cbn in Hx, Hk. destruct n as [|n]; cbn [rounds]; [done|].
    rewrite run_cat. unfold Plus, Header.any. rewrite run_cat.
    rewrite unit_fails by by rewrite Hx. done.
  - destruct n as [|n]; cbn [List.length] in Hn; [lia|].
    apply Forall_cons in Hlines as [Hline Hlines].
    cbn [join] in Hx, Hk. rewrite <- string_app_assoc in Hk.
    rewrite string_length_app, skip_add in Hk.
    rewrite !string_app_assoc in Hx.
    cbn [rounds].
    rewrite (line_greedy line x (join lines +:+ s) _ z); [done|done|done|].
    assert (Hrest : rest x = (line.1 +:+ line.2) +:+ join lines +:+ s)
      by by rewrite string_app_assoc.
    rewrite (index_skip _ x _ Hrest).
    assert (String.length (line.1 +:+ line.2) ≠ 0)%nat.
    { destruct Hline as (Hne & _). destruct (line.1); [done|].
      rewrite app_String. cbn [String.length]. lia. }
    assert ((index x + String.length (line.1 +:+ line.2) =? index x)%nat = false) as ->
      by (apply Nat.eqb_neq; lia).
    apply (IH _ s); [by apply (rest_skip _ x)|done|done|lia|done].
Qed.

(** *** The body of the split pattern *)

Lemma take_drop_while class s : take_while class s +:+ drop_while class s = s.
Proof.
  induction s as [|c s IH]; [done|]. cbn [take_while drop_while].
  destruct (class c); [|done]. rewrite app_String. by rewrite IH.
Qed.

Lemma every_take_while class s : every class (take_while class s) = true.
Proof.
  induction s as [|c s IH]; [done|]. cbn [take_while].
  destruct (class c) eqn:Hc; [|done]. cbn [every]. by rewrite Hc, IH.
Qed.

Lemma starts_drop_while class s : starts class (drop_while class s) = false.
Proof.
  induction s as [|c s IH]; [done|]. cbn [drop_while].
  destruct (class c) eqn:Hc; [done|]. cbn [starts]. done.
Qed.

Lemma ends_with_LF_tail c s : ends_with_LF (String c s) = true → ends_with_LF s = true.
Proof. destruct s; [done|]. by cbn [ends_with_LF]. Qed.

Lemma ends_with_LF_drop_while class s :
  ends_with_LF s = true → ends_with_LF (drop_while class s) = true.
Proof.
  induction s as [|c s IH]; [done|]. intros Hs. cbn [drop_while].
  destruct (class c); [|done]. apply IH. by apply (ends_with_LF_tail c).
Qed.

Lemma every_dot_no_LF s : every dot s = true → ends_with_LF s = true → s = EmptyString.
Proof.
  induction s as [|c s IH]; [done|]. cbn [every]. intros [Hc Hs]%andb_true_iff Hend.
  destruct s as [|d s].
  - cbn in Hend. apply Ascii.eqb_eq in Hend as ->. discriminate.
  - discriminate (IH Hs (ends_with_LF_tail c _ Hend)).
Qed.

(** A text that ends with a line feed is a run of other code units, then
    a run of white space that is not empty, then a text that is empty or
    ends with a line feed. *)
Lemma body_round s :
  s ≠ EmptyString → ends_with_LF s = true →
  ∃ d w s', s = d +:+ w +:+ s'
    ∧ every dot d = true ∧ starts dot (w +:+ s') = false
    ∧ w ≠ EmptyString ∧ every space w = true ∧ starts space s' = false
    ∧ ends_with_LF s' = true.
Proof.
  intros Hne Hend.
  exists (take_while dot s), (take_while space (drop_while dot s)),
    (drop_while space (drop_while dot s)).
  rewrite !take_drop_while.
  split; [done|]. split; [apply every_take_while|]. split; [apply starts_drop_while|].
  split; [|split; [apply every_take_while|split; [apply starts_drop_while|]]].
  - pose proof (starts_drop_while dot s) as Hstart.
    pose proof (take_drop_while dot s) as Hs.
    destruct (drop_while dot s) as [|c r] eqn:Hr.
    + rewrite string_app_nil_r in Hs.
      destruct Hne. apply every_dot_no_LF; [|done].
      rewrite <- Hs. apply every_take_while.
    + cbn [starts] in Hstart. cbn [take_while].
      assert (space c = true) as ->; [|done].
      unfold dot, line_terminator in Hstart. unfold space.
      apply negb_false_iff, orb_true_iff in Hstart as [Hc|Hc];
        apply Nat.eqb_eq in Hc; by rewrite Hc.
  - by do 2 apply ends_with_LF_drop_while.
Qed.

Lemma rounds_body n : ∀ x k z,
  (String.length (rest x) ≤ n)%nat → ends_with_LF (rest x) = true →
  k (skip (String.length (rest x)) x) = Some z →
  rounds (run (Star Header.any · Plus Header.blank)) k n x = Some z.
Proof.
  induction n as [|n IH]; intros x k z Hn Hend Hk.
  - destruct (rest x); [done|cbn in Hn; lia].
  - cbn [rounds]. destruct (rest x) as [|c r] eqn:Hx.
    + rewrite run_cat, run_star, Hx. cbn [String.length rounds].
      unfold Plus, Header.blank. rewrite run_cat.
      rewrite unit_fails by by rewrite Hx. done.
    + destruct (body_round (String c r)) as (d & w & s' & Hs & Hd & Hw0 & Hw & Hws & Hs' & Hend');
        [done|done|].
      rewrite Hs in Hx.
      assert (Hx' : rest x = (d +:+ w) +:+ s') by by rewrite string_app_assoc.
      assert (Hlen : String.length (String c r)
                     = (String.length (d +:+ w) + String.length s')%nat).
      { by rewrite Hs, <- string_app_assoc, string_length_app. }
      rewrite Hlen, skip_add in Hk. rewrite Hlen in Hn.
      assert (String.length (d +:+ w) ≠ 0)%nat.
      { rewrite string_length_app. destruct w; [done|]. cbn [String.length]. lia. }
      rewrite run_cat. unfold Header.any, Header.blank.
      rewrite (star_unit_greedy dot d x (w +:+ s') _ z); [done|done|done|done|].
      rewrite (plus_unit_greedy space w _ s' _ z); [done| |done|done|done|].
      { by apply (rest_skip d x). }
      rewrite <- skip_add, <- string_length_app.
      rewrite (index_skip _ x _ Hx').
      assert ((index x + String.length (d +:+ w) =? index x)%nat = false) as ->
        by (apply Nat.eqb_neq; lia).
      apply IH.
      * rewrite (rest_skip _ x _ Hx'). lia.
      * by rewrite (rest_skip _ x _ Hx').
      * by rewrite (rest_skip _ x _ Hx').
Qed.

Lemma length_join lines : Forall is_line lines → (List.length lines ≤ String.length (join lines))%nat.
Proof.
  induction 1 as [|line lines (Hne & _) _ IH]; [done|]. cbn [List.length join].
  rewrite !string_length_app. destruct (line.1); [done|]. cbn [String.length]. lia.
Qed.

(** A message of header lines, an empty line and a body that is empty or
    ends with a line feed is split into its header lines and the rest. *)
Lemma split_message_lines lines eol body :
  lines ≠ [] → Forall is_line lines → is_eol eol → ends_with_LF body = true →
  Header.split_message (join lines +:+ eol +:+ body) = (join lines, eol +:+ body).
Proof.
  intros Hne Hlines Heol Hbody.
  set (message := join lines +:+ eol +:+ body).
  set (x0 := {| before := None; rest := message; index := 0; captures := ∅ |}).
  set (y1 := skip (String.length (join lines)) x0).
  set (x1 := capture 1 x0 y1).
  set (x2 := skip (String.length eol) x1).
  set (z := capture 2 x1 (skip (String.length (rest x2)) x2)).
  assert (Hy1 : rest y1 = eol +:+ body) by by apply (rest_skip (join lines) x0).
  assert (Hi1 : index y1 = String.length (join lines)).
  { unfold y1. rewrite (index_skip (join lines) x0 (eol +:+ body)) by done. done. }
  assert (Hx2 : rest x2 = body) by by apply (rest_skip eol x1).
  assert (Hi2 : index x2 = (String.length (join lines) + String.length eol)%nat).
  { unfold x2. rewrite (index_skip eol x1 body) by done.
    change (index x1) with (index y1). by rewrite Hi1. }
  assert (Hrun : run Header.split_re x0 Some = Some z).
  { unfold Header.split_re. rewrite run_cat, run_line_start by done.
    rewrite run_cat, run_group, run_star.
    apply (rounds_lines lines x0 (eol +:+ body)); [done|done|by apply eol_not_dot| |].
    { cbn [x0 rest]. unfold message. rewrite string_length_app.
      pose proof (length_join lines Hlines). lia. }
    fold y1. fold x1. rewrite run_group, run_cat.
    apply (newline_greedy eol x1 body); [done|done|]. fold x2.
    rewrite run_star. apply rounds_body; [lia|by rewrite Hx2|done]. }
  assert (Hg1 : captures z !! 1%nat = Some (join lines)).
  { unfold z. cbn [capture captures]. rewrite lookup_insert_ne by done.
    rewrite captures_skip. unfold x2. rewrite captures_skip.
    cbn [x1 capture captures]. rewrite lookup_insert_eq. f_equal.
    rewrite Hi1. cbn [x0 index rest]. rewrite Nat.sub_0_r. apply substring_prefix. }
  assert (Hg2 : captures z !! 2%nat = Some (eol +:+ body)).
  { unfold z. cbn [capture captures]. rewrite lookup_insert_eq. f_equal.
    rewrite (index_skip (rest x2) x2 EmptyString) by by rewrite string_app_nil_r.
    rewrite Hi2, Hx2. cbn [x1 capture index rest]. rewrite Hi1, Hy1.
    replace (String.length (join lines) + String.length eol + String.length body
             - String.length (join lines))%nat
      with (String.length (eol +:+ body)) by (rewrite string_length_app; lia).
    rewrite <- (string_app_nil_r (eol +:+ body)) at 2. apply substring_prefix. }
  unfold Header.split_message, exec.
  assert (exec_from Header.split_re None message 0
          = Some {| start := 0; stop := index z; groups := captures z |}) as ->.
  { destruct message; cbn [exec_from]; fold x0; by rewrite Hrun. }
  cbn [group groups]. rewrite Hg1, Hg2. cbn [JS.to_string JS.truthy].
  assert (JS.truthy_string (join lines) = true) as ->.
  { destruct lines as [|line lines']; [done|]. apply Forall_cons in Hlines as [(H1 & _) _].
    cbn [join]. by destruct (line.1). }
  assert (JS.truthy_string (eol +:+ body) = true) as ->; [|done].
  by destruct Heol as [->| ->].
Qed.

End GreedyFacts.

(** ** Claims about the header rules *)

Section HeaderClaims.
(** C4 (the code departs from the claim): the text after the last
    white-space character of a message is in neither [header] nor [body],
    so the two together are not the message. *)
Theorem split_loses_unterminated_tail :
  Header.split_message unterminated_message
  = ("Subject: Hello" +:+ LF, LF +:+ "Hi." +:+ LF)
  ∧ (Header.split_message unterminated_message).1
    +:+ (Header.split_message unterminated_message).2
    ≠ unterminated_message.
Proof. split; vm_compute; congruence. Qed.

(** Two more cases the split misses: a message that starts with an
    empty line is taken whole as [header] and again as [body], and a
    message of header lines that end in CR LF, with no empty line, gets
    a [body] of one line feed. *)
Lemma split_other_slips :
  Header.split_message (LF +:+ "Hi." +:+ LF) = (LF +:+ "Hi." +:+ LF, LF +:+ "Hi." +:+ LF)
  ∧ Header.split_message ("Subject: Hello" +:+ String "013" LF)
    = ("Subject: Hello" +:+ String "013" LF, LF).
Proof. split; vm_compute; reflexivity. Qed.

(** The message of scenario 3 is two header lines, an empty line and a
    body that ends with a line feed: its split gives it back. *)
Example split_jane_message :
  Header.split_message jane_message
  = ("From: Jane <jane@example.com>" +:+ LF +:+ "Subject: Hello" +:+ LF,
     LF +:+ "Hi." +:+ LF).
Proof.
  apply (split_message_lines
           [("From: Jane <jane@example.com>", LF); ("Subject: Hello", LF)]
           LF ("Hi." +:+ LF)).
  - done.
  - repeat constructor; done.
  - by left.
  - reflexivity.
Qed.

(** C5 (the code departs from the claim): of a [Message-ID] header folded
    over two lines only the first line is deleted, the continuation line
    stays in the header; a [DKIM-Signature] header is deleted with its
    continuation lines. *)
Theorem folded_message_id_keeps_continuation :
  Header.rewrite_header (plain_config ∅) None folded_message_id
  = " <abc@mail.example.com>" +:+ LF +:+ "Subject: Hello" +:+ LF
  ∧ Header.rewrite_header (plain_config ∅) None folded_dkim = "Subject: Hello" +:+ LF.
Proof. split; vm_compute; reflexivity. Qed.

(** Header names are matched in any letter case, and a header on one
    line is deleted whole. *)
Lemma one_line_headers_deleted :
  Header.rewrite_header (plain_config ∅) None
    ("RETURN-PATH: <a@b.c>" +:+ LF +:+ "sender: x@y.z" +:+ LF +:+
     "Message-Id: <1@b.c>" +:+ LF +:+ "Subject: Hello" +:+ LF)
  = "Subject: Hello" +:+ LF.
Proof. vm_compute. reflexivity. Qed.

End HeaderClaims.

(** ** More on the resolver and the pipeline *)

Section ResolverMore.
Import Resolver ResolverSpec.

Lemma loop_body_key cfg set a b :
  origEmailKey cfg a = origEmailKey cfg b → loop_body cfg set a = loop_body cfg set b.
Proof. unfold loop_body. by intros ->. Qed.

Lemma loop_keys cfg rs : ∀ rs' set,
  Forall2 (λ a b, origEmailKey cfg a = origEmailKey cfg b) rs rs' →
  loop cfg set rs = loop cfg set rs'.
Proof.
  induction rs as [|a rs IH]; intros rs' set Hrs; inversion Hrs as [|? b ? rs'' Hab Hrest]; subst;
    [reflexivity|].
  cbn [loop]. rewrite (loop_body_key cfg set a b Hab).
  destruct (loop_body cfg set b); [by apply IH|reflexivity].
Qed.

Lemma lower_unit_idemp c : JS.lower_unit (JS.lower_unit c) = JS.lower_unit c.
Proof. destruct c as [[] [] [] [] [] [] [] []]; vm_compute; reflexivity. Qed.

Lemma toLowerCase_idemp s : JS.toLowerCase (JS.toLowerCase s) = JS.toLowerCase s.
Proof.
  induction s as [|c s IH]; [reflexivity|]. cbn [JS.toLowerCase].
  by rewrite lower_unit_idemp, IH.
Qed.

(** X1: the letter case of a recipient address is of no account: the
    resolver answers for the lower-cased recipients as for the recipients
    themselves (line 96 lowers each address before any lookup). *)
Theorem resolve_ignores_case cfg originalRecipients :
  resolve cfg (map JS.toLowerCase originalRecipients) = resolve cfg originalRecipients.
Proof.
  unfold resolve. apply loop_keys.
  induction originalRecipients as [|a rs IH]; constructor; [|exact IH].
  unfold origEmailKey. by rewrite toLowerCase_idemp.
Qed.

Lemma origEmailKey_no_plus cfg user :
  (∀ c, In c (list_ascii_of_string user) → c ≠ "+"%char) →
  origEmailKey cfg user = JS.toLowerCase user.
Proof.
  intros Huser. unfold origEmailKey. destruct (allowPlusSign cfg); [|reflexivity].
  rewrite split_none; [reflexivity|].
  intros c Hc ->. revert Hc. clear -Huser.
  induction user as [|d user IH]; simpl; [tauto|].
  intros [Hd|Hc].
  - apply lower_unit_plus in Hd. apply (Huser d); [by left|done].
  - apply IH; [|done]. intros e He. apply Huser. by right.
Qed.

(** X2: with [allowPlusSign] on, a recipient [user+tag@domain] is resolved
    as the recipient [user] would be, a bare mailbox name without domain,
    wherever it stands in the recipient list: the tag and the domain play
    no part. *)
Theorem plus_address_is_mailbox cfg before after user tag domain :
  allowPlusSign cfg = true →
  (∀ c, In c (list_ascii_of_string user) → c ≠ "+"%char) →
  resolve cfg (before ++ (user +:+ String "+" (tag +:+ String "@" domain)) :: after)%list
  = resolve cfg (before ++ user :: after)%list.
Proof.
  intros Hplus Huser. unfold resolve. apply loop_keys.
  apply Forall2_app; [by apply Forall_Forall2_diag, Forall_true|].
  constructor; [|by apply Forall_Forall2_diag, Forall_true].
  by rewrite origEmailKey_plus, origEmailKey_no_plus.
Qed.

Lemma plus_address_is_mailbox_witness :
  resolve defaultConfig ["abuse@example.com"; "info+test@example.com"]
  = resolve defaultConfig ["abuse@example.com"; "info"].
Proof.
  apply (plus_address_is_mailbox defaultConfig ["abuse@example.com"] [] "info" "test"
           "example.com").
  - reflexivity.
  - intros c Hc. cbn in Hc. repeat destruct Hc as [<-|Hc]; done.
Defined.

(** X3: the result depends only on which addresses are among the
    recipients: for two recipient lists with the same members, in any
    order and with any repetitions, the resolver throws a type error for
    both or returns two lists that are permutations of each other.  The
    line at which it throws, and so the error, may change with the
    order. *)
Theorem resolve_same_recipients cfg rs rs' :
  (∀ r, r ∈ rs ↔ r ∈ rs') →
  match resolve cfg rs, resolve cfg rs' with
  | Ok new, Ok new' => new ≡ₚ new'
  | Throw e, Throw e' => ∃ line line', e = TypeError line ∧ e' = TypeError line'
  | _, _ => False
  end.
Proof.
  intros Hsame. rewrite !resolve_first_occurrences.
  assert (existsb (hits_prototype cfg) rs = existsb (hits_prototype cfg) rs') as <-.
  { apply eq_true_iff_eq. rewrite !existsb_exists.
    split; intros (r & Hr & Hp); exists r; (split; [|done]);
      apply list_elem_of_In, Hsame; by apply list_elem_of_In. }
  destruct (existsb _ _); [by eexists _, _|].
  apply NoDup_Permutation; [apply NoDup_first_occurrences..|].
  intros x. rewrite !elem_of_first_occurrences, !list_elem_of_In, !in_flat_map.
  split; intros (r & Hr & Hx); exists r; (split; [|done]);
    apply list_elem_of_In, Hsame; by apply list_elem_of_In.
Qed.

Lemma resolve_same_recipients_witness :
  match resolve overlapping_config ["a@example.com"; "b@example.com"],
        resolve overlapping_config ["b@example.com"; "a@example.com"; "b@example.com"] with
  | Ok new, Ok new' => new ≡ₚ new'
  | Throw e, Throw e' => ∃ line line', e = TypeError line ∧ e' = TypeError line'
  | _, _ => False
  end.
Proof.
  apply (resolve_same_recipients overlapping_config
           ["a@example.com"; "b@example.com"]
           ["b@example.com"; "a@example.com"; "b@example.com"]).
  intros r. rewrite !elem_of_cons, elem_of_nil. tauto.
Defined.

(** Two lists with the same members that throw at different lines: at
    line 101 when the recipient with the plus sign, whose key is
    [constructor], comes first, at line 110 when the other does. *)
Example throw_line_follows_order :
  resolve (plain_config ∅) ["constructor+x@example.org"; "constructor@example.org"]
  = Throw (TypeError 101)
  ∧ resolve (plain_config ∅) ["constructor@example.org"; "constructor+x@example.org"]
    = Throw (TypeError 110).
Proof. split; vm_compute; reflexivity. Qed.

Lemma lowered_split sep s :
  JS.toLowerCase s = s → Forall (λ seg, JS.toLowerCase seg = seg) (JS.split sep s).
Proof.
  induction s as [|c s IH]; intros Hs; [by repeat constructor|].
  cbn [JS.toLowerCase] in Hs. injection Hs as Hc Hs. specialize (IH Hs).
  cbn [JS.split]. destruct (Ascii.eqb c sep); [by constructor|].
  destruct (JS.split sep s) as [|h t]; [by repeat constructor; cbn; rewrite Hc|].
  apply Forall_cons in IH as [Hh Ht]. constructor; [|done].
  cbn [JS.toLowerCase]. by rewrite Hc, Hh.
Qed.

Lemma lowered_key cfg a : JS.toLowerCase (origEmailKey cfg a) = origEmailKey cfg a.
Proof.
  unfold origEmailKey. destruct (allowPlusSign cfg); [|apply toLowerCase_idemp].
  pose proof (lowered_split "+" _ (toLowerCase_idemp a)) as Hsplit.
  destruct (JS.split "+" (JS.toLowerCase a)); [reflexivity|].
  by apply Forall_cons in Hsplit as [? _].
Qed.

Lemma lowered_tiers key :
  JS.toLowerCase key = key → Forall (λ k, JS.toLowerCase k = k) (tiers key).
Proof.
  intros Hkey. pose proof (lowered_split "@" key Hkey) as Hsplit.
  unfold tiers, origEmailDomain, origEmailUser.
  constructor; [done|]. apply Forall_app. split; [|apply Forall_app; split].
  - destruct (JS.split "@" key !! 1%nat) as [d|] eqn:Hd; [|by constructor].
    cbn [JS.truthy JS.to_string]. destruct (JS.truthy_string d); constructor; [|done].
    rewrite Forall_lookup in Hsplit. specialize (Hsplit _ _ Hd).
    change ("@" +:+ d) with (String "@" d). cbn [JS.toLowerCase]. by rewrite Hsplit.
  - destruct (JS.split "@" key !! 0%nat) as [u|] eqn:Hu; [|by constructor].
    cbn [JS.truthy JS.to_string]. destruct (JS.truthy_string u); constructor; [|done].
    rewrite Forall_lookup in Hsplit. by apply (Hsplit _ _ Hu).
  - by repeat constructor.
Qed.

Lemma find_agree {A} (f g : A → bool) l :
  Forall (λ x, f x = g x) l → List.find f l = List.find g l.
Proof.
  induction 1 as [|x l Hx _ IH]; [reflexivity|]. cbn [List.find]. by rewrite Hx, IH.
Qed.

Lemma loop_body_mapping cfg fm set a :
  (∀ k, JS.toLowerCase k = k → fm !! k = forwardMapping cfg !! k) →
  loop_body (with_mapping cfg fm) set a = loop_body cfg set a.
Proof.
  intros Hfm.
  pose proof (lowered_tiers _ (lowered_key cfg a)) as Htiers.
  assert (Hget : Forall (λ k, get fm k = get (forwardMapping cfg) k)
                   (tiers (origEmailKey cfg a))).
  { eapply Forall_impl; [exact Htiers|]. intros k Hk. unfold get. by rewrite Hfm. }
  unfold loop_body.
  change (origEmailKey (with_mapping cfg fm) a) with (origEmailKey cfg a).
  change (forwardMapping (with_mapping cfg fm)) with fm.
  unfold tiers in Hget. set (key := origEmailKey cfg a) in *.
  apply Forall_cons in Hget as [Hkey Hget]. apply Forall_app in Hget as [Hd Hget].
  apply Forall_app in Hget as [Hu Hat]. apply Forall_cons in Hat as [Hat _].
  cbv zeta. rewrite Hkey, Hat.
  destruct (JS.truthy (origEmailDomain key));
    [apply Forall_cons in Hd as [Hd _]; rewrite Hd|];
    (destruct (JS.truthy (origEmailUser key));
       [apply Forall_cons in Hu as [Hu _]; rewrite Hu|]); reflexivity.
Qed.

(** X4: only keys that are their own lower case are ever looked up: two
    mappings that agree on those keys resolve every recipient list alike,
    so a key written with a capital letter is dead. *)
Theorem only_lower_case_keys_matter cfg fm originalRecipients :
  (∀ k, JS.toLowerCase k = k → fm !! k = forwardMapping cfg !! k) →
  resolve (with_mapping cfg fm) originalRecipients = resolve cfg originalRecipients.
Proof.
  intros Hfm. unfold resolve. generalize (@nil string).
  induction originalRecipients as [|a rs IH]; intros set; [reflexivity|].
  cbn [loop]. rewrite loop_body_mapping by done.
  destruct (loop_body cfg set a); [apply IH|reflexivity].
Qed.

Lemma only_lower_case_keys_matter_witness :
  resolve (with_mapping info_config
             (<["Info@Example.com" := ["z@x.com"]]> (forwardMapping info_config)))
    ["Info@Example.com"]
  = resolve info_config ["Info@Example.com"].
Proof.
  apply (only_lower_case_keys_matter info_config
           (<["Info@Example.com" := ["z@x.com"]]> (forwardMapping info_config))
           ["Info@Example.com"]).
  intros k Hk. apply lookup_insert_ne. intros <-. vm_compute in Hk. discriminate.
Defined.

Lemma at_sign_not_inherited k :
  In "@"%char (list_ascii_of_string k) → get ∅ k = Undefined.
Proof.
  intros Hk. unfold get. rewrite lookup_empty.
  rewrite bool_decide_eq_false_2; [done|].
  unfold object_prototype_names. rewrite !elem_of_cons, elem_of_nil.
  intros Hin. repeat destruct Hin as [->|Hin]; try done;
    cbn in Hk; repeat destruct Hk as [Hk|Hk]; done.
Qed.

Lemma get_none fm k : fm !! k = None → get fm k = get ∅ k.
Proof. unfold get. intros ->. by rewrite lookup_empty. Qed.

Lemma in_app_string c (a b : string) :
  In c (list_ascii_of_string (a +:+ b))
  ↔ In c (list_ascii_of_string a) ∨ In c (list_ascii_of_string b).
Proof.
  induction a as [|d a IH]; [cbn; tauto|].
  change (String d a +:+ b) with (String d (a +:+ b)). cbn [list_ascii_of_string In].
  rewrite IH. tauto.
Qed.

(** The first answered tier of a recipient [name@domain], where [name] is
    a property every object inherits and the mapping has neither the
    address, nor its domain, nor [name] as a key. *)
Lemma inherited_name_hit cfg name domain :
  name = "constructor" ∨ name = "__proto__" →
  domain ≠ EmptyString → JS.toLowerCase domain = domain →
  (∀ c, In c (list_ascii_of_string domain) → c ≠ "@"%char ∧ c ≠ "+"%char) →
  forwardMapping cfg !! (name +:+ String "@" domain) = None →
  forwardMapping cfg !! String "@" domain = None →
  forwardMapping cfg !! name = None →
  hits_prototype cfg (name +:+ String "@" domain) = true
  ∧ answered_line cfg (name +:+ String "@" domain) = 110%nat.
Proof.
  intros Hname Hne Hlow Hdomain Hexact Hwild Hmailbox.
  assert (Hkey : origEmailKey cfg (name +:+ String "@" domain) = name +:+ String "@" domain).
  { rewrite origEmailKey_no_plus.
    - rewrite toLowerCase_app. cbn [JS.toLowerCase]. rewrite Hlow.
      by destruct Hname as [->| ->].
    - intros c [Hc|[<-|Hc]]%in_app_string; [|done|by apply Hdomain].
      intros ->. destruct Hname as [->| ->]; cbn in Hc; repeat destruct Hc as [Hc|Hc]; done. }
  assert (Huser : ∀ c, In c (list_ascii_of_string name) → c ≠ "@"%char).
  { intros c Hc ->.
    destruct Hname as [->| ->]; cbn in Hc; repeat destruct Hc as [Hc|Hc]; done. }
  assert (Hdom : ∀ c, In c (list_ascii_of_string domain) → c ≠ "@"%char).
  { intros c Hc. by apply Hdomain. }
  assert (Hnamed : name ≠ EmptyString) by by destruct Hname as [->| ->].
  assert (Hget1 : get (forwardMapping cfg) (name +:+ String "@" domain) = Undefined).
  { rewrite (get_none _ _ Hexact). apply at_sign_not_inherited, in_app_string.
    right. by left. }
  assert (Hget2 : get (forwardMapping cfg) (String "@" domain) = Undefined).
  { rewrite (get_none _ _ Hwild). apply at_sign_not_inherited. by left. }
  assert (Hget3 : get (forwardMapping cfg) name = Inherited).
  { rewrite (get_none _ _ Hmailbox). by destruct Hname as [->| ->]. }
  split.
  - unfold hits_prototype, first_match. rewrite Hkey.
    rewrite tiers_of_address by done. cbn [List.find].
    rewrite Hget1, Hget2, Hget3. cbn [matches]. by rewrite Hget3.
  - unfold answered_line. rewrite Hkey, Hget1. cbn [matches].
    unfold origEmailDomain, origEmailUser.
    rewrite split_at_first, (split_none _ domain) by done.
    cbn [lookup list_lookup JS.truthy JS.to_string].
    change ("@" +:+ domain) with (String "@" domain). rewrite Hget2, Hget3.
    destruct domain; [done|]. by destruct name.
Qed.

(** Where the precedence of the tiers holds: for an address [user@domain]
    in lower case, without a plus sign, whose mailbox name is not a
    property that objects inherit, the loop body adds the list under the
    first of the keys [user@domain], [@domain], [user] and [@] that the
    mapping has, and nothing when it has none of them. *)
Lemma own_key_precedence cfg set user domain :
  user ≠ EmptyString → domain ≠ EmptyString →
  JS.toLowerCase user = user → JS.toLowerCase domain = domain →
  (∀ c, In c (list_ascii_of_string user) → c ≠ "@"%char ∧ c ≠ "+"%char) →
  (∀ c, In c (list_ascii_of_string domain) → c ≠ "@"%char ∧ c ≠ "+"%char) →
  user ∉ object_prototype_names →
  loop_body cfg set (user +:+ String "@" domain)
  = Ok (fold_left JS.set_add
          (default [] (own_match (forwardMapping cfg) user domain)) set).
Proof.
  intros Hu Hd Hlu Hld Huser Hdomain Hown.
  assert (Hkey : origEmailKey cfg (user +:+ String "@" domain) = user +:+ String "@" domain).
  { rewrite origEmailKey_no_plus.
    - rewrite toLowerCase_app. cbn [JS.toLowerCase]. by rewrite Hlu, Hld.
    - intros c [Hc|[<-|Hc]]%in_app_string; [by apply Huser|done|by apply Hdomain]. }
  rewrite loop_body_first_match. unfold first_match. rewrite Hkey.
  rewrite tiers_of_address; [|done|done|intros c Hc; by apply Huser
                             |intros c Hc; by apply Hdomain].
  unfold own_match. cbn [List.find].
  destruct (forwardMapping cfg !! (user +:+ String "@" domain)) as [l|] eqn:H1.
  { unfold get at 1. rewrite H1. cbn [matches]. unfold get. by rewrite H1. }
  rewrite (get_none _ _ H1), at_sign_not_inherited
    by (apply in_app_string; right; by left). cbn [matches].
  destruct (forwardMapping cfg !! String "@" domain) as [l|] eqn:H2.
  { unfold get at 1. rewrite H2. cbn [matches]. unfold get. by rewrite H2. }
  rewrite (get_none _ _ H2), at_sign_not_inherited by by left. cbn [matches].
  destruct (forwardMapping cfg !! user) as [l|] eqn:H3.
  { unfold get at 1. rewrite H3. cbn [matches]. unfold get. by rewrite H3. }
  assert (get (forwardMapping cfg) user = Undefined) as ->.
  { unfold get. by rewrite H3, bool_decide_eq_false_2. }
  cbn [matches].
  destruct (forwardMapping cfg !! "@") as [l|] eqn:H4.
  { unfold get at 1. rewrite H4. cbn [matches]. unfold get. by rewrite H4. }
  assert (get (forwardMapping cfg) "@" = Undefined) as ->; [|done].
  unfold get. by rewrite H4.
Qed.

(** X5: a recipient [constructor@domain] or [__proto__@domain] makes the
    resolver throw a type error when the mapping has no key for the
    address, for its domain or for the name: the mailbox tier reads the
    property every object inherits, which is truthy and has no
    [forEach].  Alone, the recipient makes it throw at line 110, the
    [forEach] call of the mailbox tier. *)
Theorem inherited_name_throws cfg originalRecipients name domain :
  name = "constructor" ∨ name = "__proto__" →
  domain ≠ EmptyString → JS.toLowerCase domain = domain →
  (∀ c, In c (list_ascii_of_string domain) → c ≠ "@"%char ∧ c ≠ "+"%char) →
  forwardMapping cfg !! (name +:+ String "@" domain) = None →
  forwardMapping cfg !! String "@" domain = None →
  forwardMapping cfg !! name = None →
  name +:+ String "@" domain ∈ originalRecipients →
  (∃ line, resolve cfg originalRecipients = Throw (TypeError line))
  ∧ resolve cfg [name +:+ String "@" domain] = Throw (TypeError 110).
Proof.
  intros Hname Hne Hlow Hdomain Hexact Hwild Hmailbox Hin.
  destruct (inherited_name_hit cfg name domain) as [Hhit Hline]; [done..|].
  rewrite !resolve_first_occurrences. split.
  - assert (existsb (hits_prototype cfg) originalRecipients = true) as ->; [|by eexists].
    apply existsb_exists. exists (name +:+ String "@" domain).
    split; [by apply list_elem_of_In|done].
  - unfold throw_line. cbn [existsb List.find]. by rewrite Hhit, Hline.
Qed.

Lemma inherited_name_throws_witness :
  (∃ line, resolve (plain_config (<["@" := ["all@x.com"]]> ∅))
             ["info@example.com"; "constructor@example.com"]
           = Throw (TypeError line))
  ∧ resolve (plain_config (<["@" := ["all@x.com"]]> ∅)) ["constructor@example.com"]
    = Throw (TypeError 110).
Proof.
  apply (inherited_name_throws (plain_config (<["@" := ["all@x.com"]]> ∅))
           ["info@example.com"; "constructor@example.com"] "constructor" "example.com").
  - by left.
  - done.
  - reflexivity.
  - intros c Hc. cbn in Hc. repeat destruct Hc as [<-|Hc]; done.
  - reflexivity.
  - reflexivity.
  - reflexivity.
  - apply list_elem_of_In. cbn. tauto.
Defined.

(** X6: the destinations are those of the mapping and no other: every
    address returned is listed by the mapping under a key that is a tier
    of some recipient, and nothing that a recipient contributes, the list
    under its first answered tier, is missing from the result. *)
Theorem destinations_are_the_mapped_ones cfg originalRecipients new :
  resolve cfg originalRecipients = Ok new →
  (∀ x, x ∈ new →
     ∃ r k dests, r ∈ originalRecipients ∧ k ∈ tiers (origEmailKey cfg r)
                  ∧ forwardMapping cfg !! k = Some dests ∧ x ∈ dests)
  ∧ (∀ r x, r ∈ originalRecipients → x ∈ contribution cfg r → x ∈ new).
Proof.
  rewrite resolve_first_occurrences. destruct (existsb _ _); [done|]. intros [= <-].
  split.
  - intros x Hx. apply elem_of_first_occurrences, list_elem_of_In, in_flat_map in Hx
      as (r & Hr & Hx).
    exists r. unfold contribution in Hx.
    destruct (first_match _ _) as [k|] eqn:Hk; [|by destruct Hx].
    apply List.find_some in Hk as [Hk _]. unfold get in Hx.
    destruct (forwardMapping cfg !! k) as [dests|] eqn:Hget.
    + exists k, dests. by rewrite !list_elem_of_In.
    + by destruct (bool_decide _).
  - intros r x Hr Hx. apply elem_of_first_occurrences, list_elem_of_In, in_flat_map.
    exists r. by rewrite <- !list_elem_of_In.
Qed.

Lemma destinations_are_the_mapped_ones_witness :
  (∀ x, x ∈ ["example.john@example.com"; "example.jim@example.com"] →
     ∃ r k dests, r ∈ ["sales@example.com"; "abuse@example.com"]
                  ∧ k ∈ tiers (origEmailKey defaultConfig r)
                  ∧ forwardMapping defaultConfig !! k = Some dests ∧ x ∈ dests)
  ∧ (∀ r x, r ∈ ["sales@example.com"; "abuse@example.com"] →
       x ∈ contribution defaultConfig r →
       x ∈ ["example.john@example.com"; "example.jim@example.com"]).
Proof.
  apply (destinations_are_the_mapped_ones defaultConfig
           ["sales@example.com"; "abuse@example.com"]
           ["example.john@example.com"; "example.jim@example.com"]).
  vm_compute. reflexivity.
Defined.

End ResolverMore.

Section PipelineMore.
Import Resolver ResolverSpec.

(** X7: the object the handler reads is the one the event names: every
    read is made at the configured bucket, with the configured key prefix
    followed by the message id of the event's record as key. *)
Theorem handler_reads_the_event_message world event cfg :
  let config := default defaultConfig cfg in
  Forall (λ c, match c with
               | GetObject Bucket Key =>
                   Bucket = emailBucket config
                   ∧ ∃ record se m,
                       expected_shape event record ∧ ses record = Some se
                       ∧ mail se = Some m
                       ∧ Key = emailKeyPrefix config +:+ messageId m
               | SendRawEmail _ _ _ => True
               end)
         (handler world event (with_config cfg)).2.
Proof.
  intros config. pose proof (handler_ends world event cfg) as Hends.
  fold config in Hends. clearbody config.
  destruct Hends; cbn [snd]; repeat constructor; eauto 10.
Qed.

(** X8: when the resolver throws, the handler reports that error and has
    made no call: nothing is read from the bucket and nothing is sent, for
    any of the recipients. *)
Theorem resolver_failure_stops_handler world event cfg record se rc e :
  expected_shape event record → ses record = Some se → receipt se = Some rc →
  resolve (default defaultConfig cfg) (recipients rc) = Throw e →
  handler world event (with_config cfg) = (Failure e, []).
Proof.
  intros Hex Hse Hrc He. destruct Hex as (ev & -> & Hr & Hsrc & Hver).
  rewrite handler_run, Hr, Hse, Hrc, He. by rewrite !bool_decide_eq_true_2.
Qed.

Lemma resolver_failure_stops_handler_witness :
  handler (store jane_message)
    (ses_event "m1" ["info@example.com"; "constructor@example.com"])
    (with_config (Some info_config))
  = (Failure (TypeError 110), []).
Proof.
  apply (resolver_failure_stops_handler (store jane_message)
           (ses_event "m1" ["info@example.com"; "constructor@example.com"])
           (Some info_config)
           {| eventSource := Some "aws:ses"; eventVersion := Some "1.0";
              ses := Some {| mail := Some {| messageId := "m1" |};
                             receipt := Some {| recipients :=
                               ["info@example.com"; "constructor@example.com"] |} |} |}
           {| mail := Some {| messageId := "m1" |};
              receipt := Some {| recipients :=
                ["info@example.com"; "constructor@example.com"] |} |}
           {| recipients := ["info@example.com"; "constructor@example.com"] |}).
  - eexists. repeat split; reflexivity.
  - reflexivity.
  - reflexivity.
  - vm_compute. reflexivity.
Defined.

End PipelineMore.

(** ** The header rules, line by line *)

Section Scanning.
Import Regex Greedy Lines.

Lemma literal_i_hit name : ∀ x k,
  prefix_i name (rest x) = true →
  run (literal_i name) x k = k (skip (String.length name) x).
Proof.
  induction name as [|c name IH]; intros x k Hp; [reflexivity|].
  cbn [literal_i]. rewrite run_cat.
  destruct (rest x) as [|d s] eqn:Hx; [done|]. cbn [prefix_i] in Hp.
  apply andb_true_iff in Hp as [Hc Hp].
  rewrite (unit_next _ x _ d s) by done.
  rewrite IH by by rewrite (rest_next x d s). done.
Qed.

Lemma literal_i_miss name : ∀ x k,
  prefix_i name (rest x) = false → run (literal_i name) x k = None.
Proof.
  induction name as [|c name IH]; intros x k Hp; [done|].
  cbn [literal_i]. rewrite run_cat.
  destruct (rest x) as [|d s] eqn:Hx.
  - rewrite unit_fails; [done|by rewrite Hx].
  - cbn [prefix_i] in Hp. destruct (is_i c d) eqn:Hc.
    + rewrite (unit_next _ x _ d s) by done.
      apply IH. by rewrite (rest_next x d s).
    + rewrite unit_fails; [done|by rewrite Hx].
Qed.

Lemma line_start_miss x k :
  at_line_start (before x) = false → run LineStart x k = None.
Proof. cbn. destruct (before x); [|done]. cbn. by intros ->. Qed.

Lemma line_start_hit x k :
  at_line_start (before x) = true → run LineStart x k = k x.
Proof. cbn. destruct (before x); [|done]. cbn. by intros ->. Qed.

(** A pattern that starts with [^] and a name fails where the name does
    not stand at a line start. *)
Lemma anchored_miss name R x k :
  at_line_start (before x) && prefix_i name (rest x) = false →
  run (LineStart · literal_i name · R) x k = None.
Proof.
  intros H. rewrite run_cat. destruct (at_line_start (before x)) eqn:Hs.
  - rewrite line_start_hit, run_cat by done. by apply literal_i_miss.
  - by apply line_start_miss.
Qed.

Lemma final_app prev a b : final prev (a +:+ b) = final (final prev a) b.
Proof.
  revert prev. induction a as [|c a IH]; intros prev; [reflexivity|].
  rewrite app_String. cbn [final]. apply IH.
Qed.

(** The search goes over a silent stretch of text without stopping. *)
Lemma exec_from_silent name R a : ∀ prev follow i,
  silent name prev a follow = true →
  exec_from (LineStart · literal_i name · R) prev (a +:+ follow) i
  = exec_from (LineStart · literal_i name · R) (final prev a) follow (i + String.length a).
Proof.
  induction a as [|c a IH]; intros prev follow i Hs.
  - cbn [String.length final]. by rewrite Nat.add_0_r.
  - cbn [silent] in Hs. apply andb_true_iff in Hs as [Hhere Hs].
    apply negb_true_iff in Hhere.
    rewrite app_String. cbn [exec_from].
    rewrite anchored_miss by done.
    rewrite IH by done. cbn [final String.length]. f_equal. lia.
Qed.

End Scanning.

Section Replacing.
Import Regex Greedy Lines.

Lemma substring_0_app (a s : string) n :
  substring 0 (String.length a + n) (a +:+ s) = a +:+ substring 0 n s.
Proof. induction a as [|c a IH]; [done|]. rewrite !app_String. cbn. by rewrite IH. Qed.

Lemma substring_skip_app (a s : string) n m :
  substring (String.length a + n) m (a +:+ s) = substring n m s.
Proof. induction a as [|c a IH]; [done|]. rewrite app_String. cbn. by rewrite IH. Qed.

Lemma advance_app (a : string) : ∀ prev s n,
  advance (String.length a + n) prev (a +:+ s) = advance n (final prev a) s.
Proof.
  induction a as [|c a IH]; intros prev s n; [done|].
  rewrite app_String. cbn. apply IH.
Qed.

Lemma replace_from_silent name R f a n prev follow i :
  silent name prev a follow = true →
  replace_from n (LineStart · literal_i name · R) f prev (a +:+ follow) i
  = a +:+ replace_from n (LineStart · literal_i name · R) f (final prev a) follow
            (i + String.length a).
Proof.
  intros Hs. destruct n as [|n]; [done|]. cbn [replace_from].
  rewrite (exec_from_silent name R a) by done.
  destruct (exec_from _ (final prev a) follow _) as [m|] eqn:He; [|done].
  apply exec_from_bounds in He as (H1 & H2 & H3).
  replace (start m - i)%nat with (String.length a + (start m - (i + String.length a)))%nat by lia.
  replace (stop m - i)%nat with (String.length a + (stop m - (i + String.length a)))%nat by lia.
  rewrite substring_0_app, substring_skip_app, advance_app.
  destruct (advance _ (final prev a) follow) as [prev' after].
  destruct (stop m =? start m)%nat.
  - destruct after; by rewrite !string_app_assoc.
  - by rewrite !string_app_assoc.
Qed.

Lemma replace_from_hit n r f prev (m s : string) i mt :
  exec_from r prev (m +:+ s) i = Some mt →
  start mt = i → stop mt = (i + String.length m)%nat → m ≠ EmptyString →
  replace_from (S n) r f prev (m +:+ s) i
  = f m (groups mt) +:+ replace_from n r f (final prev m) s (i + String.length m).
Proof.
  intros He Hstart Hstop Hm. cbn [replace_from]. rewrite He, Hstart, Hstop.
  replace (i - i)%nat with 0%nat by lia.
  replace (i + String.length m - i)%nat with (String.length m) by lia.
  rewrite substring_prefix.
  replace (String.length m) with (String.length m + 0)%nat at 1 by lia.
  rewrite advance_app. cbn [advance].
  assert ((i + String.length m =? i)%nat = false) as ->.
  { apply Nat.eqb_neq. destruct m; [done|]. cbn [String.length]. lia. }
  assert (substring 0 0 (m +:+ s) = EmptyString) as -> by by destruct (m +:+ s).
  done.
Qed.

End Replacing.

Section LineFacts.
Import Regex Greedy Lines.

Lemma rest_skip_n n : ∀ x, rest (skip n x) = drop_units n (rest x).
Proof.
  induction n as [|n IH]; intros x; [reflexivity|].
  cbn [skip]. rewrite IH. unfold next.
  destruct (rest x) as [|c s] eqn:Hx; [|done]. rewrite Hx. by destruct n.
Qed.

Lemma index_skip_n n : ∀ x,
  (n ≤ String.length (rest x))%nat → index (skip n x) = (index x + n)%nat.
Proof.
  induction n as [|n IH]; intros x Hn; [cbn; lia|].
  cbn [skip]. destruct (rest x) as [|c s] eqn:Hx; [cbn in Hn; lia|].
  rewrite IH; rewrite ?(rest_next x c s), ?(index_next x c s) by done;
    cbn [String.length] in Hn; lia.
Qed.

Lemma drop_units_app n : ∀ a b : string,
  (n ≤ String.length a)%nat → drop_units n (a +:+ b) = drop_units n a +:+ b.
Proof.
  induction n as [|n IH]; intros a b Hn; [by destruct a, b|].
  destruct a as [|c a]; [cbn in Hn; lia|]. rewrite app_String. cbn [drop_units].
  apply IH. cbn in Hn. lia.
Qed.

Lemma length_drop_units n : ∀ s,
  String.length (drop_units n s) = (String.length s - n)%nat.
Proof.
  induction n as [|n IH]; intros s; [destruct s; cbn; lia|].
  destruct s as [|c s]; [done|]. cbn. apply IH.
Qed.

Lemma every_drop_units class n : ∀ s,
  every class s = true → every class (drop_units n s) = true.
Proof.
  induction n as [|n IH]; intros s Hs; [by destruct s|].
  destruct s as [|c s]; [done|]. cbn in *. apply andb_true_iff in Hs as [_ Hs]. by apply IH.
Qed.

Lemma every_app class (a b : string) :
  every class (a +:+ b) = every class a && every class b.
Proof.
  induction a as [|c a IH]; [done|]. rewrite app_String. cbn. by rewrite IH, andb_assoc.
Qed.

Lemma prefix_i_length name : ∀ s,
  prefix_i name s = true → (String.length name ≤ String.length s)%nat.
Proof.
  induction name as [|c name IH]; intros s Hp; [cbn; lia|].
  destruct s as [|d s]; [done|]. cbn in *. apply andb_true_iff in Hp as [_ Hp%IH]. lia.
Qed.

Lemma terminators d : line_terminator d = true → d = "010"%char ∨ d = "013"%char.
Proof.
  destruct d as [[] [] [] [] [] [] [] []]; vm_compute; intros H;
    first [discriminate H | by left | by right].
Qed.

Lemma is_i_terminator c d :
  dot c = true → line_terminator d = true → is_i c d = false.
Proof.
  intros Hc [-> | ->]%terminators; revert Hc;
    destruct c as [[] [] [] [] [] [] [] []]; vm_compute; done.
Qed.

Lemma eol_terminator eol : is_eol eol → ∃ d s, eol = String d s ∧ line_terminator d = true.
Proof. intros [-> | ->]; eexists _, _; by split. Qed.

(** Whether a name stands at the head of a line shows on the line's own
    text. *)
Lemma prefix_i_line name : ∀ text eol follow,
  every dot name = true → is_eol eol →
  prefix_i name (text +:+ eol +:+ follow) = prefix_i name text.
Proof.
  induction name as [|c name IH]; intros text eol follow Hname Heol; [done|].
  cbn in Hname. apply andb_true_iff in Hname as [Hc Hname].
  destruct text as [|d text].
  - destruct (eol_terminator eol Heol) as (d & s & -> & Hd).
    change (EmptyString +:+ String d s +:+ follow) with (String d (s +:+ follow)).
    cbn [prefix_i]. by rewrite is_i_terminator.
  - rewrite app_String. cbn [prefix_i]. by rewrite IH.
Qed.

Lemma gap_line tail eol follow :
  is_eol eol → gap (tail +:+ eol +:+ follow) = gap tail.
Proof.
  intros Heol. destruct tail as [|c tail]; [|done].
  by destruct Heol as [-> | ->].
Qed.

Section Past.
Variables (name text eol follow : string) (x : Point).
Hypothesis Hx : rest x = text +:+ eol +:+ follow.
Hypothesis Hname : prefix_i name text = true.
Hypothesis Heol : is_eol eol.

Lemma rest_past : rest (past name x) = value name text +:+ eol +:+ follow.
Proof.
  pose proof (prefix_i_length _ _ Hname) as Hlen.
  unfold past, value. rewrite !rest_skip_n, Hx.
  rewrite (drop_units_app _ text) by done.
  rewrite gap_line by done.
  rewrite drop_units_app; [done|].
  rewrite length_drop_units. unfold gap.
  destruct (drop_units (String.length name) text) eqn:Hd; [cbn; lia|].
  apply (f_equal String.length) in Hd. rewrite length_drop_units in Hd. cbn in Hd.
  destruct (starts _ _); lia.
Qed.

Lemma length_value :
  (String.length name + gap (drop_units (String.length name) text)
   + String.length (value name text) = String.length text)%nat.
Proof.
  pose proof (prefix_i_length _ _ Hname) as Hlen.
  unfold value. rewrite !length_drop_units. unfold gap.
  destruct (drop_units (String.length name) text) eqn:Hd; [cbn; lia|].
  apply (f_equal String.length) in Hd. rewrite length_drop_units in Hd. cbn in Hd.
  destruct (starts _ _); lia.
Qed.

Lemma index_past :
  (index (past name x) + String.length (value name text)
   = index x + String.length text)%nat.
Proof.
  pose proof (prefix_i_length _ _ Hname) as Hlen.
  pose proof length_value as Hv.
  unfold past. rewrite rest_skip_n, Hx.
  rewrite (drop_units_app _ text) by done. rewrite gap_line by done.
  rewrite !index_skip_n; [lia| |].
  - rewrite Hx, !string_length_app. lia.
  - rewrite rest_skip_n, Hx, length_drop_units, !string_length_app. lia.
Qed.

Lemma captures_past : captures (past name x) = captures x.
Proof. unfold past. by rewrite !captures_skip. Qed.

Lemma every_value class : every class text = true → every class (value name text) = true.
Proof. intros H. unfold value. by do 2 apply every_drop_units. Qed.

End Past.

Lemma opt_greedy class x k z :
  k (skip (if starts class (rest x) then 1 else 0) x) = Some z →
  run (Opt (Unit class)) x k = Some z.
Proof.
  rewrite run_opt, rounds_1. destruct (rest x) as [|c s] eqn:Hx; cbn [starts].
  - intros Hk. rewrite unit_fails by by rewrite Hx. done.
  - destruct (class c) eqn:Hc; intros Hk.
    + rewrite (unit_next class x _ c s) by done.
      rewrite (index_next x c s) by done.
      assert ((S (index x) =? index x)%nat = false) as -> by (apply Nat.eqb_neq; lia).
      cbn [skip] in Hk. by rewrite Hk.
    + rewrite unit_fails by by rewrite Hx; cbn; rewrite Hc. done.
Qed.

(** A pattern [^name[\t ]?R] at a line start where [name] stands goes on
    with [R] after the name and one tab or space. *)
Lemma name_hit name R x k z :
  at_line_start (before x) = true → prefix_i name (rest x) = true →
  run R (past name x) k = Some z →
  run (LineStart · literal_i name · Opt (Unit tab_or_space) · R) x k = Some z.
Proof.
  intros Hstart Hname Hz.
  rewrite run_cat, line_start_hit, run_cat, literal_i_hit, run_cat by done.
  by apply opt_greedy.
Qed.

Lemma newline_exact eol x s k :
  rest x = eol +:+ s → is_eol eol →
  run Header.newline x k = k (skip (String.length eol) x).
Proof.
  intros Hx [-> | ->]; unfold Header.newline, Header.CR, Header.LF;
    rewrite run_cat, run_opt, rounds_1.
  - rewrite (unit_fails (just "013") x) by by rewrite Hx.
    by rewrite (unit_next (just "010") x k "010" s).
  - rewrite (unit_next (just "013") x _ "013" (String "010" s)) by done.
    rewrite (index_next x "013" (String "010" s)) by done.
    assert ((S (index x) =? index x)%nat = false) as -> by (apply Nat.eqb_neq; lia).
    rewrite (unit_next (just "010") (next x) k "010" s);
      [|by apply (rest_next x "013")|done].
    change (skip (String.length (String "013" (String "010" EmptyString))) x)
      with (next (next x)).
    destruct (k (next (next x))); [done|].
    by rewrite (unit_fails (just "010") x) by by rewrite Hx.
Qed.

End LineFacts.

Section SilentFacts.
Import Regex Greedy Lines.

Lemma prefix_i_terminator name d s :
  is_name name → line_terminator d = true → prefix_i name (String d s) = false.
Proof.
  intros [Hne Hdot] Hd. destruct name as [|c name]; [done|].
  cbn in Hdot. apply andb_true_iff in Hdot as [Hc _].
  cbn [prefix_i]. by rewrite is_i_terminator.
Qed.

Lemma prefix_i_nil name : is_name name → prefix_i name EmptyString = false.
Proof. intros [Hne _]. by destruct name. Qed.

Lemma silent_app name (a b : string) : ∀ prev follow,
  silent name prev (a +:+ b) follow
  = silent name prev a (b +:+ follow) && silent name (final prev a) b follow.
Proof.
  induction a as [|c a IH]; intros prev follow; [done|].
  rewrite app_String. cbn [silent final]. rewrite IH.
  rewrite !app_String, string_app_assoc. by rewrite andb_assoc.
Qed.

Lemma silent_eol name prev eol follow :
  is_name name → is_eol eol → silent name prev eol follow = true.
Proof.
  intros Hname [-> | ->]; cbn [silent]; rewrite !app_String;
    rewrite !prefix_i_terminator by done; by rewrite !andb_false_r.
Qed.

Lemma silent_dots name a : ∀ c follow,
  dot c = true → every dot a = true → silent name (Some c) a follow = true.
Proof.
  induction a as [|d a IH]; intros c follow Hc Ha; [done|].
  cbn in Ha. apply andb_true_iff in Ha as [Hd Ha].
  cbn [silent at_line_start]. unfold dot in Hc. apply negb_true_iff in Hc. rewrite Hc.
  cbn. by apply IH.
Qed.

(** A line where the name does not stand is passed over. *)
Lemma silent_line name prev l follow :
  is_name name → is_line l →
  at_line_start prev && prefix_i name l.1 = false →
  silent name prev (l.1 +:+ l.2) follow = true.
Proof.
  intros Hname (Hne & Hdot & Heol) Hmiss.
  rewrite silent_app, (silent_eol name _ l.2) by done. rewrite andb_true_r.
  rewrite <- (prefix_i_line name l.1 l.2 follow) in Hmiss by (done || apply Hname).
  destruct l.1 as [|c t]; [done|]. cbn [silent].
  rewrite app_String in Hmiss. rewrite app_String, Hmiss. cbn.
  cbn in Hdot. apply andb_true_iff in Hdot as [Hc Ht]. by apply silent_dots.
Qed.

Lemma final_eol prev (a eol : string) :
  is_eol eol → at_line_start (final prev (a +:+ eol)) = true.
Proof. intros [-> | ->]; by rewrite final_app. Qed.

Lemma exec_from_hit r prev s i z :
  run r {| before := prev; rest := s; index := i; captures := ∅ |} Some = Some z →
  exec_from r prev s i = Some {| start := i; stop := index z; groups := captures z |}.
Proof. intros Hz. destruct s; cbn [exec_from]; by rewrite Hz. Qed.

Lemma exec_from_nil name R prev i :
  is_name name → exec_from (LineStart · literal_i name · R) prev EmptyString i = None.
Proof.
  intros Hname. cbn [exec_from]. rewrite anchored_miss; [done|].
  cbn [rest]. rewrite prefix_i_nil by done. apply andb_false_r.
Qed.

End SilentFacts.

(** A rule [^name[\t ]?R] whose match at a line where [name] stands is the
    line's text, with its line end when [eats] is set. *)
Section LineRule.
Import Regex Greedy Lines.
Variables (name : string) (R : Regex) (f : Replacer) (eats : bool).
Variable good : list (string * string) → Prop.

Hypothesis Hname : is_name name.
Hypothesis Hgood : ∀ l ls, good (l :: ls) → good ls.
Hypothesis Hhit : ∀ x l ls,
  is_line l → good (l :: ls) → prefix_i name l.1 = true → rest x = join (l :: ls) →
  ∃ z, run R (past name x) Some = Some z
     ∧ index z = (index x + String.length (l.1 +:+ (if eats then l.2 else EmptyString)))%nat
     ∧ captures z = <[1%nat := value name l.1]> (captures x).

Lemma replace_lines lines : ∀ n prev i,
  Forall is_line lines → good lines → at_line_start prev = true →
  (List.length lines < n)%nat →
  replace_from n (LineStart · literal_i name · Opt (Unit tab_or_space) · R) f prev
    (join lines) i
  = rewrite_lines name
      (λ l, f (l.1 +:+ (if eats then l.2 else EmptyString)) (<[1%nat := value name l.1]> ∅)
            +:+ (if eats then EmptyString else l.2)) lines.
Proof.
  induction lines as [|l ls IH]; intros n prev i Hlines Hg Hprev Hn.
  - destruct n as [|n]; [done|]. cbn [join replace_from]. by rewrite exec_from_nil.
  - apply Forall_cons in Hlines as [Hl Hlines]. cbn [List.length] in Hn.
    cbn [rewrite_lines]. destruct (prefix_i name l.1) eqn:Hp.
    + destruct n as [|n]; [lia|].
      set (x := {| before := prev; rest := join (l :: ls); index := i; captures := ∅ |}).
      destruct (Hhit x l ls) as (z & Hz & Hi & Hc); [done..|].
      apply (name_hit name R x) in Hz;
        [|done|unfold x; cbn [rest join];
               rewrite (prefix_i_line name) by (apply Hname || apply Hl); done].
      apply exec_from_hit in Hz. cbn [index captures x] in Hi, Hc.
      destruct Hl as (Hne & Hdot & Heol).
      destruct eats.
      * cbn [join] in *. rewrite <- string_app_assoc in *.
        rewrite (replace_from_hit n _ f prev (l.1 +:+ l.2) (join ls) i _ Hz); [|done|done|].
        2:{ destruct l.1; [done|]. by rewrite app_String. }
        cbn [groups]. rewrite Hc. rewrite string_app_nil_r. f_equal.
        apply IH; [done|by apply (Hgood l)|by apply final_eol|lia].
      * cbn [join] in *. rewrite string_app_nil_r in *.
        rewrite (replace_from_hit n _ f prev l.1 (l.2 +:+ join ls) i _ Hz); [|done..].
        cbn [groups]. rewrite Hc. rewrite string_app_assoc. f_equal.
        rewrite (replace_from_silent name) by by apply silent_eol.
        f_equal. apply IH; [done|by apply (Hgood l)| |lia].
        rewrite <- final_app. by apply final_eol.
    + cbn [join]. rewrite <- string_app_assoc.
      rewrite (replace_from_silent name).
      2:{ apply silent_line; [done..|]. rewrite Hp. apply andb_false_r. }
      f_equal. apply IH; [done|by apply (Hgood l)| |lia].
      apply final_eol, Hl.
Qed.

End LineRule.

Section LineRules.
Import Regex Greedy Lines.

Lemma capture_here n x a s :
  rest x = a +:+ s →
  captures (capture n x (skip (String.length a) x)) = <[n := a]> (captures x).
Proof.
  intros Hx. unfold capture. cbn [captures].
  rewrite (index_skip a x s), captures_skip, Hx by done.
  replace (index x + String.length a - index x)%nat with (String.length a) by lia.
  by rewrite substring_prefix.
Qed.

Section Hits.
Variables (name : string) (x : Point) (l : string * string) (ls : list (string * string)).
Hypothesis Hl : is_line l.
Hypothesis Hp : prefix_i name l.1 = true.
Hypothesis Hx : rest x = join (l :: ls).

Lemma rest_past_line : rest (past name x) = value name l.1 +:+ l.2 +:+ join ls.
Proof. apply rest_past; [done..|apply Hl]. Qed.

Lemma index_past_line :
  (index (past name x) + String.length (value name l.1) = index x + String.length l.1)%nat.
Proof. apply (index_past name l.1 l.2 (join ls)); [done..|apply Hl]. Qed.

Lemma value_dots : every dot (value name l.1) = true.
Proof. apply every_value, Hl. Qed.

(** [(.* )] on a line takes what is left of its text. *)
Lemma field_hit :
  ∃ z, run (Group 1 (Star Header.any)) (past name x) Some = Some z
     ∧ index z = (index x + String.length (l.1 +:+ EmptyString))%nat
     ∧ captures z = <[1%nat := value name l.1]> (captures x).
Proof.
  pose proof rest_past_line as Hrest. pose proof index_past_line as Hindex.
  eexists. split; [|split].
  - rewrite run_group.
    apply (star_unit_greedy dot (value name l.1) _ (l.2 +:+ join ls));
      [done|apply value_dots|apply eol_not_dot, Hl|reflexivity].
  - cbn [capture index]. rewrite (index_skip _ _ _ Hrest), string_app_nil_r. lia.
  - rewrite (capture_here _ _ _ _ Hrest). by rewrite captures_past.
Qed.

(** [(.* )\r?\n] takes the line end too. *)
Lemma line_hit :
  ∃ z, run (Group 1 (Star Header.any) · Header.newline) (past name x) Some = Some z
     ∧ index z = (index x + String.length (l.1 +:+ l.2))%nat
     ∧ captures z = <[1%nat := value name l.1]> (captures x).
Proof.
  pose proof rest_past_line as Hrest. pose proof index_past_line as Hindex.
  set (y := capture 1 (past name x) (skip (String.length (value name l.1)) (past name x))).
  assert (Hy : rest y = l.2 +:+ join ls) by apply (rest_skip _ _ _ Hrest).
  exists (skip (String.length l.2) y). split; [|split].
  - rewrite run_cat, run_group.
    apply (star_unit_greedy dot (value name l.1) _ (l.2 +:+ join ls));
      [done|apply value_dots|apply eol_not_dot, Hl|].
    fold y. by rewrite (newline_exact l.2 y (join ls)) by (done || apply Hl).
  - rewrite (index_skip _ _ _ Hy). unfold y. cbn [capture index].
    rewrite (index_skip _ _ _ Hrest), string_length_app. lia.
  - rewrite captures_skip. unfold y.
    rewrite (capture_here _ _ _ _ Hrest). by rewrite captures_past.
Qed.

(** A quantifier whose atom fails leaves at once. *)
Lemma rounds_none atom k n y : (∀ k', atom y k' = None) → rounds atom k n y = k y.
Proof. intros H. destruct n; [done|]. cbn [rounds]. by rewrite H. Qed.

Lemma continuation_miss y eol s k :
  rest y = eol +:+ s → is_eol eol → starts space s = false →
  run (Header.newline · Plus Header.blank · Star Header.any) y k = None.
Proof.
  intros Hy Heol Hs. rewrite run_cat, (newline_exact eol y s) by done.
  unfold Plus, Header.blank. rewrite !run_cat.
  apply unit_fails. by rewrite (rest_skip eol y s).
Qed.

(** [(.*(?:\r?\n\s+.* )* )] stays on the line when the next line does not
    start with white space. *)
Lemma from_hit :
  starts space (join ls) = false →
  ∃ z, run (Group 1 (Star Header.any
                     · Star (Header.newline · Plus Header.blank · Star Header.any)))
         (past name x) Some = Some z
     ∧ index z = (index x + String.length (l.1 +:+ EmptyString))%nat
     ∧ captures z = <[1%nat := value name l.1]> (captures x).
Proof.
  intros Hnext.
  pose proof rest_past_line as Hrest. pose proof index_past_line as Hindex.
  eexists. split; [|split].
  - rewrite run_group, run_cat.
    apply (star_unit_greedy dot (value name l.1) _ (l.2 +:+ join ls));
      [done|apply value_dots|apply eol_not_dot, Hl|].
    rewrite run_star, rounds_none; [reflexivity|].
    intros k'. apply (continuation_miss _ l.2 (join ls)); [|apply Hl|done].
    apply (rest_skip _ _ _ Hrest).
  - cbn [capture index]. rewrite (index_skip _ _ _ Hrest), string_app_nil_r. lia.
  - rewrite (capture_here _ _ _ _ Hrest). by rewrite captures_past.
Qed.

(** The same with the line end inside the parentheses. *)
Lemma from_line_hit :
  starts space (join ls) = false →
  ∃ z, run (Group 1 (Star Header.any
                     · Star (Header.newline · Plus Header.blank · Star Header.any)
                     · Header.newline))
         (past name x) Some = Some z
     ∧ captures z = <[1%nat := value name l.1 +:+ l.2]> (captures x).
Proof.
  intros Hnext.
  pose proof rest_past_line as Hrest.
  set (y := skip (String.length (value name l.1)) (past name x)).
  assert (Hy : rest y = l.2 +:+ join ls) by apply (rest_skip _ _ _ Hrest).
  eexists. split.
  - rewrite run_group, run_cat.
    apply (star_unit_greedy dot (value name l.1) _ (l.2 +:+ join ls));
      [done|apply value_dots|apply eol_not_dot, Hl|].
    fold y. rewrite run_cat, run_star, rounds_none.
    2:{ intros k'. apply (continuation_miss _ l.2 (join ls)); [done|apply Hl|done]. }
    rewrite (newline_exact l.2 y (join ls)) by (done || apply Hl). reflexivity.
  - unfold y. rewrite <- skip_add, <- string_length_app.
    rewrite <- string_app_assoc in Hrest.
    rewrite (capture_here _ _ _ _ Hrest). by rewrite captures_past.
Qed.

End Hits.

Lemma rewrite_lines_ext name g g' lines :
  (∀ l, g l = g' l) → rewrite_lines name g lines = rewrite_lines name g' lines.
Proof. intros H. induction lines as [|l ls IH]; [done|]. cbn. by rewrite H, IH. Qed.

Lemma join_set_text name new lines :
  rewrite_lines name (λ l, new (value name l.1) +:+ l.2) lines
  = join (set_text name new lines).
Proof.
  induction lines as [|l ls IH]; [done|]. cbn [rewrite_lines set_text map join].
  fold (set_text name new ls). rewrite <- IH.
  destruct (prefix_i name l.1); by rewrite string_app_assoc.
Qed.

Lemma join_without name lines :
  rewrite_lines name (λ _, EmptyString) lines = join (without name lines).
Proof.
  induction lines as [|l ls IH]; [done|]. cbn [rewrite_lines without List.filter].
  fold (without name ls). rewrite IH.
  destruct (prefix_i name l.1); [done|]. cbn [negb join]. by rewrite string_app_assoc.
Qed.

Lemma replace_all_lines name R f (eats : bool) (good : list (string * string) → Prop) lines :
  is_name name →
  (∀ l ls, good (l :: ls) → good ls) →
  (∀ x l ls,
     is_line l → good (l :: ls) → prefix_i name l.1 = true → rest x = join (l :: ls) →
     ∃ z, run R (past name x) Some = Some z
        ∧ index z = (index x + String.length (l.1 +:+ (if eats then l.2 else EmptyString)))%nat
        ∧ captures z = <[1%nat := value name l.1]> (captures x)) →
  Forall is_line lines → good lines →
  replace_all (LineStart · literal_i name · Opt (Unit tab_or_space) · R) f (join lines)
  = rewrite_lines name
      (λ l, f (l.1 +:+ (if eats then l.2 else EmptyString)) (<[1%nat := value name l.1]> ∅)
            +:+ (if eats then EmptyString else l.2)) lines.
Proof.
  intros Hname Hgood Hhit Hlines Hg. unfold replace_all.
  apply (replace_lines name R f eats good); [done..|].
  pose proof (length_join lines Hlines). lia.
Qed.

(** The rules on one line: every line where the name stands is rewritten,
    its line end kept, and no other line is touched. *)
Lemma field_rule name f lines :
  is_name name → Forall is_line lines →
  replace_all (LineStart · literal_i name · Opt (Unit tab_or_space) · Group 1 (Star Header.any))
    f (join lines)
  = rewrite_lines name (λ l, f l.1 (<[1%nat := value name l.1]> ∅) +:+ l.2) lines.
Proof.
  intros Hname Hlines.
  rewrite (replace_all_lines name _ f false (λ _, True)); [|done|done| |done|done].
  - apply rewrite_lines_ext. intros l. by rewrite string_app_nil_r.
  - intros x l ls Hl _ Hp Hx. by apply (field_hit name x l ls).
Qed.

Lemma name_subject : is_name "subject:".
Proof. by split. Qed.

Lemma name_to : is_name "to:".
Proof. by split. Qed.

Lemma name_from : is_name "from:".
Proof. by split. Qed.

Lemma p1_insert v : Header.p1 (<[1%nat := v]> ∅) = v.
Proof. unfold Header.p1. by rewrite lookup_insert_eq. Qed.

Lemma subject_rule prefix lines :
  Forall is_line lines →
  replace_all Header.subject_re (λ _ g, "Subject: " +:+ prefix +:+ Header.p1 g) (join lines)
  = join (set_text "subject:" (λ v, "Subject: " +:+ prefix +:+ v) lines).
Proof.
  intros Hlines. unfold Header.subject_re.
  rewrite (field_rule "subject:") by (done || apply name_subject).
  rewrite <- join_set_text. apply rewrite_lines_ext. intros l. by rewrite p1_insert.
Qed.

Lemma to_rule to lines :
  Forall is_line lines →
  replace_all Header.to_re (λ _ _, "To: " +:+ to) (join lines)
  = join (set_text "to:" (λ _, "To: " +:+ to) lines).
Proof.
  intros Hlines. unfold Header.to_re.
  rewrite (field_rule "to:") by (done || apply name_to).
  by rewrite <- (join_set_text "to:" (λ _, "To: " +:+ to)).
Qed.

Lemma removal_rule name lines :
  is_name name → Forall is_line lines →
  replace_all (Header.line_re name) Header.erase (join lines) = join (without name lines).
Proof.
  intros Hname Hlines. unfold Header.line_re.
  rewrite (replace_all_lines name _ _ true (λ _, True)); [|done|done| |done|done].
  - rewrite <- join_without. by apply rewrite_lines_ext.
  - intros x l ls Hl _ Hp Hx. by apply (line_hit name x l ls).
Qed.

Lemma unfolded_tail name l ls : unfolded name (l :: ls) = true → unfolded name ls = true.
Proof. cbn. by intros [_ ?]%andb_true_iff. Qed.

Lemma from_rule cfg originalRecipient lines :
  Forall is_line lines → unfolded "from:" lines = true →
  replace_all Header.from_re (Header.from_text cfg originalRecipient) (join lines)
  = join (set_text "from:" (new_from cfg originalRecipient) lines).
Proof.
  intros Hlines Hun. unfold Header.from_re.
  rewrite (replace_all_lines "from:" _ _ false (λ ls, unfolded "from:" ls = true));
    [|apply name_from|apply unfolded_tail| |done|done].
  - by rewrite <- join_set_text.
  - intros x l ls Hl Hg Hp Hx. apply (from_hit "from:" x l ls); [done..|].
    cbn [unfolded] in Hg. rewrite Hp in Hg. by destruct (starts space (join ls)).
Qed.

End LineRules.

Section FoldedRule.
Import Regex Greedy Lines.

Lemma join_app (a b : list (string * string)) : join (a ++ b)%list = join a +:+ join b.
Proof.
  induction a as [|l a IH]; [done|]. cbn [join app]. by rewrite IH, !string_app_assoc.
Qed.

Lemma final_join lines : ∀ prev,
  lines ≠ [] → Forall is_line lines → at_line_start (final prev (join lines)) = true.
Proof.
  induction lines as [|l ls IH]; intros prev Hne Hlines; [done|].
  apply Forall_cons in Hlines as [Hl Hlines]. cbn [join].
  rewrite <- string_app_assoc, final_app.
  destruct ls as [|l' ls]; [cbn [join final]; apply final_eol, Hl|].
  by apply IH.
Qed.

Lemma continuation_split lines :
  lines = (continuation lines ++ after_continuation lines)%list.
Proof.
  induction lines as [|l ls IH]; [done|]. cbn.
  destruct (starts space l.1); [|done]. cbn. by f_equal.
Qed.

Lemma continuation_starts lines :
  Forall (λ l, starts space l.1 = true) (continuation lines).
Proof.
  induction lines as [|l ls IH]; [by constructor|]. cbn.
  destruct (starts space l.1) eqn:Hl; by constructor.
Qed.

Lemma starts_app class (a b : string) :
  a ≠ EmptyString → starts class (a +:+ b) = starts class a.
Proof. by destruct a. Qed.

Lemma starts_join class l ls :
  is_line l → starts class (join (l :: ls)) = starts class l.1.
Proof. intros Hl. cbn [join]. apply starts_app, Hl. Qed.

Lemma after_continuation_starts lines :
  Forall is_line lines → starts space (join (after_continuation lines)) = false.
Proof.
  induction lines as [|l ls IH]; intros Hlines; [done|].
  apply Forall_cons in Hlines as [Hl Hlines]. cbn [after_continuation].
  destruct (starts space l.1) eqn:Hs; [by apply IH|]. by rewrite starts_join.
Qed.

Lemma length_after_continuation lines :
  (List.length (after_continuation lines) ≤ List.length lines)%nat.
Proof.
  induction lines as [|l ls IH]; [done|]. cbn.
  destruct (starts space l.1); cbn; lia.
Qed.

Lemma without_folded_continuation name lines :
  without_folded name true lines = without_folded name false (after_continuation lines).
Proof.
  induction lines as [|l ls IH]; [done|]. cbn [without_folded after_continuation].
  destruct (starts space l.1) eqn:Hs.
  - cbn. by rewrite orb_true_r.
  - cbn [without_folded]. by rewrite Hs.
Qed.

Lemma every_drop_while class class' s :
  every class s = true → every class (drop_while class' s) = true.
Proof.
  induction s as [|c s IH]; [done|]. intros Hs. cbn [drop_while].
  destruct (class' c); [|done]. cbn in Hs. apply andb_true_iff in Hs as [_ Hs]. by apply IH.
Qed.

Lemma drop_while_nil class s : drop_while class s = EmptyString → every class s = true.
Proof.
  induction s as [|c s IH]; [done|]. cbn. destruct (class c); [|done]. by intros ?%IH.
Qed.

(** [\s+.*\r?\n] takes a continuation line. *)
Lemma continuation_hit x c s k z :
  rest x = c.1 +:+ c.2 +:+ s → is_line c →
  starts space c.1 = true → every space c.1 = false →
  k (skip (String.length (c.1 +:+ c.2)) x) = Some z →
  run (Plus Header.blank · Star Header.any · Header.newline) x k = Some z.
Proof.
  intros Hx (Hne & Hdot & Heol) Hs Hb Hk.
  pose proof (take_drop_while space c.1) as Hc.
  set (w := take_while space c.1) in *. set (t := drop_while space c.1) in *.
  assert (Ht : t ≠ EmptyString).
  { intros Ht%drop_while_nil. by rewrite Ht in Hb. }
  assert (Hw : w ≠ EmptyString).
  { unfold w. destruct c.1 as [|d r]; [done|]. cbn in Hs |- *. by rewrite Hs. }
  rewrite <- Hc, !string_length_app, !skip_add in Hk.
  rewrite <- Hc, !string_app_assoc in Hx.
  rewrite run_cat.
  apply (plus_unit_greedy space w x (t +:+ c.2 +:+ s)); [done|done|apply every_take_while| |].
  { rewrite starts_app by done. apply starts_drop_while. }
  rewrite run_cat.
  apply (star_unit_greedy dot t _ (c.2 +:+ s));
    [by apply (rest_skip w x)|by apply every_drop_while|by apply eol_not_dot|].
  rewrite (newline_exact c.2 _ s); [done| |done].
  apply (rest_skip t). by apply (rest_skip w x).
Qed.

Lemma continuation_none x s k :
  rest x = s → starts space s = false →
  run (Group 1 (Plus Header.blank · Star Header.any · Header.newline)) x k = None.
Proof.
  intros Hx Hs. rewrite run_group. unfold Plus, Header.blank. rewrite !run_cat.
  apply unit_fails. by rewrite Hx.
Qed.

(** [(\s+.*\r?\n)*] takes the continuation lines. *)
Lemma rounds_continuation conts : ∀ x s n,
  rest x = join conts +:+ s → Forall is_line conts →
  Forall (λ l, starts space l.1 = true) conts → no_blank_line conts →
  starts space s = false → (List.length conts ≤ n)%nat →
  ∃ z, rounds (run (Group 1 (Plus Header.blank · Star Header.any · Header.newline)))
         Some n x = Some z
     ∧ index z = (index x + String.length (join conts))%nat.
Proof.
  induction conts as [|c cs IH]; intros x s n Hx Hlines Hstarts Hblank Hs Hn.
  - exists x. split; [|cbn; lia].
    apply rounds_none. intros k'. by apply (continuation_none x s).
  - apply Forall_cons in Hlines as [Hc Hlines]. apply Forall_cons in Hstarts as [Hcs Hstarts].
    apply Forall_cons in Hblank as [Hcb Hblank].
    destruct n as [|n]; [cbn in Hn; lia|]. cbn [List.length] in Hn.
    cbn [join] in Hx. rewrite !string_app_assoc in Hx.
    set (y := capture 1 x (skip (String.length (c.1 +:+ c.2)) x)).
    assert (Hy : rest y = join cs +:+ s).
    { unfold y. cbn [capture rest]. apply (rest_skip (c.1 +:+ c.2) x).
      by rewrite string_app_assoc. }
    assert (Hi : index y = (index x + String.length (c.1 +:+ c.2))%nat).
    { unfold y. cbn [capture index]. apply (index_skip (c.1 +:+ c.2) x (join cs +:+ s)).
      by rewrite string_app_assoc. }
    destruct (IH y s n) as (z & Hz & Hiz); [done..|lia|].
    exists z. split.
    + cbn [rounds]. rewrite run_group.
      rewrite (continuation_hit x c (join cs +:+ s) _ z); [done..|].
      fold y. rewrite Hi.
      assert ((index x + String.length (c.1 +:+ c.2) =? index x)%nat = false) as ->; [|done].
      apply Nat.eqb_neq. destruct Hc as (Hne & _). rewrite string_length_app.
      destruct c.1; [done|]. cbn [String.length]. lia.
    + rewrite Hiz, Hi. cbn [join]. rewrite !string_length_app. lia.
Qed.

Section FoldedHit.
Variables (name : string) (x : Point) (l : string * string) (ls : list (string * string)).
Hypothesis Hl : is_line l.
Hypothesis Hlines : Forall is_line ls.
Hypothesis Hblank : no_blank_line ls.
Hypothesis Hp : prefix_i name l.1 = true.
Hypothesis Hx : rest x = join (l :: ls).

Lemma folded_hit :
  ∃ z, run (Star Header.any · Header.newline
            · Star (Group 1 (Plus Header.blank · Star Header.any · Header.newline)))
         (past name x) Some = Some z
     ∧ index z = (index x + String.length (join (l :: continuation ls)))%nat.
Proof.
  pose proof (rest_past_line name x l ls Hl Hp Hx) as Hrest.
  pose proof (index_past_line name x l ls Hl Hp Hx) as Hindex.
  set (y1 := skip (String.length (value name l.1)) (past name x)).
  assert (Hy1 : rest y1 = l.2 +:+ join ls) by apply (rest_skip _ _ _ Hrest).
  assert (Hi1 : index y1 = (index x + String.length l.1)%nat).
  { unfold y1. rewrite (index_skip _ _ _ Hrest). lia. }
  set (y2 := skip (String.length l.2) y1).
  assert (Hy2 : rest y2 = join (continuation ls) +:+ join (after_continuation ls)).
  { unfold y2. rewrite (rest_skip _ _ _ Hy1), <- join_app. by rewrite <- continuation_split. }
  assert (Hi2 : index y2 = (index y1 + String.length l.2)%nat)
    by apply (index_skip _ _ _ Hy1).
  pose proof (continuation_split ls) as Hsplit.
  assert (Forall is_line (continuation ls) ∧ no_blank_line (continuation ls)) as [Hc1 Hc2].
  { unfold no_blank_line in *. rewrite Hsplit in Hlines, Hblank.
    apply Forall_app in Hlines as [? _]. by apply Forall_app in Hblank as [? _]. }
  destruct (rounds_continuation (continuation ls) y2 (join (after_continuation ls))
              (String.length (rest y2))) as (z & Hz & Hiz);
    [done|done|apply continuation_starts|done|by apply after_continuation_starts| |].
  { rewrite Hy2, string_length_app. pose proof (length_join _ Hc1). lia. }
  exists z. split.
  - rewrite run_cat.
    apply (star_unit_greedy dot (value name l.1) _ (l.2 +:+ join ls));
      [done|by apply value_dots|apply eol_not_dot, Hl|].
    fold y1. rewrite run_cat, (newline_exact l.2 y1 (join ls)) by (done || apply Hl).
    fold y2. by rewrite run_star.
  - rewrite Hiz, Hi2, Hi1. cbn [join]. rewrite !string_length_app. lia.
Qed.

End FoldedHit.

Lemma replace_folded name m : ∀ lines n prev i,
  List.length lines = m →
  is_name name → Forall is_line lines → no_blank_line lines →
  at_line_start prev = true → (List.length lines < n)%nat →
  replace_from n
    (LineStart · literal_i name · Opt (Unit tab_or_space)
     · Star Header.any · Header.newline
     · Star (Group 1 (Plus Header.blank · Star Header.any · Header.newline)))
    Header.erase prev (join lines) i
  = join (without_folded name false lines).
Proof.
  induction m as [m IH] using lt_wf_ind.
  intros lines n prev i Hm Hname Hlines Hblank Hprev Hn.
  destruct lines as [|l ls].
  { destruct n as [|n]; [done|]. cbn [join replace_from]. by rewrite exec_from_nil. }
  apply Forall_cons in Hlines as [Hl Hlines]. apply Forall_cons in Hblank as [Hlb Hblank].
  cbn [List.length] in Hn, Hm. cbn [without_folded]. rewrite andb_false_l, orb_false_r.
  destruct (prefix_i name l.1) eqn:Hp.
  - destruct n as [|n]; [lia|].
    set (x := {| before := prev; rest := join (l :: ls); index := i; captures := ∅ |}).
    destruct (folded_hit name x l ls) as (z & Hz & Hi); [done..|].
    apply (name_hit name _ x) in Hz;
      [|done|unfold x; cbn [rest join];
             rewrite (prefix_i_line name) by (apply Hname || apply Hl); done].
    apply exec_from_hit in Hz. cbn [index x] in Hi.
    assert (Hjoin : join (l :: ls)
                    = join (l :: continuation ls) +:+ join (after_continuation ls)).
    { change (l :: continuation ls) with ([l] ++ continuation ls)%list.
      rewrite !join_app, string_app_assoc, <- join_app, <- continuation_split. cbn [join].
      by rewrite string_app_nil_r, string_app_assoc. }
    rewrite Hjoin in Hz |- *.
    rewrite (replace_from_hit n _ _ prev _ _ i _ Hz); [|done|done|].
    2:{ cbn [join]. destruct Hl as (Hne & _). destruct l.1; [done|]. by rewrite app_String. }
    unfold Header.erase at 2. rewrite without_folded_continuation.
    change (EmptyString +:+ ?s) with s.
    pose proof (length_after_continuation ls) as Hlen.
    apply (IH (List.length (after_continuation ls))); [lia|done|done| | | |lia].
    + rewrite (continuation_split ls) in Hlines. by apply Forall_app in Hlines as [_ ?].
    + unfold no_blank_line in *. rewrite (continuation_split ls) in Hblank.
      by apply Forall_app in Hblank as [_ ?].
    + apply final_join; [done|]. constructor; [done|].
      rewrite (continuation_split ls) in Hlines. by apply Forall_app in Hlines as [? _].
  - cbn [join]. rewrite <- string_app_assoc.
    rewrite (replace_from_silent name).
    2:{ apply silent_line; [done..|]. rewrite Hp. apply andb_false_r. }
    rewrite string_app_assoc. do 2 f_equal.
    apply (IH (List.length ls)); [lia|done..| |lia].
    apply final_eol, Hl.
Qed.

Lemma name_dkim : is_name "dkim-signature:".
Proof. by split. Qed.

Lemma dkim_rule lines :
  Forall is_line lines → no_blank_line lines →
  replace_all Header.dkim_re Header.erase (join lines)
  = join (without_folded "dkim-signature:" false lines).
Proof.
  intros Hlines Hblank. unfold replace_all, Header.dkim_re.
  apply (replace_folded _ (List.length lines)); [done|apply name_dkim|done..|].
  pose proof (length_join lines Hlines). lia.
Qed.

End FoldedRule.

Section ReplyTo.
Import Regex Greedy Lines.

Lemma silent_lines name lines : ∀ prev follow,
  is_name name → Forall is_line lines →
  Forall (λ l, prefix_i name l.1 = false) lines →
  silent name prev (join lines) follow = true.
Proof.
  induction lines as [|l ls IH]; intros prev follow Hname Hlines Hmiss; [done|].
  apply Forall_cons in Hlines as [Hl Hlines]. apply Forall_cons in Hmiss as [Hp Hmiss].
  cbn [join]. rewrite <- string_app_assoc, silent_app.
  rewrite silent_line by (done || rewrite Hp; apply andb_false_r).
  by apply IH.
Qed.

Lemma find_split {A} (p : A → bool) l x :
  List.find p l = Some x →
  ∃ pre post, l = (pre ++ x :: post)%list ∧ Forall (λ y, p y = false) pre ∧ p x = true.
Proof.
  induction l as [|y l IH]; [done|]. cbn. destruct (p y) eqn:Hy.
  - intros [= ->]. by exists [], l.
  - intros (pre & post & -> & Hpre & Hx)%IH. exists (y :: pre), post.
    split; [done|]. split; [by constructor|done].
Qed.

Lemma find_none {A} (p : A → bool) l :
  List.find p l = None → Forall (λ y, p y = false) l.
Proof.
  induction l as [|y l IH]; [by constructor|]. cbn. destruct (p y) eqn:Hy; [done|].
  intros ?%IH. by constructor.
Qed.

Lemma existsb_find {A} (p : A → bool) l :
  existsb p l = match List.find p l with Some _ => true | None => false end.
Proof. induction l as [|y l IH]; [done|]. cbn. by destruct (p y). Qed.

(** The search stops at the first line where the name stands. *)
Lemma exec_from_first name R pre l post :
  is_name name → Forall is_line pre → Forall (λ l, prefix_i name l.1 = false) pre →
  ∃ prev i,
    exec_from (LineStart · literal_i name · R) None (join (pre ++ l :: post)) 0
    = exec_from (LineStart · literal_i name · R) prev (join (l :: post)) i
    ∧ at_line_start prev = true.
Proof.
  intros Hname Hlines Hmiss. eexists _, _. split.
  - rewrite join_app. by apply exec_from_silent, silent_lines.
  - destruct pre; [done|]. by apply final_join.
Qed.

Lemma exec_from_none name R lines :
  is_name name → Forall is_line lines → Forall (λ l, prefix_i name l.1 = false) lines →
  exec (LineStart · literal_i name · R) (join lines) = None.
Proof.
  intros Hname Hlines Hmiss. unfold exec.
  rewrite <- (string_app_nil_r (join lines)).
  rewrite (exec_from_silent name) by by apply silent_lines.
  by apply exec_from_nil.
Qed.

Lemma name_reply_to : is_name "reply-to:".
Proof. by split. Qed.

Lemma test_reply_to lines :
  Forall is_line lines →
  test Header.reply_to_re (join lines) = existsb (λ l, prefix_i "reply-to:" l.1) lines.
Proof.
  intros Hlines. rewrite existsb_find. unfold test, Header.reply_to_re.
  destruct (List.find _ lines) as [l|] eqn:Hfind.
  - apply find_split in Hfind as (pre & post & -> & Hmiss & Hp).
    apply Forall_app in Hlines as [Hpre [Hl Hpost]%Forall_cons].
    destruct (exec_from_first "reply-to:" (Opt (Unit tab_or_space)) pre l post)
      as (prev & i & He & Hprev); [apply name_reply_to|done..|].
    unfold exec. rewrite He.
    set (x := {| before := prev; rest := join (l :: post); index := i; captures := ∅ |}).
    assert (run (LineStart · literal_i "reply-to:" · Opt (Unit tab_or_space)) x Some
            = Some (past "reply-to:" x)) as Hz%exec_from_hit; [|by rewrite Hz].
    rewrite run_cat, line_start_hit, run_cat, literal_i_hit by
      (done || unfold x; cbn [rest join];
       rewrite (prefix_i_line "reply-to:") by (done || apply Hl); done).
    by apply opt_greedy.
  - apply find_none in Hfind.
    by rewrite (exec_from_none "reply-to:") by (done || apply name_reply_to).
Qed.

Lemma unfolded_app name pre ls :
  unfolded name (pre ++ ls)%list = true → unfolded name ls = true.
Proof.
  induction pre as [|l pre IH]; [done|]. cbn [app]. by intros ?%unfolded_tail%IH.
Qed.

Lemma group_from_line lines :
  Forall is_line lines → unfolded "from:" lines = true →
  group 1 (exec Header.from_line_re (join lines))
  = match List.find (λ l, prefix_i "from:" l.1) lines with
    | Some l => Some (value "from:" l.1 +:+ l.2)
    | None => None
    end.
Proof.
  intros Hlines Hun. unfold Header.from_line_re.
  destruct (List.find _ lines) as [l|] eqn:Hfind.
  - apply find_split in Hfind as (pre & post & -> & Hmiss & Hp).
    apply unfolded_app in Hun. cbn [unfolded] in Hun. rewrite Hp in Hun.
    apply Forall_app in Hlines as [Hpre [Hl Hpost]%Forall_cons].
    destruct (exec_from_first "from:"
                (Opt (Unit tab_or_space)
                 · Group 1 (Star Header.any
                            · Star (Header.newline · Plus Header.blank · Star Header.any)
                            · Header.newline)) pre l post)
      as (prev & i & He & Hprev); [apply name_from|done..|].
    unfold exec. rewrite He.
    set (x := {| before := prev; rest := join (l :: post); index := i; captures := ∅ |}).
    destruct (from_line_hit "from:" x l post) as (z & Hz & Hc); [done..| |].
    { by destruct (starts space (join post)). }
    apply (name_hit "from:" _ x) in Hz;
      [|done|unfold x; cbn [rest join];
             rewrite (prefix_i_line "from:") by (done || apply Hl); done].
    apply exec_from_hit in Hz. rewrite Hz. cbn [group groups]. rewrite Hc.
    apply lookup_insert_eq.
  - apply find_none in Hfind.
    by rewrite (exec_from_none "from:") by (done || apply name_from).
Qed.

Lemma reply_to_rule lines :
  Forall is_line lines → unfolded "from:" lines = true →
  Header.add_reply_to (join lines) = join (with_reply_to lines).
Proof.
  intros Hlines Hun. unfold Header.add_reply_to, with_reply_to.
  rewrite test_reply_to, group_from_line by done.
  destruct (existsb _ lines); [done|]. cbn [negb].
  destruct (List.find _ lines) as [l|] eqn:Hfind; [|done].
  cbn [JS.truthy JS.to_string].
  assert (JS.truthy_string (value "from:" l.1 +:+ l.2) = true) as Htruthy.
  { apply find_split in Hfind as (pre & post & -> & _ & _).
    apply Forall_app in Hlines as [_ [(_ & _ & Heol) _]%Forall_cons].
    destruct (value "from:" l.1); [|done]. by destruct Heol as [-> | ->]. }
  rewrite Htruthy. rewrite Htruthy. rewrite join_app. cbn [join fst snd]. by rewrite !string_app_assoc, string_app_nil_r.
Qed.

End ReplyTo.

Section Rewritten.
Import Regex Greedy Lines.

Lemma every_substring class s : ∀ n m,
  every class s = true → every class (substring n m s) = true.
Proof.
  induction s as [|c s IH]; intros n m Hs; [by destruct n, m|].
  cbn in Hs. apply andb_true_iff in Hs as [Hc Hs].
  destruct n as [|n]; [|by apply IH]. destruct m as [|m]; [done|].
  cbn. rewrite Hc. by apply IH.
Qed.

Lemma every_advance class s : ∀ n prev,
  every class s = true → every class (advance n prev s).2 = true.
Proof.
  induction s as [|c s IH]; intros n prev Hs; [by destruct n|].
  destruct n as [|n]; [done|]. cbn in Hs |- *. apply andb_true_iff in Hs as [_ Hs].
  by apply IH.
Qed.

Lemma every_replace_first class r s :
  every class s = true → every class (replace_first r Header.erase s) = true.
Proof.
  intros Hs. unfold replace_first. destruct (exec r s) as [m|]; [|done].
  unfold Header.erase. rewrite !every_app, every_substring, every_advance by done. done.
Qed.

Lemma every_trimStart class s : every class s = true → every class (trimStart s) = true.
Proof.
  induction s as [|c s IH]; [done|]. intros Hs. cbn [trimStart].
  destruct (space c); [|done]. cbn in Hs. apply andb_true_iff in Hs as [_ Hs]. by apply IH.
Qed.

Lemma every_trimEnd class s : every class s = true → every class (trimEnd s) = true.
Proof.
  induction s as [|c s IH]; [done|]. intros Hs. cbn in Hs.
  apply andb_true_iff in Hs as [Hc Hs]. specialize (IH Hs). cbn [trimEnd].
  destruct (trimEnd s) as [|d t].
  - destruct (space c); [done|]. cbn. by rewrite Hc.
  - cbn [every] in IH |- *. by rewrite Hc, IH.
Qed.

Lemma every_replace_unit class c new s :
  every class new = true → every class s = true →
  every class (replace_unit c new s) = true.
Proof.
  intros Hnew. induction s as [|d s IH]; [done|]. intros Hs. cbn in Hs.
  apply andb_true_iff in Hs as [Hd Hs]. cbn [replace_unit].
  destruct (Ascii.eqb d c).
  - by rewrite every_app, Hnew, Hs.
  - cbn. by rewrite Hd, IH.
Qed.

(** The new [From:] line is one line, and starts with its name. *)
Lemma new_from_line cfg originalRecipient v :
  on_one_line cfg originalRecipient → every dot v = true →
  ∃ t, new_from cfg originalRecipient v = "From: " +:+ t ∧ every dot t = true.
Proof.
  intros (Hfrom & _ & _ & Horig) Hv. unfold new_from, Header.from_text.
  rewrite p1_insert. destruct (JS.truthy (fromEmail cfg)); eexists; (split; [done|]).
  - unfold trim. rewrite !every_app, Hfrom.
    by rewrite every_trimEnd by by apply every_trimStart, every_replace_first.
  - rewrite !every_app, Horig.
    by rewrite every_replace_unit by (done || by apply every_replace_unit).
Qed.

Lemma set_text_lines name new lines :
  (∀ v, every dot v = true → new v ≠ EmptyString ∧ every dot (new v) = true) →
  Forall is_line lines → Forall is_line (set_text name new lines).
Proof.
  intros Hnew Hlines. unfold set_text. apply Forall_map.
  eapply Forall_impl; [done|]. intros l Hl. cbn.
  destruct (prefix_i name l.1); [|done].
  destruct (Hnew (value name l.1)) as [Hne Hdot]; [apply every_value, Hl|].
  split; [done|]. split; [done|]. apply Hl.
Qed.

Lemma set_text_no_blank name new lines :
  (∀ v, every space (new v) = false) →
  no_blank_line lines → no_blank_line (set_text name new lines).
Proof.
  intros Hnew Hlines. unfold set_text. apply Forall_map.
  eapply Forall_impl; [done|]. intros l Hl. cbn in Hl |- *.
  destruct (prefix_i name l.1); [apply Hnew|done].
Qed.

Lemma Forall_without (P : string * string → Prop) name lines :
  Forall P lines → Forall P (without name lines).
Proof.
  intros H. unfold without. induction H as [|l ls Hl _ IH]; [by constructor|].
  cbn. destruct (negb _); [by constructor|done].
Qed.

Lemma unfolded_snoc name lines l' :
  Forall is_line lines → starts space l'.1 = false → is_line l' →
  unfolded name lines = true → unfolded name (lines ++ [l'])%list = true.
Proof.
  intros Hlines Hs Hl'. induction Hlines as [|l ls Hl Hls IH]; intros Hun.
  - cbn. by rewrite andb_false_r.
  - cbn [unfolded app] in *. apply andb_true_iff in Hun as [Hhere Hun].
    rewrite IH, andb_true_r by done.
    destruct ls as [|l2 ls].
    + cbn [app]. rewrite starts_join, Hs by done. by rewrite andb_false_r.
    + apply Forall_cons in Hls as [Hl2 _]. cbn [app].
      rewrite starts_join by done. by rewrite starts_join in Hhere.
Qed.

Section WithReplyTo.
Variable lines : list (string * string).
Hypothesis Hlines : Forall is_line lines.

Lemma reply_to_line l :
  l ∈ lines → is_line ("Reply-To: " +:+ value "from:" l.1, l.2).
Proof.
  intros Hl. rewrite Forall_forall in Hlines. apply Hlines in Hl as (_ & Hdot & Heol).
  split; [done|]. split; [|done]. cbn [fst]. rewrite every_app.
  by rewrite every_value.
Qed.

Lemma find_elem_of l :
  List.find (λ l, prefix_i "from:" l.1) lines = Some l → l ∈ lines.
Proof.
  intros (pre & post & -> & _)%find_split. apply elem_of_app. right. by left.
Qed.

Lemma with_reply_to_lines : Forall is_line (with_reply_to lines).
Proof.
  unfold with_reply_to. destruct (existsb _ lines); [done|].
  destruct (List.find _ lines) as [l|] eqn:Hfind; [|done].
  apply Forall_app. split; [done|]. constructor; [|done].
  by apply reply_to_line, find_elem_of.
Qed.

Lemma with_reply_to_no_blank : no_blank_line lines → no_blank_line (with_reply_to lines).
Proof.
  intros Hblank. unfold with_reply_to. destruct (existsb _ lines); [done|].
  destruct (List.find _ lines) as [l|] eqn:Hfind; [|done].
  apply Forall_app. split; [done|]. by constructor.
Qed.

Lemma with_reply_to_unfolded :
  unfolded "from:" lines = true → unfolded "from:" (with_reply_to lines) = true.
Proof.
  intros Hun. unfold with_reply_to. destruct (existsb _ lines); [done|].
  destruct (List.find _ lines) as [l|] eqn:Hfind; [|done].
  apply unfolded_snoc; [done|done| |done].
  by apply reply_to_line, find_elem_of.
Qed.

End WithReplyTo.

Lemma name_return_path : is_name "return-path:".
Proof. by split. Qed.

Lemma name_sender : is_name "sender:".
Proof. by split. Qed.

Lemma name_message_id : is_name "message-id:".
Proof. by split. Qed.

(** The whole of the header rules, on a header of lines: where no line is
    white space only and no [From:] line is continued, the rules act line
    by line. *)
Lemma rewrite_header_lines cfg originalRecipient lines :
  on_one_line cfg originalRecipient →
  Forall is_line lines → no_blank_line lines → unfolded "from:" lines = true →
  Header.rewrite_header cfg originalRecipient (join lines)
  = join (rewritten cfg originalRecipient lines).
Proof.
  intros Hcfg Hlines Hblank Hun. unfold Header.rewrite_header, rewritten.
  pose proof Hcfg as (Hfrom & Hsubject & Hto & Horig).
  rewrite reply_to_rule by done.
  pose proof (with_reply_to_lines lines Hlines) as Hlines1.
  pose proof (with_reply_to_no_blank lines Hblank) as Hblank1.
  pose proof (with_reply_to_unfolded lines Hlines Hun) as Hun1.
  generalize dependent (with_reply_to lines). clear dependent lines. intros lines Hlines Hblank Hun.
  rewrite from_rule by done.
  assert (Hlines1 : Forall is_line (set_text "from:" (new_from cfg originalRecipient) lines)).
  { apply set_text_lines; [|done]. intros v Hv.
    destruct (new_from_line cfg originalRecipient v) as (t & -> & Ht); [done..|].
    split; [done|]. by rewrite every_app, Ht. }
  assert (Hblank1 : no_blank_line (set_text "from:" (new_from cfg originalRecipient) lines)).
  { apply set_text_no_blank; [|done]. intros v. unfold new_from, Header.from_text.
    by destruct (JS.truthy (fromEmail cfg)). }
  generalize dependent (set_text "from:" (new_from cfg originalRecipient) lines).
  clear dependent lines. intros lines Hlines Hblank.
  set (subject := if JS.truthy (subjectPrefix cfg) then _ else lines).
  assert (Forall is_line subject ∧ no_blank_line subject
          ∧ (if JS.truthy (subjectPrefix cfg) then _ else join lines) = join subject)
    as (Hlines1 & Hblank1 & ->).
  { unfold subject. destruct (JS.truthy (subjectPrefix cfg)); [|done].
    split; [|split; [|by apply subject_rule]].
    - apply set_text_lines; [|done]. intros v Hv. split; [done|].
      by rewrite !every_app, Hsubject, Hv.
    - by apply set_text_no_blank. }
  clearbody subject. clear dependent lines. rename subject into lines.
  set (to := if JS.truthy (toEmail cfg) then _ else lines).
  assert (Forall is_line to ∧ no_blank_line to
          ∧ (if JS.truthy (toEmail cfg) then _ else join lines) = join to)
    as (Hlines2 & Hblank2 & ->).
  { unfold to. destruct (JS.truthy (toEmail cfg)); [|done].
    split; [|split; [|by apply to_rule]].
    - apply set_text_lines; [|done]. intros v Hv. split; [done|].
      by rewrite !every_app, Hto.
    - by apply set_text_no_blank. }
  clearbody to. clear dependent lines. rename to into lines.
  rewrite (removal_rule "return-path:") by (done || apply name_return_path).
  rewrite (removal_rule "sender:")
    by (by apply Forall_without || apply name_sender).
  rewrite (removal_rule "message-id:")
    by (by do 2 apply Forall_without || apply name_message_id).
  apply dkim_rule; by do 3 apply Forall_without.
Qed.

End Rewritten.

Section Untouched.
Import Regex Greedy Lines.

Lemma replace_all_silent name R f lines :
  is_name name → Forall is_line lines → Forall (λ l, prefix_i name l.1 = false) lines →
  replace_all (LineStart · literal_i name · R) f (join lines) = join lines.
Proof.
  intros Hname Hlines Hmiss. unfold replace_all.
  generalize (S (String.length (join lines))). intros n.
  rewrite <- (string_app_nil_r (join lines)) at 1.
  rewrite (replace_from_silent name) by by apply silent_lines.
  assert (∀ prev i, replace_from n (LineStart · literal_i name · R) f prev EmptyString i
                    = EmptyString) as ->; [|apply string_app_nil_r].
  intros prev i. destruct n; [done|]. cbn [replace_from]. by rewrite exec_from_nil.
Qed.

Lemma other_misses name lines :
  name ∈ rule_names → Forall (λ l, other l = true) lines →
  Forall (λ l, prefix_i name l.1 = false) lines.
Proof.
  intros Hname Hother. eapply Forall_impl; [done|]. intros l Hl. cbn beta in Hl.
  unfold other in Hl. rewrite forallb_forall in Hl.
  apply negb_true_iff, Hl. by apply list_elem_of_In.
Qed.

(** X17: the rules leave a header alone where none of their names stands
    at the head of a line: for header lines that start with none of
    [from:], [subject:], [to:], [return-path:], [sender:], [message-id:]
    and [dkim-signature:], in any letter case, [rewrite_header] returns the
    header as it was, whatever the configuration and whether lines are
    continued or not; a [Reply-To:] line is such a line. *)
Theorem other_headers_stay cfg originalRecipient lines :
  Forall is_line lines → Forall (λ l, other l = true) lines →
  Header.rewrite_header cfg originalRecipient (join lines) = join lines.
Proof.
  intros Hlines Hother. unfold Header.rewrite_header.
  assert (Header.add_reply_to (join lines) = join lines) as ->.
  { unfold Header.add_reply_to, Header.from_line_re.
    rewrite (exec_from_none "from:");
      [|apply name_from|done|apply other_misses; [set_solver|done]].
    by destruct (negb _). }
  unfold Header.from_re, Header.subject_re, Header.to_re, Header.line_re, Header.dkim_re.
  rewrite (replace_all_silent "from:");
    [|apply name_from|done|apply other_misses; [set_solver|done]].
  assert ((if JS.truthy (subjectPrefix cfg) then _ else join lines) = join lines) as ->.
  { destruct (JS.truthy (subjectPrefix cfg)); [|done].
    apply (replace_all_silent "subject:");
      [apply name_subject|done|apply other_misses; [set_solver|done]]. }
  assert ((if JS.truthy (toEmail cfg) then _ else join lines) = join lines) as ->.
  { destruct (JS.truthy (toEmail cfg)); [|done].
    apply (replace_all_silent "to:");
      [apply name_to|done|apply other_misses; [set_solver|done]]. }
  rewrite (replace_all_silent "return-path:");
    [|apply name_return_path|done|apply other_misses; [set_solver|done]].
  rewrite (replace_all_silent "sender:");
    [|apply name_sender|done|apply other_misses; [set_solver|done]].
  rewrite (replace_all_silent "message-id:");
    [|apply name_message_id|done|apply other_misses; [set_solver|done]].
  apply (replace_all_silent "dkim-signature:");
    [apply name_dkim|done|apply other_misses; [set_solver|done]].
Qed.

(** X18: [processMessage] on a whole message: for header lines, an empty
    line and a body that is empty or ends with a line feed, the new
    message is the header lines rewritten rule by rule ([rewritten]: the
    [Reply-To:] line added, the [From:], [Subject:] and [To:] lines set,
    the [Return-Path:], [Sender:], [Message-ID:] and [DKIM-Signature:]
    lines taken out), then the empty line and the body, both unchanged.
    It holds where no header line is white space only, no [From:] line is
    continued and the configured texts hold no line terminator. *)
Theorem process_rewrites_header_lines cfg originalRecipient lines eol body :
  on_one_line cfg originalRecipient →
  lines ≠ [] → Forall is_line lines → no_blank_line lines → unfolded "from:" lines = true →
  is_eol eol → ends_with_LF body = true →
  Header.process cfg originalRecipient (join lines +:+ eol +:+ body)
  = join (rewritten cfg originalRecipient lines) +:+ eol +:+ body.
Proof.
  intros Hcfg Hne Hlines Hblank Hun Heol Hbody. unfold Header.process.
  rewrite split_message_lines by done. by rewrite rewrite_header_lines.
Qed.

End Untouched.

Section DisplayName.
Import Regex Greedy Lines.

Lemma lacks_starts c s : lacks c s = true → starts (just c) s = false.
Proof.
  destruct s as [|d s]; [done|]. cbn. intros [H _]%andb_true_iff. by apply negb_true_iff.
Qed.

(** The search goes over the code units that cannot start a match. *)
Lemma exec_from_lacks c R a : ∀ prev follow i,
  lacks c a = true →
  exec_from (Unit (just c) · R) prev (a +:+ follow) i
  = exec_from (Unit (just c) · R) (final prev a) follow (i + String.length a).
Proof.
  induction a as [|d a IH]; intros prev follow i Ha.
  - cbn [String.length final]. by rewrite Nat.add_0_r.
  - cbn in Ha. apply andb_true_iff in Ha as [Hd Ha]. apply negb_true_iff in Hd.
    rewrite app_String. cbn [exec_from].
    rewrite run_cat, unit_fails by (cbn [rest starts]; done).
    rewrite IH by done. cbn [final String.length]. f_equal. lia.
Qed.

Lemma rounds_unit_none class t : ∀ x k n,
  rest x = t → (∀ j, (j ≤ String.length t)%nat → k (skip j x) = None) →
  rounds (run (Unit class)) k n x = None.
Proof.
  induction t as [|c t IH]; intros x k n Hx Hk.
  - destruct n; cbn [rounds]; [apply (Hk 0%nat); cbn; lia|].
    rewrite unit_fails by by rewrite Hx. apply (Hk 0%nat). cbn; lia.
  - destruct n as [|n]; cbn [rounds]; [apply (Hk 0%nat); cbn; lia|].
    destruct (class c) eqn:Hc.
    + rewrite (unit_next class x _ c t) by done.
      rewrite (index_next x c t) by done.
      assert ((S (index x) =? index x)%nat = false) as -> by (apply Nat.eqb_neq; lia).
      rewrite IH; [apply (Hk 0%nat); cbn; lia|by apply (rest_next x c)|].
      intros j Hj. apply (Hk (S j)). cbn. lia.
    + rewrite unit_fails by (rewrite Hx; cbn; by rewrite Hc).
      apply (Hk 0%nat). cbn; lia.
Qed.

(** A star over a class gives back code units, one at a time, until the
    rest of the pattern matches. *)
Lemma rounds_unit_last class a : ∀ x t k z n,
  rest x = a +:+ t → every class a = true →
  (∀ j, (0 < j ≤ String.length t)%nat → k (skip (String.length a + j) x) = None) →
  k (skip (String.length a) x) = Some z →
  (String.length a ≤ n)%nat →
  rounds (run (Unit class)) k n x = Some z.
Proof.
  induction a as [|c a IH]; intros x t k z n Hx Ha Hlater Hk Hn.
  - cbn [String.length skip] in Hk. change (rest x = t) in Hx.
    destruct n as [|n]; [done|]. cbn [rounds].
    destruct t as [|c t].
    + rewrite unit_fails by by rewrite Hx. done.
    + destruct (class c) eqn:Hc.
      * rewrite (unit_next class x _ c t) by done.
        rewrite (index_next x c t) by done.
        assert ((S (index x) =? index x)%nat = false) as -> by (apply Nat.eqb_neq; lia).
        rewrite (rounds_unit_none class t); [done|by apply (rest_next x c)|].
        intros j Hj. apply (Hlater (S j)). cbn. lia.
      * rewrite unit_fails by (rewrite Hx; cbn; by rewrite Hc). done.
  - cbn in Ha. apply andb_true_iff in Ha as [Hc Ha].
    destruct n as [|n]; [cbn in Hn; lia|]. cbn [rounds].
    rewrite app_String in Hx.
    rewrite (unit_next class x _ c (a +:+ t)) by done.
    rewrite (index_next x c (a +:+ t)) by done.
    assert ((S (index x) =? index x)%nat = false) as -> by (apply Nat.eqb_neq; lia).
    rewrite (IH (next x) t k z n); [done|by apply (rest_next x c)|done| |done|].
    + intros j Hj. by apply Hlater.
    + cbn in Hn. lia.
Qed.

Lemma lacks_drop_units c n s : lacks c s = true → lacks c (drop_units n s) = true.
Proof. apply every_drop_units. Qed.

(** [/<(.* )>/] finds the first [<] and the last [>] after it. *)
Lemma exec_angle (a b c : string) :
  lacks "<" a = true → lacks ">" c = true → every dot (b +:+ c) = true →
  ∃ g, exec Header.angle_re (a +:+ String "<" (b +:+ String ">" c))
       = Some {| start := String.length a;
                 stop := String.length a + String.length b + 2;
                 groups := g |}.
Proof.
  intros Ha Hc Hbc. rewrite every_app in Hbc. apply andb_true_iff in Hbc as [Hb Hcd].
  unfold exec, Header.angle_re.
  rewrite exec_from_lacks by done. cbn [Nat.add].
  set (x := {| before := final None a; rest := String "<" (b +:+ String ">" c);
               index := String.length a; captures := ∅ |}).
  set (x1 := next x).
  assert (Hx1 : rest x1 = b +:+ String ">" c) by done.
  set (y := capture 1 x1 (skip (String.length b) x1)).
  assert (Hy : rest y = String ">" c) by apply (rest_skip b x1 _ Hx1).
  assert (Hz : run (Unit (just "<") · Group 1 (Star Header.any) · Unit (just ">")) x Some
               = Some (next y)).
  { rewrite run_cat, (unit_next (just "<") x _ "<" (b +:+ String ">" c)) by done.
    fold x1. rewrite run_cat, run_group, run_star.
    apply (rounds_unit_last dot b x1 (String ">" c)); [done|done| | |].
    - intros j Hj. apply unit_fails. cbn [capture rest].
      rewrite skip_add, rest_skip_n, (rest_skip b x1 _ Hx1).
      destruct j as [|j]; [lia|]. cbn [drop_units].
      by apply lacks_starts, lacks_drop_units.
    - fold y. by rewrite (unit_next (just ">") y _ ">" c).
    - rewrite Hx1, string_length_app. lia. }
  apply exec_from_hit in Hz. rewrite Hz. eexists. f_equal. f_equal.
  rewrite (index_next y ">" c) by done. unfold y. cbn [capture index].
  rewrite (index_skip b x1 _ Hx1). unfold x1. rewrite (index_next x "<" _) by done.
  cbn [x index]. lia.
Qed.

Lemma replace_first_angle (a b c : string) :
  lacks "<" a = true → lacks ">" c = true → every dot (b +:+ c) = true →
  replace_first Header.angle_re Header.erase (a +:+ String "<" (b +:+ String ">" c))
  = a +:+ c.
Proof.
  intros Ha Hc Hbc. unfold replace_first.
  destruct (exec_angle a b c) as (g & ->); [done..|]. cbn [start stop groups].
  unfold Header.erase. rewrite substring_prefix.
  set (m := a +:+ String "<" (b +:+ String ">" EmptyString)).
  assert (Hm : a +:+ String "<" (b +:+ String ">" c) = m +:+ c).
  { unfold m. by rewrite !string_app_assoc, !app_String, !string_app_assoc. }
  assert (Hlen : (String.length a + String.length b + 2 = String.length m + 0)%nat).
  { unfold m. rewrite string_length_app. cbn [String.length].
    rewrite string_length_app. cbn [String.length]. lia. }
  rewrite Hm, Hlen, advance_app. done.
Qed.

(** X11: with [fromEmail] set, the new [From:] line keeps the display name
    and takes the configured address: of the old value, the text from the
    first [<] to the last [>] is taken out, what is left is trimmed, and
    [ <fromEmail>] is put after it. *)
Theorem from_keeps_display_name cfg originalRecipient matched (a b c : string) :
  JS.truthy (fromEmail cfg) = true →
  lacks "<" a = true → lacks ">" c = true → every dot (b +:+ c) = true →
  Header.from_text cfg originalRecipient matched
    (<[1%nat := a +:+ String "<" (b +:+ String ">" c)]> ∅)
  = "From: " +:+ trim (a +:+ c) +:+ " <" +:+ JS.to_string (fromEmail cfg) +:+ ">".
Proof.
  intros Hfrom Ha Hc Hbc. unfold Header.from_text.
  by rewrite Hfrom, p1_insert, replace_first_angle.
Qed.

Lemma replace_unit_first c new (a s : string) :
  lacks c a = true → replace_unit c new (a +:+ String c s) = a +:+ new +:+ s.
Proof.
  induction a as [|d a IH]; intros Ha.
  - change (EmptyString +:+ ?t) with t. cbn [replace_unit]. by rewrite Ascii.eqb_refl.
  - cbn in Ha. apply andb_true_iff in Ha as [Hd Ha]. apply negb_true_iff in Hd.
    rewrite !app_String. cbn [replace_unit].
    unfold just in Hd. rewrite Ascii.eqb_sym, Hd. by rewrite IH.
Qed.

(** X12: with no [fromEmail], the new [From:] line keeps the display name,
    writes the old address after the word [at] in place of its angle
    brackets, and names [data.originalRecipient] between angle brackets:
    the first [<] becomes [at ] and the first [>] goes. *)
Theorem from_without_sender cfg originalRecipient matched (a b c : string) :
  JS.truthy (fromEmail cfg) = false →
  lacks "<" a = true → lacks ">" (a +:+ "at " +:+ b) = true →
  Header.from_text cfg originalRecipient matched
    (<[1%nat := a +:+ String "<" (b +:+ String ">" c)]> ∅)
  = "From: " +:+ a +:+ "at " +:+ b +:+ c
    +:+ " <" +:+ JS.to_string originalRecipient +:+ ">".
Proof.
  intros Hfrom Ha Hb. unfold Header.from_text.
  rewrite Hfrom, p1_insert, replace_unit_first by done.
  rewrite <- !string_app_assoc, replace_unit_first by by rewrite !string_app_assoc.
  by rewrite !string_app_assoc.
Qed.

End DisplayName.


(** ** The rules of [processMessage], one by one *)

Section HeaderRules.
Import Regex Greedy Lines.

Ltac lines_ok :=
  repeat (constructor; [split; [done|split; [reflexivity|first [by left|by right]]]|]);
  by constructor.

Ltac each_line := repeat (constructor; [reflexivity|]); by constructor.

(** X9: a header with no [Reply-To:] line gets one at its end, made of what
    stands after the name on the first [From:] line, with that line's line
    end; a header that has a [Reply-To:] line, in any letter case, or no
    [From:] line is left as it is. *)
Theorem reply_to_added lines :
  Forall is_line lines → unfolded "from:" lines = true →
  Header.add_reply_to (join lines) = join (with_reply_to lines).
Proof. intros Hlines Hun. by apply reply_to_rule. Qed.

Lemma reply_to_added_witness :
  Header.add_reply_to (join example_header)
  = join (example_header ++ [("Reply-To: Jane <jane@example.com>", CRLF)])%list.
Proof. apply (reply_to_added example_header); [lines_ok|reflexivity]. Defined.

(** X10: every [From:] line, in any letter case, becomes the line that the
    replacer makes of what stood after the name and one tab or space; its
    line end stays and every other line is kept as it is. *)
Theorem from_lines_rewritten cfg originalRecipient lines :
  Forall is_line lines → unfolded "from:" lines = true →
  replace_all Header.from_re (Header.from_text cfg originalRecipient) (join lines)
  = join (set_text "from:" (new_from cfg originalRecipient) lines).
Proof. intros Hlines Hun. by apply from_rule. Qed.

Lemma from_lines_rewritten_witness :
  replace_all Header.from_re (Header.from_text forwarding_config None) (join example_header)
  = join (set_text "from:" (new_from forwarding_config None) example_header).
Proof.
  apply (from_lines_rewritten forwarding_config None example_header);
    [lines_ok|reflexivity].
Defined.

Lemma from_keeps_display_name_witness :
  Header.from_text forwarding_config None "From: Jane <jane@example.com>"
    (<[1%nat := "Jane <jane@example.com>"]> ∅)
  = "From: Jane <noreply@example.com>".
Proof.
  apply (from_keeps_display_name forwarding_config None "From: Jane <jane@example.com>"
           "Jane " "jane@example.com" ""); reflexivity.
Defined.

Lemma from_without_sender_witness :
  Header.from_text info_config (Some "info@example.com") "From: Jane <jane@example.com>"
    (<[1%nat := "Jane <jane@example.com>"]> ∅)
  = "From: Jane at jane@example.com <info@example.com>".
Proof.
  apply (from_without_sender info_config (Some "info@example.com")
           "From: Jane <jane@example.com>" "Jane " "jane@example.com" ""); reflexivity.
Defined.

(** X13: every [Subject:] line, in any letter case, becomes [Subject: ],
    the prefix and what stood after the name and one tab or space; its line
    end stays and every other line is kept as it is. *)
Theorem subject_lines_get_prefix prefix lines :
  Forall is_line lines →
  replace_all Header.subject_re (λ _ g, "Subject: " +:+ prefix +:+ Header.p1 g) (join lines)
  = join (set_text "subject:" (λ v, "Subject: " +:+ prefix +:+ v) lines).
Proof. intros Hlines. by apply subject_rule. Qed.

Lemma subject_lines_get_prefix_witness :
  replace_all Header.subject_re (λ _ g, "Subject: " +:+ "[fwd] " +:+ Header.p1 g)
    (join example_header)
  = join (set_text "subject:" (λ v, "Subject: " +:+ "[fwd] " +:+ v) example_header).
Proof. apply (subject_lines_get_prefix "[fwd] " example_header). lines_ok. Defined.

(** X14: every [To:] line, in any letter case, becomes [To: ] and the
    configured address, whatever stood on it; its line end stays and every
    other line is kept as it is. *)
Theorem to_lines_replaced to lines :
  Forall is_line lines →
  replace_all Header.to_re (λ _ _, "To: " +:+ to) (join lines)
  = join (set_text "to:" (λ _, "To: " +:+ to) lines).
Proof. intros Hlines. by apply to_rule. Qed.

Lemma to_lines_replaced_witness :
  replace_all Header.to_re (λ _ _, "To: " +:+ "list@example.com") (join example_header)
  = join (set_text "to:" (λ _, "To: " +:+ "list@example.com") example_header).
Proof. apply (to_lines_replaced "list@example.com" example_header). lines_ok. Defined.

(** X15: the three removals of lines 205-211 take out exactly the lines
    that start with [return-path:], [sender:] or [message-id:], in any
    letter case, each with its line end; the other lines stay, in their
    order. *)
Theorem named_lines_removed lines :
  Forall is_line lines →
  replace_all (Header.line_re "message-id:") Header.erase
    (replace_all (Header.line_re "sender:") Header.erase
       (replace_all (Header.line_re "return-path:") Header.erase (join lines)))
  = join (without "message-id:" (without "sender:" (without "return-path:" lines))).
Proof.
  intros Hlines.
  rewrite (removal_rule "return-path:") by (done || apply name_return_path).
  rewrite (removal_rule "sender:") by (by apply Forall_without || apply name_sender).
  apply (removal_rule "message-id:"); [apply name_message_id|].
  by do 2 apply Forall_without.
Qed.

Lemma named_lines_removed_witness :
  replace_all (Header.line_re "message-id:") Header.erase
    (replace_all (Header.line_re "sender:") Header.erase
       (replace_all (Header.line_re "return-path:") Header.erase (join example_header)))
  = join (without "message-id:" (without "sender:" (without "return-path:" example_header))).
Proof. apply (named_lines_removed example_header). lines_ok. Defined.

(** X16: every [DKIM-Signature:] line, in any letter case, goes with the
    lines that continue it, those after it that start with white space;
    the other lines stay, in their order.  It holds where no line is white
    space only. *)
Theorem dkim_removed_with_continuation lines :
  Forall is_line lines → no_blank_line lines →
  replace_all Header.dkim_re Header.erase (join lines)
  = join (without_folded "dkim-signature:" false lines).
Proof. intros Hlines Hblank. by apply dkim_rule. Qed.

Lemma dkim_removed_with_continuation_witness :
  replace_all Header.dkim_re Header.erase (join example_header)
  = join (without_folded "dkim-signature:" false example_header).
Proof.
  apply (dkim_removed_with_continuation example_header); [lines_ok|each_line].
Defined.

Lemma other_headers_stay_witness :
  Header.rewrite_header forwarding_config None (join other_header) = join other_header.
Proof.
  apply (other_headers_stay forwarding_config None other_header); [lines_ok|each_line].
Defined.

Lemma process_rewrites_header_lines_witness :
  Header.process forwarding_config None (join example_header +:+ CRLF +:+ example_body)
  = join forwarded_header +:+ CRLF +:+ example_body.
Proof.
  apply (process_rewrites_header_lines forwarding_config None example_header CRLF
           example_body);
    [by repeat split|done|lines_ok|each_line|reflexivity|by right|reflexivity].
Defined.

End HeaderRules.
